(** * gmpxx_mkII: precision propagation and the AGM/Taylor transcendentals

    A shallow embedding of the [mpf_class] layer of gmpxx_mkII.h and of
    the functions [const_pi], [const_log2], [log] and [exp] built on it.

    The embedding follows the header in its default build (mkII mode:
    [___GMPXX_MKII_NOPRECCHANGE___] is not defined, assertions are
    compiled in).  Two generations of the header are in the repository;
    unless a definition says otherwise it is taken from the complete one
    (3560 lines, the one the README describes).  The older, shorter
    gmpxx_mkII.h is embedded in [Module Legacy] where it differs.

    GMP itself is not part of the repository.  Its arithmetic on
    magnitudes is an interface here ([Engine]); its precision
    bookkeeping, which is what most statements are about, is written
    out after gmp-impl.h for 64-bit limbs (the README asks for LP64). *)

From Stdlib Require Import ZArith Lia Bool List Ascii String.
Import ListNotations.
Open Scope Z_scope.

(** ** Machine integers *)

(** [mp_bitcnt_t] is [unsigned long]; [mp_exp_t] is [long]; the loop
    counters of [exp] are [int]. *)
Definition to_ulong (z : Z) : Z := z mod 2 ^ 64.
Definition to_long (z : Z) : Z := (z + 2 ^ 63) mod 2 ^ 64 - 2 ^ 63.
Definition to_int (z : Z) : Z := (z + 2 ^ 31) mod 2 ^ 32 - 2 ^ 31.

(** A C [double] literal.  Only dyadic constants occur in the code
    (0.0, 0.25, 1.0, 2.0, 4.0); [Dyadic m e] stands for [m * 2^e]. *)
Inductive double : Type := Dyadic (m e : Z).

Definition d_0_0 : double := Dyadic 0 0.
Definition d_0_25 : double := Dyadic 1 (-2).
Definition d_1_0 : double := Dyadic 1 0.
Definition d_2_0 : double := Dyadic 1 1.
Definition d_4_0 : double := Dyadic 1 2.

(** ** Outcomes of a call *)

(** A call returns, aborts in [assert], throws [std::invalid_argument],
    or is still inside a [while (!converged)] loop when the iteration
    budget of the model is used up. *)
Inductive result (A : Type) : Type :=
| Ok (a : A)
| AssertionFailed
| InvalidArgument
| OutOfFuel.

Arguments Ok {A} a.
Arguments AssertionFailed {A}.
Arguments InvalidArgument {A}.
Arguments OutOfFuel {A}.

Definition bind {A B : Type} (m : result A) (f : A -> result B) : result B :=
  match m with
  | Ok a => f a
  | AssertionFailed => AssertionFailed
  | InvalidArgument => InvalidArgument
  | OutOfFuel => OutOfFuel
  end.

Notation "x <- m ;; k" := (bind m (fun x => k))
  (at level 61, m at next level, right associativity).
Notation "m ;;; k" := (bind m (fun _ => k))
  (at level 61, right associativity).

(** [assert(c)] *)
Definition assert (c : bool) : result unit :=
  if c then Ok tt else AssertionFailed.

(** ** The numeric engine (GMP's mpf arithmetic on magnitudes)

    Every operation that writes a destination takes the destination's
    limb precision first: GMP computes the result to that precision,
    whatever the precisions of the operands. *)
Class Engine : Type := {
  mag : Type;
  E_zero : mag;
  E_set : Z -> mag -> mag;
  E_set_d : Z -> double -> mag;
  E_set_si : Z -> Z -> mag;
  E_set_ui : Z -> Z -> mag;
  (** [None]: the string is not a numeral in that base (mpf_set_str
      returns -1). *)
  E_set_str : Z -> string -> Z -> option mag;
  E_add : Z -> mag -> mag -> mag;
  E_sub : Z -> mag -> mag -> mag;
  E_mul : Z -> mag -> mag -> mag;
  E_div : Z -> mag -> mag -> mag;
  E_sqrt : Z -> mag -> mag;
  E_neg : Z -> mag -> mag;
  E_abs : Z -> mag -> mag;
  E_floor : Z -> mag -> mag;
  E_mul_2exp : Z -> mag -> Z -> mag;
  E_div_2exp : Z -> mag -> Z -> mag;
  E_cmp : mag -> mag -> Z;
  (** the exponent [mpf_get_d_2exp] stores: the value is [d * 2^exp]
      with [0.5 <= |d| < 1] *)
  E_get_d_2exp : mag -> Z;
  E_get_si : mag -> Z
}.

(** What GMP guarantees about precision: a value computed into a
    destination of [k] limbs is copied unchanged by [mpf_set] into
    another destination of [k] limbs; and the double 0.0 is stored as
    the zero an [mpf_init] leaves. *)
Class EngineLaws (E : Engine) : Prop := {
  set_zero : forall k, E_set k E_zero = E_zero;
  set_set : forall k m, E_set k (E_set k m) = E_set k m;
  set_set_d : forall k d, E_set k (E_set_d k d) = E_set_d k d;
  set_d_zero : forall k, E_set_d k d_0_0 = E_zero;
  set_set_si : forall k z, E_set k (E_set_si k z) = E_set_si k z;
  set_set_ui : forall k z, E_set k (E_set_ui k z) = E_set_ui k z;
  set_add : forall k x y, E_set k (E_add k x y) = E_add k x y;
  set_sub : forall k x y, E_set k (E_sub k x y) = E_sub k x y;
  set_mul : forall k x y, E_set k (E_mul k x y) = E_mul k x y;
  set_div : forall k x y, E_set k (E_div k x y) = E_div k x y;
  set_sqrt : forall k x, E_set k (E_sqrt k x) = E_sqrt k x;
  set_neg : forall k x, E_set k (E_neg k x) = E_neg k x;
  set_abs : forall k x, E_set k (E_abs k x) = E_abs k x;
  set_floor : forall k x, E_set k (E_floor k x) = E_floor k x;
  set_mul_2exp : forall k x n, E_set k (E_mul_2exp k x n) = E_mul_2exp k x n;
  set_div_2exp : forall k x n, E_set k (E_div_2exp k x n) = E_div_2exp k x n
}.

Section Embedding.

Context {E : Engine}.

(** ** GMP: precision bookkeeping (gmp-impl.h, mpf/*.c) *)

Definition GMP_NUMB_BITS : Z := 64.

(** [__GMPF_BITS_TO_PREC(n)]:
    [(max(53, n) + 2 * GMP_NUMB_BITS - 1) / GMP_NUMB_BITS], in
    [mp_bitcnt_t] arithmetic. *)
Definition GMPF_BITS_TO_PREC (n : Z) : Z :=
  to_ulong (Z.max 53 n + 2 * GMP_NUMB_BITS - 1) / GMP_NUMB_BITS.

(** [__GMPF_PREC_TO_BITS(n)]:
    [(mp_bitcnt_t) n * GMP_NUMB_BITS - GMP_NUMB_BITS]. *)
Definition GMPF_PREC_TO_BITS (n : Z) : Z :=
  to_ulong (n * GMP_NUMB_BITS - GMP_NUMB_BITS).

(** An [mpf_t]: the limb precision [_mp_prec] and the magnitude (sign,
    exponent and limbs, owned by the engine). *)
Record mpf_t : Type := Mpf { mp_prec : Z; mp_val : mag }.

Definition mpf_init (default_limbs : Z) : mpf_t :=
  Mpf default_limbs E_zero.
Definition mpf_init2 (prec_in_bits : Z) : mpf_t :=
  Mpf (GMPF_BITS_TO_PREC prec_in_bits) E_zero.
Definition mpf_get_prec (x : mpf_t) : Z :=
  GMPF_PREC_TO_BITS (mp_prec x).

Definition mpf_set (r u : mpf_t) : mpf_t :=
  Mpf (mp_prec r) (E_set (mp_prec r) (mp_val u)).
Definition mpf_set_d (r : mpf_t) (d : double) : mpf_t :=
  Mpf (mp_prec r) (E_set_d (mp_prec r) d).
Definition mpf_set_si (r : mpf_t) (z : Z) : mpf_t :=
  Mpf (mp_prec r) (E_set_si (mp_prec r) z).
Definition mpf_set_ui (r : mpf_t) (z : Z) : mpf_t :=
  Mpf (mp_prec r) (E_set_ui (mp_prec r) z).
(** Returns the destination and the return code (0 or -1); on failure
    the destination keeps its value. *)
Definition mpf_set_str (r : mpf_t) (str : string) (base : Z) : mpf_t * Z :=
  match E_set_str (mp_prec r) str base with
  | Some m => (Mpf (mp_prec r) m, 0)
  | None => (r, -1)
  end.

Definition mpf_init_set_d (default_limbs : Z) (d : double) : mpf_t :=
  mpf_set_d (mpf_init default_limbs) d.
Definition mpf_init_set_si (default_limbs : Z) (z : Z) : mpf_t :=
  mpf_set_si (mpf_init default_limbs) z.
Definition mpf_init_set_ui (default_limbs : Z) (z : Z) : mpf_t :=
  mpf_set_ui (mpf_init default_limbs) z.
Definition mpf_init_set_str (default_limbs : Z) (str : string) (base : Z)
  : mpf_t * Z :=
  mpf_set_str (mpf_init default_limbs) str base.

Definition mpf_add (r u v : mpf_t) : mpf_t :=
  Mpf (mp_prec r) (E_add (mp_prec r) (mp_val u) (mp_val v)).
Definition mpf_sub (r u v : mpf_t) : mpf_t :=
  Mpf (mp_prec r) (E_sub (mp_prec r) (mp_val u) (mp_val v)).
Definition mpf_mul (r u v : mpf_t) : mpf_t :=
  Mpf (mp_prec r) (E_mul (mp_prec r) (mp_val u) (mp_val v)).
Definition mpf_div (r u v : mpf_t) : mpf_t :=
  Mpf (mp_prec r) (E_div (mp_prec r) (mp_val u) (mp_val v)).
Definition mpf_sqrt (r u : mpf_t) : mpf_t :=
  Mpf (mp_prec r) (E_sqrt (mp_prec r) (mp_val u)).
Definition mpf_neg (r u : mpf_t) : mpf_t :=
  Mpf (mp_prec r) (E_neg (mp_prec r) (mp_val u)).
Definition mpf_abs (r u : mpf_t) : mpf_t :=
  Mpf (mp_prec r) (E_abs (mp_prec r) (mp_val u)).
Definition mpf_floor (r u : mpf_t) : mpf_t :=
  Mpf (mp_prec r) (E_floor (mp_prec r) (mp_val u)).
Definition mpf_mul_2exp (r u : mpf_t) (n : Z) : mpf_t :=
  Mpf (mp_prec r) (E_mul_2exp (mp_prec r) (mp_val u) n).
Definition mpf_div_2exp (r u : mpf_t) (n : Z) : mpf_t :=
  Mpf (mp_prec r) (E_div_2exp (mp_prec r) (mp_val u) n).
Definition mpf_cmp (u v : mpf_t) : Z := E_cmp (mp_val u) (mp_val v).
Definition mpf_get_d_2exp (u : mpf_t) : Z := E_get_d_2exp (mp_val u).
Definition mpf_get_si (u : mpf_t) : Z := E_get_si (mp_val u).

End Embedding.

(** ** The class [mpf_class] (standard mode) *)

Section MpfClass.

Context {E : Engine}.

(** An [mpf_class] object is its one data member, [mpf_t value]. *)
Definition mpf_class : Type := mpf_t.

(** Constructors.  The ones without a precision argument read GMP's
    default limb precision, passed as [default_limbs]. *)

(** [mpf_class()] *)
Definition mpf_class_default (default_limbs : Z) : mpf_class :=
  mpf_init default_limbs.

(** [mpf_class(const mpf_class &op)] *)
Definition mpf_class_copy (op : mpf_class) : mpf_class :=
  let value := mpf_init2 (mpf_get_prec op) in
  mpf_set value op.

(** [mpf_class(const mpf_class &op, mp_bitcnt_t prec)] *)
Definition mpf_class_copy_prec (op : mpf_class) (prec : Z) : mpf_class :=
  let value := mpf_init2 prec in
  mpf_set value op.

(** [mpf_class(mpf_class &&op)]: [mpf_init(value); mpf_swap(value,
    op.value)].  The new object is the first component. *)
Definition mpf_class_move (default_limbs : Z) (op : mpf_class)
  : mpf_class * mpf_class :=
  let value := mpf_init default_limbs in
  (op, value).

(** [explicit mpf_class(const mpf_t op)] *)
Definition mpf_class_of_mpf_t (op : mpf_t) : mpf_class :=
  let value := mpf_init2 (mpf_get_prec op) in
  mpf_set value op.

(** [mpf_class(const double op)] *)
Definition mpf_class_d (default_limbs : Z) (op : double) : mpf_class :=
  mpf_init_set_d default_limbs op.

(** [mpf_class(const signed long int op)], [mpf_class(const signed int op)] *)
Definition mpf_class_si (default_limbs : Z) (op : Z) : mpf_class :=
  mpf_init_set_si default_limbs op.

(** [mpf_class(const unsigned long int op)] *)
Definition mpf_class_ui (default_limbs : Z) (op : Z) : mpf_class :=
  mpf_init_set_ui default_limbs op.

(** [mpf_class(const double op, mp_bitcnt_t prec)] *)
Definition mpf_class_d_prec (op : double) (prec : Z) : mpf_class :=
  let value := mpf_init2 prec in
  mpf_set_d value op.

(** [mpf_class(const signed long int op, mp_bitcnt_t prec)],
    [mpf_class(const signed int op, mp_bitcnt_t prec)] *)
Definition mpf_class_si_prec (op : Z) (prec : Z) : mpf_class :=
  let value := mpf_init2 prec in
  mpf_set_si value op.

(** [mpf_class(const unsigned long int op, mp_bitcnt_t prec)] *)
Definition mpf_class_ui_prec (op : Z) (prec : Z) : mpf_class :=
  let value := mpf_init2 prec in
  mpf_set_ui value op.

(** [mpf_class(const char *str)], [mpf_class(const std::string &str)];
    [base] is [gmpxx_defaults::base]. *)
Definition mpf_class_str (default_limbs : Z) (base : Z) (str : string)
  : result mpf_class :=
  let '(value, rc) := mpf_init_set_str default_limbs str base in
  if negb (rc =? 0) then InvalidArgument else Ok value.

(** [mpf_class(const char *str, mp_bitcnt_t prec, int base)],
    [mpf_class(const std::string &str, mp_bitcnt_t prec, int base)] *)
Definition mpf_class_str_prec (str : string) (prec : Z) (base : Z)
  : result mpf_class :=
  let value := mpf_init2 prec in
  let '(value, rc) := mpf_set_str value str base in
  if negb (rc =? 0) then InvalidArgument else Ok value.

(** Copy assignment, [operator=(const mpf_class &op)].  [self] is the
    outcome of the test [this != &op] (true when both are one
    object). *)
Definition operator_assign (self : bool) (this op : mpf_class) : mpf_class :=
  if negb self then
    let value := mpf_init2 (mpf_get_prec this) in
    mpf_set value op
  else this.

(** Move assignment, [operator=(mpf_class &&op)]: the same body in
    standard mode. *)
Definition operator_assign_move (self : bool) (this op : mpf_class)
  : mpf_class :=
  if negb self then
    let value := mpf_init2 (mpf_get_prec this) in
    mpf_set value op
  else this.

(** Assignments between two different objects, as all assignments of
    the algorithms below are. *)
Definition copy_assign (this op : mpf_class) : mpf_class :=
  operator_assign false this op.
Definition move_assign (this op : mpf_class) : mpf_class :=
  operator_assign_move false this op.

(** Members *)
Definition get_prec (this : mpf_class) : Z := mpf_get_prec this.
Definition div_2exp (this : mpf_class) (exp : Z) : mpf_class :=
  mpf_div_2exp this this exp.
Definition mul_2exp (this : mpf_class) (exp : Z) : mpf_class :=
  mpf_mul_2exp this this exp.
Definition get_si (this : mpf_class) : Z := mpf_get_si this.

Definition largerprec (op1 op2 : mpf_class) : Z :=
  let prec1 := get_prec op1 in
  let prec2 := get_prec op2 in
  if prec1 >? prec2 then prec1 else prec2.

(** The binary operators.  [mpf_class result;] is initialised a second
    time by [mpf_init2] before it is read, so only that is kept. *)
Definition operator_add (op1 op2 : mpf_class) : mpf_class :=
  let prec := largerprec op1 op2 in
  let result := mpf_init2 prec in
  mpf_add result op1 op2.

Definition operator_sub (op1 op2 : mpf_class) : mpf_class :=
  let prec := largerprec op1 op2 in
  let result := mpf_init2 prec in
  mpf_sub result op1 op2.

Definition operator_mul (op1 op2 : mpf_class) : mpf_class :=
  let prec := largerprec op1 op2 in
  let result := mpf_init2 prec in
  mpf_mul result op1 op2.

Definition operator_div (op1 op2 : mpf_class) : mpf_class :=
  let prec := largerprec op1 op2 in
  let result := mpf_init2 prec in
  mpf_div result op1 op2.

(** Unary minus *)
Definition operator_neg (op : mpf_class) : mpf_class :=
  let result := mpf_class_of_mpf_t op in
  mpf_neg result op.

(** [operator*(const mpf_class &op1, const T op2)] and
    [operator*(const T op1, const mpf_class &op2)] for a signed
    integral [T]: the result is built by the one-argument constructor,
    at the default precision. *)
Definition operator_mul_si (default_limbs : Z) (op1 : mpf_class) (op2 : Z)
  : mpf_class :=
  let result := mpf_class_si default_limbs op2 in
  mpf_mul result op1 result.

Definition operator_si_mul (default_limbs : Z) (op1 : Z) (op2 : mpf_class)
  : mpf_class :=
  operator_mul_si default_limbs op2 op1.

Definition operator_lt (op1 op2 : mpf_class) : bool :=
  mpf_cmp op1 op2 <? 0.

(** Elementary functions *)
Definition sqrt (op : mpf_class) : mpf_class :=
  let rop := mpf_class_copy op in
  mpf_sqrt rop op.

Definition abs (op : mpf_class) : mpf_class :=
  let rop := mpf_class_copy op in
  mpf_abs rop op.

Definition floor (op : mpf_class) : mpf_class :=
  let rop := mpf_class_copy op in
  mpf_floor rop op.

End MpfClass.

Declare Scope mpf_scope.
Delimit Scope mpf_scope with mpf.
Notation "x + y" := (operator_add x y) : mpf_scope.
Notation "x - y" := (operator_sub x y) : mpf_scope.
Notation "x * y" := (operator_mul x y) : mpf_scope.
Notation "x / y" := (operator_div x y) : mpf_scope.
Notation "- x" := (operator_neg x) : mpf_scope.
Notation "x <? y" := (operator_lt x y) : mpf_scope.

(** [while (!converged) { body }], [converged] being false on entry:
    [body] returns the updated variables and the flag. *)
Fixpoint while_not_converged {St : Type} (fuel : nat)
  (body : St -> result (St * bool)) (s : St) : result St :=
  match fuel with
  | O => OutOfFuel
  | S fuel' =>
      r <- body s ;;
      if snd r then Ok (fst r) else while_not_converged fuel' body (fst r)
  end.

(** ** Process-wide state *)

Section Globals.

Context {E : Engine}.

(** GMP's default precision, [gmpxx_defaults::base], the global
    [pi_cached], and the function-local statics of [const_pi()]
    ([calculated], [calculated_pi_precision]) and of [const_log2()]
    ([log2_cached], [calculated], [calculated_log2_precision]).  A
    function-local static object is constructed when control first
    passes its declaration: [log2_cached] is [None] until then. *)
Record globals : Type := Globals {
  gmp_default_fp_limb_precision : Z;
  base : Z;
  pi_cached : mpf_class;
  pi_calculated : bool;
  calculated_pi_precision : Z;
  log2_cached : option mpf_class;
  log2_calculated : bool;
  calculated_log2_precision : Z
}.

Definition mpf_set_default_prec (prec_in_bits : Z) (g : globals) : globals :=
  Globals (GMPF_BITS_TO_PREC prec_in_bits) (base g)
          (pi_cached g) (pi_calculated g) (calculated_pi_precision g)
          (log2_cached g) (log2_calculated g) (calculated_log2_precision g).

Definition mpf_get_default_prec (g : globals) : Z :=
  GMPF_PREC_TO_BITS (gmp_default_fp_limb_precision g).

Definition set_pi_cached (v : mpf_class) (g : globals) : globals :=
  Globals (gmp_default_fp_limb_precision g) (base g)
          v (pi_calculated g) (calculated_pi_precision g)
          (log2_cached g) (log2_calculated g) (calculated_log2_precision g).

Definition set_pi_calculated (c : bool) (g : globals) : globals :=
  Globals (gmp_default_fp_limb_precision g) (base g)
          (pi_cached g) c (calculated_pi_precision g)
          (log2_cached g) (log2_calculated g) (calculated_log2_precision g).

Definition set_calculated_pi_precision (p : Z) (g : globals) : globals :=
  Globals (gmp_default_fp_limb_precision g) (base g)
          (pi_cached g) (pi_calculated g) p
          (log2_cached g) (log2_calculated g) (calculated_log2_precision g).

Definition set_log2_cached (v : mpf_class) (g : globals) : globals :=
  Globals (gmp_default_fp_limb_precision g) (base g)
          (pi_cached g) (pi_calculated g) (calculated_pi_precision g)
          (Some v) (log2_calculated g) (calculated_log2_precision g).

Definition set_log2_calculated (c : bool) (g : globals) : globals :=
  Globals (gmp_default_fp_limb_precision g) (base g)
          (pi_cached g) (pi_calculated g) (calculated_pi_precision g)
          (log2_cached g) c (calculated_log2_precision g).

Definition set_calculated_log2_precision (p : Z) (g : globals) : globals :=
  Globals (gmp_default_fp_limb_precision g) (base g)
          (pi_cached g) (pi_calculated g) (calculated_pi_precision g)
          (log2_cached g) (log2_calculated g) p.

(** The state when [main] starts.  Namespace-scope objects of the one
    translation unit are constructed in the order of their
    definitions: [pi_cached] first, at GMP's start-up default
    ([__GMPF_BITS_TO_PREC(53)] limbs), and [global_mpf_class_initializer]
    last, which sets the default precision to 512 bits and the base
    to 10. *)
Definition initial_globals : globals :=
  let startup_limbs := GMPF_BITS_TO_PREC 53 in
  let g := Globals startup_limbs 0 (mpf_class_default startup_limbs)
                   false 0 None false 0 in
  let g := mpf_set_default_prec 512 g in
  let g := mpf_set_default_prec 512 g in
  Globals (gmp_default_fp_limb_precision g) 10
          (pi_cached g) (pi_calculated g) (calculated_pi_precision g)
          (log2_cached g) (log2_calculated g) (calculated_log2_precision g).

End Globals.

(** ** [const_pi] *)

Section ConstPi.

Context {E : Engine}.

(** The variables the loops of [const_pi] carry. *)
Record pi_vars : Type := PiVars {
  pv_a : mpf_class;
  pv_b : mpf_class;
  pv_t : mpf_class;
  pv_p : mpf_class;
  pv_a_next : mpf_class;
  pv_b_next : mpf_class;
  pv_t_next : mpf_class;
  pv_tmp_pi : mpf_class;
  pv_pi_previous : mpf_class;
  pv_tmp : mpf_class
}.

(** Body of the loop of [const_pi()].  [int iteration] is counted and
    never read.  The zero-argument form has no variable [tmp]: the
    field is carried along unchanged. *)
Definition const_pi_body (two four epsilon : mpf_class) (s : pi_vars)
  : result (pi_vars * bool) :=
  let a_next := move_assign (pv_a_next s) ((pv_a s + pv_b s) / two)%mpf in
  let b_next := move_assign (pv_b_next s) (sqrt (pv_a s * pv_b s)%mpf) in
  let t_next := move_assign (pv_t_next s)
      (pv_t s - pv_p s * (pv_a s - a_next) * (pv_a s - a_next))%mpf in
  let p := move_assign (pv_p s) (two * pv_p s)%mpf in
  let a := copy_assign (pv_a s) a_next in
  let b := copy_assign (pv_b s) b_next in
  let t := copy_assign (pv_t s) t_next in
  let pi_previous := copy_assign (pv_pi_previous s) (pv_tmp_pi s) in
  let tmp_pi := move_assign (pv_tmp_pi s)
      ((a + b) * (a + b) / (four * t))%mpf in
  let converged := (abs (tmp_pi - pi_previous) <? epsilon)%mpf in
  Ok (PiVars a b t p a_next b_next t_next tmp_pi pi_previous (pv_tmp s),
      converged).

(** [mpf_class const_pi()] *)
Definition const_pi (fuel : nat) (g : globals) : result (mpf_class * globals) :=
  let _default_prec := mpf_get_default_prec g in
  if negb (pi_calculated g)
     || (pi_calculated g && negb (calculated_pi_precision g =? _default_prec))
  then
    let dl := gmp_default_fp_limb_precision g in
    let g := set_pi_cached (move_assign (pi_cached g) (mpf_class_default dl)) g in
    let g := set_calculated_pi_precision (mpf_get_default_prec g) g in
    let one := mpf_class_d dl d_1_0 in
    let two := mpf_class_d dl d_2_0 in
    let four := mpf_class_d dl d_4_0 in
    let a := mpf_class_copy one in
    let b := (one / sqrt two)%mpf in
    let t := mpf_class_d dl d_0_25 in
    let p := mpf_class_copy one in
    let a_next := mpf_class_default dl in
    let b_next := mpf_class_default dl in
    let t_next := mpf_class_default dl in
    let tmp_pi := mpf_class_default dl in
    let pi_previous := mpf_class_default dl in
    let epsilon := mpf_class_copy one in
    let epsilon := div_2exp epsilon _default_prec in
    s <- while_not_converged fuel (const_pi_body two four epsilon)
           (PiVars a b t p a_next b_next t_next tmp_pi pi_previous
                   (mpf_class_default dl)) ;;
    let g := set_pi_calculated true g in
    let g := set_pi_cached (copy_assign (pi_cached g) (pv_tmp_pi s)) g in
    Ok (mpf_class_copy (pi_cached g), g)
  else
    Ok (mpf_class_copy (pi_cached g), g).

(** The twelve precision assertions of [const_pi(mp_bitcnt_t)], in
    their order. *)
Definition const_pi_prec_asserts (req_precision : Z)
  (calculated_pi epsilon : mpf_class) (s : pi_vars) : result unit :=
  assert (get_prec calculated_pi =? req_precision) ;;;
  assert (get_prec (pv_a s) =? req_precision) ;;;
  assert (get_prec (pv_b s) =? req_precision) ;;;
  assert (get_prec (pv_t s) =? req_precision) ;;;
  assert (get_prec (pv_p s) =? req_precision) ;;;
  assert (get_prec (pv_a_next s) =? req_precision) ;;;
  assert (get_prec (pv_b_next s) =? req_precision) ;;;
  assert (get_prec (pv_t_next s) =? req_precision) ;;;
  assert (get_prec (pv_tmp_pi s) =? req_precision) ;;;
  assert (get_prec (pv_pi_previous s) =? req_precision) ;;;
  assert (get_prec epsilon =? req_precision) ;;;
  assert (get_prec (pv_tmp s) =? req_precision).

(** Body of the loop of [const_pi(mp_bitcnt_t)]. *)
Definition const_pi_prec_body (two four epsilon : mpf_class) (s : pi_vars)
  : result (pi_vars * bool) :=
  let a_next := move_assign (pv_a_next s) ((pv_a s + pv_b s) / two)%mpf in
  let b_next := move_assign (pv_b_next s) (sqrt (pv_a s * pv_b s)%mpf) in
  let t_next := move_assign (pv_t_next s)
      (pv_t s - pv_p s * (pv_a s - a_next) * (pv_a s - a_next))%mpf in
  let p := move_assign (pv_p s) (two * pv_p s)%mpf in
  let a := copy_assign (pv_a s) a_next in
  let b := copy_assign (pv_b s) b_next in
  let t := copy_assign (pv_t s) t_next in
  let pi_previous := copy_assign (pv_pi_previous s) (pv_tmp_pi s) in
  let tmp_pi := move_assign (pv_tmp_pi s)
      ((a + b) * (a + b) / (four * t))%mpf in
  let tmp := move_assign (pv_tmp s) (abs (tmp_pi - pi_previous)%mpf) in
  let converged := (tmp <? epsilon)%mpf in
  Ok (PiVars a b t p a_next b_next t_next tmp_pi pi_previous tmp, converged).

(** [mpf_class const_pi(mp_bitcnt_t req_precision)] *)
Definition const_pi_prec (fuel : nat) (req_precision : Z) : result mpf_class :=
  let zero := mpf_class_d_prec d_0_0 req_precision in
  let quarter := mpf_class_d_prec d_0_25 req_precision in
  let one := mpf_class_d_prec d_1_0 req_precision in
  let two := mpf_class_d_prec d_2_0 req_precision in
  let four := mpf_class_d_prec d_4_0 req_precision in
  let calculated_pi := mpf_class_copy zero in
  let a := mpf_class_copy one in
  let b := (one / sqrt two)%mpf in
  let t := mpf_class_copy quarter in
  let p := mpf_class_copy one in
  let a_next := mpf_class_copy zero in
  let b_next := mpf_class_copy zero in
  let t_next := mpf_class_copy zero in
  let tmp_pi := mpf_class_copy zero in
  let pi_previous := mpf_class_copy zero in
  let epsilon := mpf_class_copy zero in
  let tmp := mpf_class_copy zero in
  let s := PiVars a b t p a_next b_next t_next tmp_pi pi_previous tmp in
  const_pi_prec_asserts req_precision calculated_pi epsilon s ;;;
  let epsilon := copy_assign epsilon one in
  let epsilon := div_2exp epsilon req_precision in
  s <- while_not_converged fuel (const_pi_prec_body two four epsilon) s ;;
  let calculated_pi := copy_assign calculated_pi (pv_tmp_pi s) in
  const_pi_prec_asserts req_precision calculated_pi epsilon s ;;;
  Ok calculated_pi.

End ConstPi.

(** ** [const_log2] *)

Section ConstLog2.

Context {E : Engine}.

(** The variables the AGM loops of [const_log2] and [log] carry. *)
Record agm_vars : Type := AgmVars {
  av_a : mpf_class;
  av_b : mpf_class;
  av_a_next : mpf_class;
  av_b_next : mpf_class
}.

(** Body of the loops of [const_log2()] and [log]. *)
Definition agm_body (two epsilon : mpf_class) (s : agm_vars)
  : result (agm_vars * bool) :=
  let a_next := move_assign (av_a_next s) ((av_a s + av_b s) / two)%mpf in
  let b_next := move_assign (av_b_next s) (sqrt (av_a s * av_b s)%mpf) in
  let converged := (abs (av_a s - av_b s) <? epsilon)%mpf in
  let a := copy_assign (av_a s) a_next in
  let b := copy_assign (av_b s) b_next in
  Ok (AgmVars a b a_next b_next, converged).

(** [mpf_class const_log2()] *)
Definition const_log2 (fuel : nat) (g : globals)
  : result (mpf_class * globals) :=
  let dl := gmp_default_fp_limb_precision g in
  let g := match log2_cached g with
           | Some _ => g
           | None => set_log2_cached (mpf_class_default dl) g
           end in
  let slot := match log2_cached g with
              | Some v => v
              | None => mpf_class_default dl
              end in
  let _default_prec := mpf_get_default_prec g in
  if negb (log2_calculated g)
     || (log2_calculated g
         && negb (calculated_log2_precision g =? _default_prec))
  then
    let slot := move_assign slot (mpf_class_default dl) in
    let g := set_log2_cached slot g in
    let g := set_calculated_log2_precision (mpf_get_default_prec g) g in
    let one := mpf_class_d dl d_1_0 in
    let two := mpf_class_d dl d_2_0 in
    let a := mpf_class_copy one in
    let epsilon := mpf_class_copy one in
    let epsilon := div_2exp epsilon (to_ulong (_default_prec / 2 - 2)) in
    let b := mpf_class_copy epsilon in
    let a_next := mpf_class_default dl in
    let b_next := mpf_class_default dl in
    s <- while_not_converged fuel (agm_body two epsilon)
           (AgmVars a b a_next b_next) ;;
    r <- const_pi fuel g ;;
    let g := snd r in
    let slot := move_assign slot
        (fst r / (mpf_class_ui dl _default_prec * av_a s))%mpf in
    let g := set_log2_cached slot g in
    let g := set_log2_calculated true g in
    Ok (mpf_class_copy slot, g)
  else
    Ok (mpf_class_copy slot, g).

(** The ten precision assertions of [const_log2(mp_bitcnt_t)], in
    their order. *)
Definition const_log2_prec_asserts (req_precision : Z)
  (log2 epsilon tmp sum one two : mpf_class) (s : agm_vars) : result unit :=
  assert (get_prec log2 =? req_precision) ;;;
  assert (get_prec epsilon =? req_precision) ;;;
  assert (get_prec tmp =? req_precision) ;;;
  assert (get_prec sum =? req_precision) ;;;
  assert (get_prec (av_a s) =? req_precision) ;;;
  assert (get_prec (av_b s) =? req_precision) ;;;
  assert (get_prec (av_a_next s) =? req_precision) ;;;
  assert (get_prec (av_b_next s) =? req_precision) ;;;
  assert (get_prec one =? req_precision) ;;;
  assert (get_prec two =? req_precision).

(** Body of the loop of [const_log2(mp_bitcnt_t)]. *)
Definition const_log2_prec_body (req_precision : Z)
  (two epsilon : mpf_class) (s : agm_vars) : result (agm_vars * bool) :=
  let a_next := move_assign (av_a_next s) ((av_a s + av_b s) / two)%mpf in
  let b_next := move_assign (av_b_next s) (sqrt (av_a s * av_b s)%mpf) in
  assert (get_prec b_next =? req_precision) ;;;
  let converged := (abs (av_a s - av_b s) <? epsilon)%mpf in
  let a := copy_assign (av_a s) a_next in
  let b := copy_assign (av_b s) b_next in
  Ok (AgmVars a b a_next b_next, converged).

(** [mpf_class const_log2(mp_bitcnt_t req_precision)] *)
Definition const_log2_prec (fuel : nat) (req_precision : Z)
  : result mpf_class :=
  let zero := mpf_class_d_prec d_0_0 req_precision in
  let one := mpf_class_d_prec d_1_0 req_precision in
  let two := mpf_class_d_prec d_2_0 req_precision in
  let log2 := mpf_class_copy zero in
  let epsilon := mpf_class_copy one in
  let tmp := mpf_class_copy zero in
  let a := mpf_class_copy one in
  let b := mpf_class_copy one in
  let a_next := mpf_class_copy zero in
  let b_next := mpf_class_copy zero in
  let sum := mpf_class_copy one in
  let b := div_2exp b (to_ulong (req_precision / 2 - 2)) in
  let epsilon := div_2exp epsilon req_precision in
  let s := AgmVars a b a_next b_next in
  const_log2_prec_asserts req_precision log2 epsilon tmp sum one two s ;;;
  s <- while_not_converged fuel
         (const_log2_prec_body req_precision two epsilon) s ;;
  pi <- const_pi_prec fuel req_precision ;;
  let log2 := move_assign log2
      (pi / (mpf_class_ui_prec req_precision req_precision * av_a s))%mpf in
  pi' <- const_pi_prec fuel req_precision ;;
  assert (get_prec pi' =? req_precision) ;;;
  assert (get_prec (mpf_class_ui_prec req_precision req_precision)
          =? req_precision) ;;;
  const_log2_prec_asserts req_precision log2 epsilon tmp sum one two s ;;;
  Ok log2.

End ConstLog2.

(** ** [log] and [exp] *)

Section LogExp.

Context {E : Engine}.

(** The ten precision assertions of [log], in their order. *)
Definition log_asserts (req_precision : Z)
  (_log epsilon tmp s _pi _log2 : mpf_class) (v : agm_vars) : result unit :=
  assert (get_prec _log =? req_precision) ;;;
  assert (get_prec epsilon =? req_precision) ;;;
  assert (get_prec tmp =? req_precision) ;;;
  assert (get_prec (av_a v) =? req_precision) ;;;
  assert (get_prec (av_b v) =? req_precision) ;;;
  assert (get_prec (av_a_next v) =? req_precision) ;;;
  assert (get_prec (av_b_next v) =? req_precision) ;;;
  assert (get_prec s =? req_precision) ;;;
  assert (get_prec _pi =? req_precision) ;;;
  assert (get_prec _log2 =? req_precision).

(** [mpf_class log(const mpf_class &x)].  [default_limbs] is GMP's
    default limb precision at the call (read by [m * _log2]). *)
Definition log (fuel : nat) (default_limbs : Z) (x : mpf_class)
  : result mpf_class :=
  let req_precision := get_prec x in
  let zero := mpf_class_d_prec d_0_0 req_precision in
  let one := mpf_class_d_prec d_1_0 req_precision in
  let two := mpf_class_d_prec d_2_0 req_precision in
  let four := mpf_class_d_prec d_4_0 req_precision in
  let _log := mpf_class_copy zero in
  let epsilon := mpf_class_copy one in
  let tmp := mpf_class_copy zero in
  let a := mpf_class_copy one in
  let b := mpf_class_copy one in
  let a_next := mpf_class_copy zero in
  let b_next := mpf_class_copy zero in
  let s := mpf_class_copy one in
  _pi <- const_pi_prec fuel req_precision ;;
  _log2 <- const_log2_prec fuel req_precision ;;
  log_asserts req_precision _log epsilon tmp s _pi _log2
              (AgmVars a b a_next b_next) ;;;
  let b := copy_assign b one in
  let b := mul_2exp b (req_precision / 2) in
  let s := move_assign s (b / x)%mpf in
  let m := mpf_get_d_2exp s in
  let b := copy_assign b one in
  let b := mul_2exp b (to_ulong m) in
  let s := move_assign s (x * b)%mpf in
  let b := move_assign b (four / s)%mpf in
  let epsilon := div_2exp epsilon req_precision in
  v <- while_not_converged fuel (agm_body two epsilon)
         (AgmVars a b a_next b_next) ;;
  let _log := move_assign _log
      (_pi / (two * av_b v) - operator_si_mul default_limbs m _log2)%mpf in
  log_asserts req_precision _log epsilon tmp s _pi _log2 v ;;;
  Ok _log.

(** [for (int i = l; i > 0; i--)
       _exp = one + ((r * _exp) / mpf_class(i, req_precision));]
    with [n] iterations left, [i] is [n]. *)
Fixpoint exp_series (n : nat) (req_precision : Z) (one r _exp : mpf_class)
  : mpf_class :=
  match n with
  | O => _exp
  | S n' =>
      let i := Z.of_nat n in
      let _exp := move_assign _exp
          (one + (r * _exp) / mpf_class_si_prec i req_precision)%mpf in
      exp_series n' req_precision one r _exp
  end.

(** [for (int i = 0; i < k; i++) _exp = _exp * _exp;] *)
Definition exp_squarings (k : Z) (_exp : mpf_class) : mpf_class :=
  Nat.iter (Z.to_nat k) (fun e => move_assign e (e * e)%mpf) _exp.

(** The values of [k], [l], [n] and [r] after the range reduction of
    [exp]. *)
Record exp_reduction : Type := ExpReduction {
  er_k : Z;
  er_l : Z;
  er_n : Z;
  er_r : mpf_class
}.

Definition exp_reduce (default_limbs : Z) (req_precision : Z)
  (_x _log2 r : mpf_class) : exp_reduction :=
  let k := mpf_get_d_2exp _x in
  if k >? 0 then
    let _x := div_2exp _x (to_ulong k) in
    let _log2 := div_2exp _log2 (to_ulong k) in
    let n := get_si (floor (_x / _log2)%mpf) in
    let r := move_assign r
        (_x - operator_si_mul default_limbs n _log2)%mpf in
    let l := to_long (req_precision / to_ulong k) in
    ExpReduction k l n r
  else
    let k := 0 in
    let l := to_long req_precision in
    let r := copy_assign r _x in
    let n := 0 in
    ExpReduction k l n r.

(** [mpf_class exp(const mpf_class &x)] *)
Definition exp (fuel : nat) (default_limbs : Z) (x : mpf_class)
  : result mpf_class :=
  let req_precision := get_prec x in
  let zero := mpf_class_d_prec d_0_0 req_precision in
  let one := mpf_class_d_prec d_1_0 req_precision in
  let _exp := mpf_class_copy one in
  let _x := mpf_class_copy x in
  let r := mpf_class_copy zero in
  _pi <- const_pi_prec fuel req_precision ;;
  _log2 <- const_log2_prec fuel req_precision ;;
  let _x := if (x <? zero)%mpf then move_assign _x (- _x)%mpf else _x in
  let red := exp_reduce default_limbs req_precision _x _log2 r in
  let _exp := exp_series (Z.to_nat (to_int (er_l red))) req_precision
                         one (er_r red) _exp in
  let _exp := exp_squarings (er_k red) _exp in
  let _exp := if er_n red >? 0
              then mul_2exp _exp (to_ulong (er_n red)) else _exp in
  let _exp := if er_n red <? 0
              then div_2exp _exp (to_ulong (to_long (- er_n red))) else _exp in
  let _exp := if (x <? zero)%mpf then move_assign _exp (one / _exp)%mpf
              else _exp in
  Ok _exp.

End LogExp.

(** ** A reference engine

    Binary floating point with truncation: a magnitude is a pair
    [(m, e)] standing for [m * 2^e], and a destination of [k] limbs
    keeps the leading [64 * (k + 1)] bits of a result (GMP keeps
    [k + 1] limbs).  It stands in for GMP where a statement is
    evaluated on concrete numbers. *)

Module Ref.

Definition bits (k : Z) : Z := 64 * (Z.max k 0 + 1).

Definition bitlen (m : Z) : Z :=
  if m =? 0 then 0 else Z.log2 (Z.abs m) + 1.

Definition trunc (k : Z) (x : Z * Z) : Z * Z :=
  let '(m, e) := x in
  let s := bitlen m - bits k in
  if m =? 0 then (0, 0)
  else if s <=? 0 then (m, e)
  else (Z.sgn m * Z.shiftr (Z.abs m) s, e + s).

Definition align (x y : Z * Z) : Z * Z * Z :=
  let '(m1, e1) := x in
  let '(m2, e2) := y in
  let e := Z.min e1 e2 in
  (Z.shiftl m1 (e1 - e), Z.shiftl m2 (e2 - e), e).

Definition add (k : Z) (x y : Z * Z) : Z * Z :=
  let '(a, b, e) := align x y in trunc k (a + b, e).

Definition sub (k : Z) (x y : Z * Z) : Z * Z :=
  let '(a, b, e) := align x y in trunc k (a - b, e).

Definition mul (k : Z) (x y : Z * Z) : Z * Z :=
  trunc k (fst x * fst y, snd x + snd y).

Definition div (k : Z) (x y : Z * Z) : Z * Z :=
  if fst y =? 0 then (0, 0)
  else
    let s := bits k + bitlen (fst y) in
    trunc k (Z.quot (Z.shiftl (fst x) s) (fst y), snd x - snd y - s).

Definition sqrt (k : Z) (x : Z * Z) : Z * Z :=
  if fst x <=? 0 then (0, 0)
  else
    let s0 := 2 * bits k in
    let s := if Z.even (snd x - s0) then s0 else s0 + 1 in
    trunc k (Z.sqrt (Z.shiftl (fst x) s), (snd x - s) / 2).

Definition neg (k : Z) (x : Z * Z) : Z * Z := trunc k (- fst x, snd x).

Definition abs (k : Z) (x : Z * Z) : Z * Z := trunc k (Z.abs (fst x), snd x).

Definition floor (k : Z) (x : Z * Z) : Z * Z :=
  if snd x >=? 0 then trunc k x
  else trunc k (Z.shiftr (fst x) (- snd x), 0).

Definition mul_2exp (k : Z) (x : Z * Z) (n : Z) : Z * Z :=
  trunc k (fst x, snd x + n).

Definition div_2exp (k : Z) (x : Z * Z) (n : Z) : Z * Z :=
  trunc k (fst x, snd x - n).

Definition cmp (x y : Z * Z) : Z :=
  let '(a, b, _) := align x y in
  match a ?= b with
  | Lt => -1
  | Eq => 0
  | Gt => 1
  end.

Definition get_d_2exp (x : Z * Z) : Z :=
  if fst x =? 0 then 0 else snd x + bitlen (fst x).

Definition get_si (x : Z * Z) : Z :=
  to_long (if snd x >=? 0 then Z.shiftl (fst x) (snd x)
           else Z.quot (fst x) (2 ^ (- snd x))).

Definition set_d (k : Z) (d : double) : Z * Z :=
  match d with Dyadic m e => trunc k (m, e) end.

Definition set_z (k : Z) (z : Z) : Z * Z := trunc k (z, 0).

(** Numerals: an optional minus sign and one or more digits below the
    base (bases 2 to 10).  GMP's grammar is larger (fractions,
    exponents); this part is enough to tell numerals from other
    strings. *)
Definition digit_of (base : Z) (c : Ascii.ascii) : option Z :=
  let n := Z.of_nat (Ascii.nat_of_ascii c) - 48 in
  if (0 <=? n) && (n <? base) && (base <=? 10) && (2 <=? base)
  then Some n else None.

Fixpoint digits (base : Z) (acc : Z) (s : string) : option Z :=
  match s with
  | EmptyString => Some acc
  | String c s' =>
      match digit_of base c with
      | Some n => digits base (acc * base + n) s'
      | None => None
      end
  end.

Definition numeral (base : Z) (s : string) : option Z :=
  match s with
  | EmptyString => None
  | String "-"%char EmptyString => None
  | String "-"%char s' => option_map Z.opp (digits base 0 s')
  | _ => digits base 0 s
  end.

Definition set_str (k : Z) (s : string) (base : Z) : option (Z * Z) :=
  option_map (set_z k) (numeral base s).

#[export] Instance engine : Engine := {|
  mag := Z * Z;
  E_zero := (0, 0);
  E_set := trunc;
  E_set_d := set_d;
  E_set_si := set_z;
  E_set_ui := set_z;
  E_set_str := set_str;
  E_add := add;
  E_sub := sub;
  E_mul := mul;
  E_div := div;
  E_sqrt := sqrt;
  E_neg := neg;
  E_abs := abs;
  E_floor := floor;
  E_mul_2exp := mul_2exp;
  E_div_2exp := div_2exp;
  E_cmp := cmp;
  E_get_d_2exp := get_d_2exp;
  E_get_si := get_si
|}.

End Ref.

(** ** The algorithms as the specification words them

    Stated on magnitudes, every operation being carried out at one
    working precision of [k] limbs.  Where the specification leaves
    the order of the multiplications open, the one of the code is
    taken: [p * (a - a')^2] is [(p * (a - a')) * (a - a')] and
    [(a + b)^2] is [(a + b) * (a + b)]. *)

Section Specification.

Context {E : Engine}.

Variable k : Z.

Definition s_one : mag := E_set_d k d_1_0.
Definition s_two : mag := E_set_d k d_2_0.
Definition s_four : mag := E_set_d k d_4_0.
Definition s_quarter : mag := E_set_d k d_0_25.

(** [2^(-n)] *)
Definition s_pow2_neg (n : Z) : mag := E_div_2exp k s_one n.

(** [|x - y| < eps] *)
Definition s_close (x y eps : mag) : bool :=
  E_cmp (E_abs k (E_sub k x y)) eps <? 0.

(** Gauss-Legendre: the state [(a, b, t, p)]. *)
Record gl_state : Type := GL { gl_a : mag; gl_b : mag; gl_t : mag; gl_p : mag }.

(** [a0 = 1], [b0 = 1 / sqrt 2], [t0 = 1/4], [p0 = 1] *)
Definition gl_init : gl_state :=
  GL s_one (E_div k s_one (E_sqrt k s_two)) s_quarter s_one.

(** [a' = (a + b) / 2], [b' = sqrt (a b)], [t' = t - p (a - a')^2],
    [p' = 2 p] *)
Definition gl_step (s : gl_state) : gl_state :=
  let a' := E_div k (E_add k (gl_a s) (gl_b s)) s_two in
  let b' := E_sqrt k (E_mul k (gl_a s) (gl_b s)) in
  let d := E_sub k (gl_a s) a' in
  let t' := E_sub k (gl_t s) (E_mul k (E_mul k (gl_p s) d) d) in
  let p' := E_mul k s_two (gl_p s) in
  GL a' b' t' p'.

(** [pi_estimate = (a + b)^2 / (4 t)] *)
Definition gl_estimate (s : gl_state) : mag :=
  let ab := E_add k (gl_a s) (gl_b s) in
  E_div k (E_mul k ab ab) (E_mul k s_four (gl_t s)).

(** Iterate until [|pi_estimate - pi_estimate_previous| < eps]; the
    result is the last estimate. *)
Fixpoint gl_iterate (fuel : nat) (eps : mag) (s : gl_state) (previous : mag)
  : option mag :=
  match fuel with
  | O => None
  | S fuel' =>
      let s' := gl_step s in
      let estimate := gl_estimate s' in
      if s_close estimate previous eps then Some estimate
      else gl_iterate fuel' eps s' estimate
  end.

(** pi at a working precision of [p] bits: [eps = 2^(-p)], the
    estimate before the first one being 0. *)
Definition gauss_legendre_pi (fuel : nat) (p : Z) : option mag :=
  gl_iterate fuel (s_pow2_neg p) gl_init E_zero.

(** The AGM iteration [a' = (a + b) / 2], [b' = sqrt (a b)], until
    [|a - b| < eps]; the pair returned is the one formed from the
    first pair that passes the test. *)
Fixpoint agm_iterate (fuel : nat) (eps : mag) (a b : mag)
  : option (mag * mag) :=
  match fuel with
  | O => None
  | S fuel' =>
      let a' := E_div k (E_add k a b) s_two in
      let b' := E_sqrt k (E_mul k a b) in
      if s_close a b eps then Some (a', b')
      else agm_iterate fuel' eps a' b'
  end.

(** log 2 at a working precision of [p] bits: [a0 = 1],
    [b0 = 2^(-(p/2 - 2))], [eps], and the result
    [pi / (p * a_final)]. *)
Definition agm_log2 (fuel : nat) (p : Z) (eps : mag) (pi : mag)
  : option mag :=
  match agm_iterate fuel eps s_one (s_pow2_neg (to_ulong (p / 2 - 2))) with
  | Some (a_final, _) => Some (E_div k pi (E_mul k (E_set_ui k p) a_final))
  | None => None
  end.

(** log 2 as the specification has it: [eps = 2^(-p)], pi at the same
    precision. *)
Definition spec_log2 (fuel : nat) (p : Z) : option mag :=
  match gauss_legendre_pi fuel p with
  | Some pi => agm_log2 fuel p (s_pow2_neg p) pi
  | None => None
  end.

(** [E_i = 1 + r * E_(i+1) / divisor i] for [i] from [n] down to 1,
    from the seed. *)
Fixpoint s_series (divisor : Z -> Z) (n : nat) (r seed : mag) : mag :=
  match n with
  | O => seed
  | S n' =>
      let i := Z.of_nat n in
      s_series divisor n' r
        (E_add k s_one (E_div k (E_mul k r seed) (E_set_si k (divisor i))))
  end.

(** Squaring [n] times. *)
Definition s_squarings (n : Z) (x : mag) : mag :=
  Nat.iter (Z.to_nat n) (fun e => E_mul k e e) x.

(** Multiplying by [2^n]. *)
Definition s_shift (n : Z) (x : mag) : mag :=
  if n >? 0 then E_mul_2exp k x (to_ulong n)
  else if n <? 0 then E_div_2exp k x (to_ulong (to_long (- n)))
  else x.

(** [exp] of a magnitude [x] at [p] bits, as the claim has it: a [k]
    with [|x| / 2^k] in [[0.5, 1)] (the binary exponent of [|x|]),
    [n = floor ((|x| / 2^k) / log2)], [r = |x| / 2^k - n * log2], the
    recurrence [E_i = 1 + r * E_(i+1) / (i + 1)] for [i] from [l] down
    to 1 with [l = p / k], [k] squarings, the shift by [2^n], and the
    reciprocal for a negative [x]. *)
Definition exp_as_claimed (p : Z) (log2 : mag) (x : mag) : mag :=
  let negative := E_cmp x E_zero <? 0 in
  let ax := if negative then E_neg k x else x in
  let kx := E_get_d_2exp ax in
  let xr := E_div_2exp k ax (to_ulong kx) in
  let n := E_get_si (E_floor k (E_div k xr log2)) in
  let r := E_sub k xr (E_mul k log2 (E_set_si k n)) in
  let l := to_long (p / to_ulong kx) in
  let e := s_series (fun i => i + 1) (Z.to_nat (to_int l)) r s_one in
  let e := s_squarings kx e in
  let e := s_shift n e in
  if negative then E_div k s_one e else e.

(** [exp] as the code has it, with the default precision at [d] limbs.
    When the binary exponent [kx] of [|x|] is positive, log 2 is scaled
    by [2^(-kx)] as well: [n = floor ((|x| / 2^kx) / (log2 / 2^kx))]
    and [r = |x| / 2^kx - n * (log2 / 2^kx)], [l = p / kx]; the product
    [n * (log2 / 2^kx)] is formed at the default precision, the
    difference at the larger of the two precisions, and [r] is its
    value rounded into [k] limbs.  Otherwise nothing is reduced:
    [k = 0], [n = 0], [r = |x|], [l = p].  The recurrence is
    [E_i = 1 + r * E_(i+1) / i]. *)
Definition exp_as_coded (d : Z) (p : Z) (log2 : mag) (x : mag) : mag :=
  let negative := E_cmp x E_zero <? 0 in
  let ax := if negative then E_neg k x else x in
  let kx := E_get_d_2exp ax in
  let '(kk, l, n, r) :=
    if kx >? 0 then
      let xr := E_div_2exp k ax (to_ulong kx) in
      let log2' := E_div_2exp k log2 (to_ulong kx) in
      let n := E_get_si (E_floor k (E_div k xr log2')) in
      let product := E_mul d log2' (E_set_si d n) in
      let r := E_set k (E_sub (Z.max k d) xr product) in
      (kx, to_long (p / to_ulong kx), n, r)
    else (0, to_long p, 0, ax) in
  let e := s_series (fun i => i) (Z.to_nat (to_int l)) r s_one in
  let e := s_squarings kk e in
  let e := s_shift n e in
  if negative then E_div k s_one e else e.

End Specification.

(** A magnitude as the value of an object of [k] limbs; no magnitude
    when the loop is still running. *)
Definition lift {E : Engine} (k : Z) (o : option mag) : result mpf_class :=
  match o with
  | Some m => Ok (Mpf k m)
  | None => OutOfFuel
  end.

(** ** The older header, gmpxx_mkII.h

    Where it differs from the definitions above: move assignment
    swaps, so the destination takes over the precision of the source;
    the constructors from a number take the precision as a second
    argument that defaults to [defaults::get_default_prec()]; [long *
    mpf_class] goes through [operator*(const double, const mpf_class
    &)]; and [log] is another function.  Copy construction, copy
    assignment, the binary operators, [sqrt] and [abs] read the same
    in both headers. *)

Module Legacy.

Section Legacy.

Context {E : Engine}.

(** [operator=(mpf_class &&op)]: [mpf_swap(value, op.value)] *)
Definition move_assign (this op : mpf_class) : mpf_class := op.

(** [operator=(double d)] *)
Definition assign_d (this : mpf_class) (d : double) : mpf_class :=
  mpf_set_d this d.

(** [mpf_class(double op, mp_bitcnt_t prec = defaults::get_default_prec())] *)
Definition mpf_class_d (g : globals) (op : double) : mpf_class :=
  mpf_class_d_prec op (mpf_get_default_prec g).

(** [mpf_class(unsigned long int op,
              mp_bitcnt_t prec = defaults::get_default_prec())] *)
Definition mpf_class_ui (g : globals) (op : Z) : mpf_class :=
  mpf_class_ui_prec op (mpf_get_default_prec g).

(** [operator*(const double lhs, const mpf_class &rhs)]:
    [mpf_class result(lhs); result *= rhs;] *)
Definition operator_d_mul (g : globals) (lhs : double) (rhs : mpf_class)
  : mpf_class :=
  let result := mpf_class_d g lhs in
  mpf_mul result result rhs.

Definition const_pi_body (two four epsilon : mpf_class) (s : pi_vars)
  : result (pi_vars * bool) :=
  let a_next := move_assign (pv_a_next s) ((pv_a s + pv_b s) / two)%mpf in
  let b_next := move_assign (pv_b_next s) (sqrt (pv_a s * pv_b s)%mpf) in
  let t_next := move_assign (pv_t_next s)
      (pv_t s - pv_p s * (pv_a s - a_next) * (pv_a s - a_next))%mpf in
  let p := move_assign (pv_p s) (two * pv_p s)%mpf in
  let a := copy_assign (pv_a s) a_next in
  let b := copy_assign (pv_b s) b_next in
  let t := copy_assign (pv_t s) t_next in
  let pi_previous := copy_assign (pv_pi_previous s) (pv_tmp_pi s) in
  let tmp_pi := move_assign (pv_tmp_pi s)
      ((a + b) * (a + b) / (four * t))%mpf in
  let converged := (abs (tmp_pi - pi_previous) <? epsilon)%mpf in
  Ok (PiVars a b t p a_next b_next t_next tmp_pi pi_previous (pv_tmp s),
      converged).

(** [mpf_class const_pi()] *)
Definition const_pi (fuel : nat) (g : globals) : result (mpf_class * globals) :=
  let _default_prec := mpf_get_default_prec g in
  if negb (pi_calculated g)
     || (pi_calculated g && negb (calculated_pi_precision g =? _default_prec))
  then
    let dl := gmp_default_fp_limb_precision g in
    let g := set_pi_cached (move_assign (pi_cached g) (mpf_class_default dl)) g in
    let g := set_calculated_pi_precision (mpf_get_default_prec g) g in
    let one := mpf_class_d g d_1_0 in
    let two := mpf_class_d g d_2_0 in
    let four := mpf_class_d g d_4_0 in
    let a := mpf_class_copy one in
    let b := (one / sqrt two)%mpf in
    let t := mpf_class_d g d_0_25 in
    let p := mpf_class_copy one in
    let a_next := mpf_class_default dl in
    let b_next := mpf_class_default dl in
    let t_next := mpf_class_default dl in
    let tmp_pi := mpf_class_default dl in
    let pi_previous := mpf_class_default dl in
    let epsilon := mpf_class_copy one in
    let epsilon := div_2exp epsilon _default_prec in
    s <- while_not_converged fuel (const_pi_body two four epsilon)
           (PiVars a b t p a_next b_next t_next tmp_pi pi_previous
                   (mpf_class_default dl)) ;;
    let g := set_pi_calculated true g in
    let g := set_pi_cached (copy_assign (pi_cached g) (pv_tmp_pi s)) g in
    Ok (mpf_class_copy (pi_cached g), g)
  else
    Ok (mpf_class_copy (pi_cached g), g).

Definition agm_body (two epsilon : mpf_class) (s : agm_vars)
  : result (agm_vars * bool) :=
  let a_next := move_assign (av_a_next s) ((av_a s + av_b s) / two)%mpf in
  let b_next := move_assign (av_b_next s) (sqrt (av_a s * av_b s)%mpf) in
  let converged := (abs (av_a s - av_b s) <? epsilon)%mpf in
  let a := copy_assign (av_a s) a_next in
  let b := copy_assign (av_b s) b_next in
  Ok (AgmVars a b a_next b_next, converged).

(** [mpf_class const_log2()] *)
Definition const_log2 (fuel : nat) (g : globals)
  : result (mpf_class * globals) :=
  let dl := gmp_default_fp_limb_precision g in
  let g := match log2_cached g with
           | Some _ => g
           | None => set_log2_cached (mpf_class_default dl) g
           end in
  let slot := match log2_cached g with
              | Some v => v
              | None => mpf_class_default dl
              end in
  let _default_prec := mpf_get_default_prec g in
  if negb (log2_calculated g)
     || (log2_calculated g
         && negb (calculated_log2_precision g =? _default_prec))
  then
    let slot := move_assign slot (mpf_class_default dl) in
    let g := set_log2_cached slot g in
    let g := set_calculated_log2_precision (mpf_get_default_prec g) g in
    let one := mpf_class_d g d_1_0 in
    let two := mpf_class_d g d_2_0 in
    let a := mpf_class_copy one in
    let epsilon := mpf_class_copy one in
    let epsilon := div_2exp epsilon (to_ulong (_default_prec / 2 - 2)) in
    let b := mpf_class_copy epsilon in
    let a_next := mpf_class_default dl in
    let b_next := mpf_class_default dl in
    s <- while_not_converged fuel (agm_body two epsilon)
           (AgmVars a b a_next b_next) ;;
    r <- const_pi fuel g ;;
    let g := snd r in
    let slot := move_assign slot
        (fst r / (mpf_class_ui g _default_prec * av_a s))%mpf in
    let g := set_log2_cached slot g in
    let g := set_log2_calculated true g in
    Ok (mpf_class_copy slot, g)
  else
    Ok (mpf_class_copy slot, g).

(** [mpf_class log(const mpf_class &x)].  The line that prints the
    result to [std::cout] is left out. *)
Definition log (fuel : nat) (g : globals) (x : mpf_class)
  : result (mpf_class * globals) :=
  let g := mpf_set_default_prec 1000 g in
  let precision := mpf_get_default_prec g in
  let precision := 1000 in
  let zero := mpf_class_d g d_0_0 in
  let one := mpf_class_d g d_1_0 in
  let two := mpf_class_d g d_2_0 in
  let four := mpf_class_d g d_4_0 in
  let _log := mpf_class_copy zero in
  let epsilon := mpf_class_copy one in
  let tmp := mpf_class_copy zero in
  let a := mpf_class_copy one in
  let b := mpf_class_copy one in
  let a_next := mpf_class_copy zero in
  let b_next := mpf_class_copy zero in
  let s := mpf_class_copy one in
  let b := mul_2exp b (precision / 2) in
  let s := move_assign s (b / x)%mpf in
  let m := mpf_get_d_2exp s in
  let b := assign_d b d_1_0 in
  let b := mul_2exp b (to_ulong m) in
  let s := move_assign s (x * b)%mpf in
  let b := move_assign b (four / s)%mpf in
  let epsilon := div_2exp epsilon precision in
  v <- while_not_converged fuel (agm_body two epsilon)
         (AgmVars a b a_next b_next) ;;
  r1 <- const_pi fuel g ;;
  r2 <- const_log2 fuel (snd r1) ;;
  let _log := move_assign _log
      (fst r1 / (two * av_b v) - operator_d_mul (snd r2) (Dyadic m 0) (fst r2))%mpf in
  Ok (_log, snd r2).

End Legacy.

End Legacy.

(** ** Vocabulary of the statements *)

(** Limb precisions an [mpf_t] can have: [__GMPF_BITS_TO_PREC] gives at
    least 2, and the bit count has to fit [mp_bitcnt_t]. *)
Definition valid_limbs (k : Z) : Prop := 2 <= k < 2 ^ 58.

(** Bit precisions [mpf_get_prec] can report: the multiples of the limb
    size, from 64. *)
Definition limb_aligned (p : Z) : Prop :=
  64 <= p <= 2 ^ 64 - 128 /\ p mod 64 = 0.

(** The value of an object fits the object's own precision, as the
    value of every object built by a constructor does. *)
Definition fits {E : Engine} (x : mpf_class) : Prop :=
  E_set (mp_prec x) (mp_val x) = mp_val x.

(** All ten variables of the loop of [const_pi(p)] are objects of [k]
    limbs. *)
Definition pi_vars_prec {E : Engine} (k : Z) (s : pi_vars) : Prop :=
  mp_prec (pv_a s) = k /\ mp_prec (pv_b s) = k /\ mp_prec (pv_t s) = k /\
  mp_prec (pv_p s) = k /\ mp_prec (pv_a_next s) = k /\
  mp_prec (pv_b_next s) = k /\ mp_prec (pv_t_next s) = k /\
  mp_prec (pv_tmp_pi s) = k /\ mp_prec (pv_pi_previous s) = k /\
  mp_prec (pv_tmp s) = k.

(** The variables an AGM loop ends with, from the result of the
    iteration: [a] and [b] have just been assigned from [a_next] and
    [b_next]. *)
Definition agm_result {E : Engine} (k : Z) (o : option (mag * mag))
  : result agm_vars :=
  match o with
  | Some (a, b) => Ok (AgmVars (Mpf k a) (Mpf k b) (Mpf k a) (Mpf k b))
  | None => OutOfFuel
  end.

(** The test of [const_pi()] for serving the call from the cache. *)
Definition pi_cache_hit {E : Engine} (g : globals) : bool :=
  pi_calculated g && (calculated_pi_precision g =? mpf_get_default_prec g).

(** A state in which [const_pi()] has computed its value under the
    current default precision. *)
Definition pi_cached_state {E : Engine} (default_limbs base : Z)
  (slot : mpf_class) (log2_slot : option mpf_class) (log2_done : bool)
  (log2_tag : Z) : globals :=
  Globals default_limbs base slot true (GMPF_PREC_TO_BITS default_limbs)
          log2_slot log2_done log2_tag.

(** The loop variables of the older header that keep the precision [K]
    whatever is assigned to them. *)
Definition legacy_pi_inv {E : Engine} (K : Z) (s : pi_vars) : Prop :=
  mp_prec (pv_a s) = K /\ mp_prec (pv_b s) = K /\ mp_prec (pv_t s) = K /\
  mp_prec (pv_p s) = K /\ mp_prec (pv_tmp_pi s) = K /\
  mp_prec (pv_pi_previous s) = K.

Definition legacy_agm_inv {E : Engine} (K : Z) (s : agm_vars) : Prop :=
  mp_prec (av_a s) = K /\ mp_prec (av_b s) = K.

(** The magnitude a call returned, if it returned. *)
Definition value_of {E : Engine} (r : result mpf_class) : option mag :=
  match r with
  | Ok v => Some (mp_val v)
  | _ => None
  end.

Definition value_of_call {E : Engine} (r : result (mpf_class * globals))
  : option mag :=
  match r with
  | Ok (v, _) => Some (mp_val v)
  | _ => None
  end.

(** Whether a constructor call threw [std::invalid_argument]. *)
Definition throws_invalid_argument {A : Type} (r : result A) : bool :=
  match r with
  | InvalidArgument => true
  | _ => false
  end.

(** Inputs of the evaluations on the reference engine: 1.0 at 64 bits,
    0.25 at 128 bits, 4.0 at 64 bits, and the state at program start
    after [mpf_set_default_prec(64)]. *)
Definition ref_one_64 : @mpf_class Ref.engine := mpf_class_d_prec d_1_0 64.
Definition ref_quarter_128 : @mpf_class Ref.engine :=
  mpf_class_d_prec d_0_25 128.
Definition ref_four_64 : @mpf_class Ref.engine := mpf_class_d_prec d_4_0 64.
(** 5.0 at 64 bits. *)
Definition ref_five_64 : @mpf_class Ref.engine :=
  mpf_class_d_prec (Dyadic 5 0) 64.
Definition ref_globals_64 : @globals Ref.engine :=
  mpf_set_default_prec 64 initial_globals.

(** ** [mpf_class]: compound assignments, scalar operands, [hypot] *)

Section MpfClassMixed.

Context {E : Engine}.

(** [operator+=(mpf_class &lhs, const mpf_class &rhs)] and the three
    others: the engine writes into [lhs.value]. *)
Definition operator_add_assign (lhs rhs : mpf_class) : mpf_class :=
  mpf_add lhs lhs rhs.
Definition operator_sub_assign (lhs rhs : mpf_class) : mpf_class :=
  mpf_sub lhs lhs rhs.
Definition operator_mul_assign (lhs rhs : mpf_class) : mpf_class :=
  mpf_mul lhs lhs rhs.
Definition operator_div_assign (lhs rhs : mpf_class) : mpf_class :=
  mpf_div lhs lhs rhs.

(** A built-in arithmetic operand [T]: a signed integer, an unsigned
    integer or a [double].  The operator templates come in these three
    kinds, with one body. *)
Inductive scalar : Type :=
| Signed (z : Z)
| Unsigned (z : Z)
| Floating (d : double).

(** [mpf_class _rhs(rhs)]: the one-argument constructor of the kind. *)
Definition mpf_class_scalar (default_limbs : Z) (s : scalar) : mpf_class :=
  match s with
  | Signed z => mpf_class_si default_limbs z
  | Unsigned z => mpf_class_ui default_limbs z
  | Floating d => mpf_class_d default_limbs d
  end.

(** [operator+=(mpf_class &lhs, const T rhs)] and the three others *)
Definition operator_add_assign_T (default_limbs : Z) (lhs : mpf_class)
  (rhs : scalar) : mpf_class :=
  let _rhs := mpf_class_scalar default_limbs rhs in
  mpf_add lhs lhs _rhs.
Definition operator_sub_assign_T (default_limbs : Z) (lhs : mpf_class)
  (rhs : scalar) : mpf_class :=
  let _rhs := mpf_class_scalar default_limbs rhs in
  mpf_sub lhs lhs _rhs.
Definition operator_mul_assign_T (default_limbs : Z) (lhs : mpf_class)
  (rhs : scalar) : mpf_class :=
  let _rhs := mpf_class_scalar default_limbs rhs in
  mpf_mul lhs lhs _rhs.
Definition operator_div_assign_T (default_limbs : Z) (lhs : mpf_class)
  (rhs : scalar) : mpf_class :=
  let _rhs := mpf_class_scalar default_limbs rhs in
  mpf_div lhs lhs _rhs.

(** [operator+(const mpf_class &op1, const T op2)]:
    [mpf_class result(op1); result += op2;] *)
Definition operator_add_T (default_limbs : Z) (op1 : mpf_class)
  (op2 : scalar) : mpf_class :=
  let result := mpf_class_copy op1 in
  operator_add_assign_T default_limbs result op2.

(** [operator+(const T op1, const mpf_class &op2)]: [op2 + op1] *)
Definition operator_T_add (default_limbs : Z) (op1 : scalar)
  (op2 : mpf_class) : mpf_class :=
  operator_add_T default_limbs op2 op1.

(** [operator-(const mpf_class &op1, const T op2)]:
    [mpf_class result(op2); mpf_sub(result.value, op1.value,
    result.value);] *)
Definition operator_sub_T (default_limbs : Z) (op1 : mpf_class)
  (op2 : scalar) : mpf_class :=
  let result := mpf_class_scalar default_limbs op2 in
  mpf_sub result op1 result.

(** [operator-(const T op1, const mpf_class &op2)] *)
Definition operator_T_sub (default_limbs : Z) (op1 : scalar)
  (op2 : mpf_class) : mpf_class :=
  let result := mpf_class_scalar default_limbs op1 in
  mpf_sub result result op2.

(** [operator*(const mpf_class &op1, const T op2)] *)
Definition operator_mul_T (default_limbs : Z) (op1 : mpf_class)
  (op2 : scalar) : mpf_class :=
  let result := mpf_class_scalar default_limbs op2 in
  mpf_mul result op1 result.

(** [operator*(const T op1, const mpf_class &op2)]: [op2 * op1] *)
Definition operator_T_mul (default_limbs : Z) (op1 : scalar)
  (op2 : mpf_class) : mpf_class :=
  operator_mul_T default_limbs op2 op1.

(** [operator/(const mpf_class &op1, const T op2)] *)
Definition operator_div_T (default_limbs : Z) (op1 : mpf_class)
  (op2 : scalar) : mpf_class :=
  let result := mpf_class_scalar default_limbs op2 in
  mpf_div result op1 result.

(** [operator/(const T op1, const mpf_class &op2)] *)
Definition operator_T_div (default_limbs : Z) (op1 : scalar)
  (op2 : mpf_class) : mpf_class :=
  let result := mpf_class_scalar default_limbs op1 in
  mpf_div result result op2.

(** [operator+(const mpf_class &op)]: [mpf_class result(op.value);] *)
Definition operator_plus (op : mpf_class) : mpf_class :=
  mpf_class_of_mpf_t op.

(** [hypot]: [mpf_class rop;] is initialised again by [mpf_init2] at
    the larger precision, and the square root is move-assigned to
    it. *)
Definition hypot (default_limbs : Z) (op1 op2 : mpf_class) : mpf_class :=
  let rop := mpf_class_default default_limbs in
  let prec := largerprec op1 op2 in
  let rop := mpf_init2 prec in
  move_assign rop (sqrt (operator_add (operator_mul op1 op1)
                                      (operator_mul op2 op2))).

End MpfClassMixed.

(** ** Changing the precision of an object *)

Section SetPrec.

Context {E : Engine}.

(** [mpf_set_prec] (mpf/set_prc.c): nothing is done when the limb
    precision is already [__GMPF_BITS_TO_PREC(prec)]; otherwise it
    becomes that and the value keeps its most significant limbs, as
    under [mpf_set]. *)
Definition mpf_set_prec (x : mpf_t) (new_prec_in_bits : Z) : mpf_t :=
  let new_prec := GMPF_BITS_TO_PREC new_prec_in_bits in
  let old_prec := mp_prec x in
  if new_prec =? old_prec then x
  else Mpf new_prec (E_set new_prec (mp_val x)).

(** [void set_prec(mp_bitcnt_t prec)] *)
Definition set_prec (this : mpf_class) (prec : Z) : mpf_class :=
  mpf_set_prec this prec.

(** The precision GMP gives to a request of [p] bits: at least 53 bits,
    in whole limbs. *)
Definition granted_precision (p : Z) : Z :=
  64 * ((Z.max 53 p + 63) / 64).

End SetPrec.

(** ** The class [mpz_class]

    GMP's integers are exact, so an [mpz_t] is the integer it holds and
    each [mpz_] function is the arithmetic the GMP manual gives it.
    The built-in operands of the operator templates are machine
    integers: a value of a signed type of [w] bits lies in
    [signed_range w], and the conversions and negations the code
    applies to it are written out. *)

(** What a call does besides returning: the exceptions the header
    throws, and GMP's division by zero, which ends the program. *)
Inductive outcome (A : Type) : Type :=
| Value (a : A)
| Domain_error
| Bad_alloc
| Invalid_argument
| Division_by_zero.

Arguments Value {A} a.
Arguments Domain_error {A}.
Arguments Bad_alloc {A}.
Arguments Invalid_argument {A}.
Arguments Division_by_zero {A}.

Definition outcome_map {A B : Type} (f : A -> B) (o : outcome A)
  : outcome B :=
  match o with
  | Value a => Value (f a)
  | Domain_error => Domain_error
  | Bad_alloc => Bad_alloc
  | Invalid_argument => Invalid_argument
  | Division_by_zero => Division_by_zero
  end.

Definition outcome_bind {A B : Type} (o : outcome A) (f : A -> outcome B)
  : outcome B :=
  match o with
  | Value a => f a
  | Domain_error => Domain_error
  | Bad_alloc => Bad_alloc
  | Invalid_argument => Invalid_argument
  | Division_by_zero => Division_by_zero
  end.

Module Mpz.

Definition mpz_class : Type := Z.

(** The values of a signed integral type of [w] bits. *)
Definition signed_range (w : Z) (x : Z) : Prop :=
  - 2 ^ (w - 1) <= x < 2 ^ (w - 1).

(** Two's complement wrap-around at [w] bits. *)
Definition wrap (w : Z) (z : Z) : Z :=
  (z + 2 ^ (w - 1)) mod 2 ^ w - 2 ^ (w - 1).

(** [-x] for [x] of a signed type of [w] bits: the operand is promoted
    to [int] when the type is narrower. *)
Definition negate (w : Z) (x : Z) : Z := wrap (Z.max 32 w) (- x).

(** GMP (mpz/*.c).  The [_ui] arguments are [unsigned long]. *)
Definition mpz_add_ui (a u : Z) : Z := a + u.
Definition mpz_sub_ui (a u : Z) : Z := a - u.
Definition mpz_ui_sub (u a : Z) : Z := u - a.
Definition mpz_neg (a : Z) : Z := - a.
Definition mpz_tdiv_q_ui (a u : Z) : outcome Z :=
  if u =? 0 then Division_by_zero else Value (Z.quot a u).
Definition mpz_tdiv_r_ui (a u : Z) : outcome Z :=
  if u =? 0 then Division_by_zero else Value (Z.rem a u).
Definition mpz_mul_2exp (a n : Z) : Z := a * 2 ^ n.
Definition mpz_tdiv_q_2exp (a n : Z) : Z := Z.quot a (2 ^ n).
Definition mpz_fdiv_q_2exp (a n : Z) : Z := a / 2 ^ n.
Definition mpz_cmp_si (a s : Z) : Z :=
  match a ?= s with Lt => -1 | Eq => 0 | Gt => 1 end.
(** The number of binary digits of [|a|], and 1 for 0. *)
Definition mpz_sizeinbase_2 (a : Z) : Z :=
  if a =? 0 then 1 else Z.log2 (Z.abs a) + 1.
(** The least significant 64 bits of [|a|]. *)
Definition mpz_get_ui (a : Z) : Z := Z.abs a mod 2 ^ 64.

(** [mpz_fib_ui]: the Fibonacci number F[n]. *)
Fixpoint fib (n : nat) : Z :=
  match n with
  | O => 0
  | S n' =>
      match n' with
      | O => 1
      | S n'' => fib n' + fib n''
      end
  end.
Definition mpz_fib_ui (n : Z) : Z := fib (Z.to_nat n).

(** [mpz_fac_ui]: the factorial n!. *)
Fixpoint fac (n : nat) : Z :=
  match n with
  | O => 1
  | S n' => Z.of_nat n * fac n'
  end.
Definition mpz_fac_ui (n : Z) : Z := fac (Z.to_nat n).

(** [operator+=(mpz_class &lhs, const T rhs)], signed [T] *)
Definition operator_add_assign_si (w : Z) (lhs rhs : Z) : mpz_class :=
  if rhs >=? 0 then mpz_add_ui lhs (to_ulong rhs)
  else
    let _rhs := to_ulong (negate w rhs) in
    mpz_sub_ui lhs _rhs.

(** [operator+(const mpz_class &op1, const T op2)], signed [T] *)
Definition operator_add_si (w : Z) (op1 op2 : Z) : mpz_class :=
  let result := op1 in
  if op2 >=? 0 then mpz_add_ui result (to_ulong op2)
  else
    let _op2 := to_ulong (negate w op2) in
    mpz_sub_ui result (to_ulong _op2).

(** [operator+(const T op1, const mpz_class &op2)], signed [T] *)
Definition operator_si_add (w : Z) (op1 op2 : Z) : mpz_class :=
  let result := op2 in
  if op1 >=? 0 then mpz_add_ui result (to_ulong op1)
  else
    let _op1 := to_ulong (negate w op1) in
    mpz_sub_ui result (to_ulong _op1).

(** [operator-=(mpz_class &lhs, const T rhs)], signed [T] *)
Definition operator_sub_assign_si (w : Z) (lhs rhs : Z) : mpz_class :=
  if rhs >=? 0 then mpz_sub_ui lhs (to_ulong rhs)
  else
    let _rhs := to_ulong (negate w rhs) in
    mpz_add_ui lhs _rhs.

(** [operator-(const mpz_class &op1, const T op2)], signed [T] *)
Definition operator_sub_si (w : Z) (op1 op2 : Z) : mpz_class :=
  if op2 >=? 0 then mpz_sub_ui op1 (to_ulong op2)
  else
    let _op2 := to_ulong (negate w op2) in
    mpz_add_ui op1 _op2.

(** [operator-(const T op1, const mpz_class &op2)], signed [T] *)
Definition operator_si_sub (w : Z) (op1 op2 : Z) : mpz_class :=
  if op1 >=? 0 then mpz_ui_sub (to_ulong op1) op2
  else
    let _op1 := to_ulong (negate w op1) in
    let result := mpz_add_ui op2 _op1 in
    mpz_neg result.

(** [operator/=(mpz_class &lhs, const T rhs)], signed [T]; the
    negation is the one of [unsigned long]. *)
Definition operator_div_assign_si (lhs rhs : Z) : outcome mpz_class :=
  if rhs >=? 0 then mpz_tdiv_q_ui lhs (to_ulong rhs)
  else
    let _rhs := to_ulong (- to_ulong rhs) in
    outcome_map mpz_neg (mpz_tdiv_q_ui lhs (to_ulong _rhs)).

(** [operator/(const mpz_class &op1, const T op2)], signed [T]; the
    operand passes through [signed long] on its way to GMP. *)
Definition operator_div_si (op1 op2 : Z) : outcome mpz_class :=
  let result := op1 in
  if op2 >=? 0 then mpz_tdiv_q_ui result (to_ulong (to_long op2))
  else
    let _op2 := to_ulong (- to_ulong op2) in
    outcome_map mpz_neg (mpz_tdiv_q_ui result (to_ulong (to_long _op2))).

(** [operator%=(mpz_class &lhs, const T rhs)], signed [T] *)
Definition operator_mod_assign_si (lhs rhs : Z) : outcome mpz_class :=
  if rhs >=? 0 then mpz_tdiv_r_ui lhs (to_ulong rhs)
  else
    let _rhs := to_ulong (- to_ulong rhs) in
    mpz_tdiv_r_ui lhs (to_ulong _rhs).

(** [operator%(const mpz_class &op1, const T op2)], signed [T] *)
Definition operator_mod_si (op1 op2 : Z) : outcome mpz_class :=
  let result := op1 in
  if op2 >=? 0 then mpz_tdiv_r_ui result (to_ulong op2)
  else
    let _op2 := to_ulong (- to_ulong op2) in
    mpz_tdiv_r_ui result (to_ulong (to_long _op2)).

(** The shifts; [n] is converted to [mp_bitcnt_t]. *)
Definition operator_shl_assign (this n : Z) : mpz_class :=
  mpz_mul_2exp this (to_ulong n).
Definition operator_shr_assign (this n : Z) : mpz_class :=
  mpz_tdiv_q_2exp this (to_ulong n).
Definition operator_shl (op1 op2 : Z) : mpz_class :=
  let result := op1 in
  mpz_mul_2exp result (to_ulong op2).
Definition operator_shr (op1 op2 : Z) : mpz_class :=
  let result := op1 in
  mpz_fdiv_q_2exp result (to_ulong op2).

(** [operator<(const mpz_class &op1, T op2)] and
    [operator!=(const mpz_class &op1, T op2)], signed [T] *)
Definition operator_lt_si (op1 op2 : Z) : bool :=
  mpz_cmp_si op1 (to_long op2) <? 0.
Definition operator_ne_si (op1 op2 : Z) : bool :=
  negb (mpz_cmp_si op1 (to_long op2) =? 0).

(** [factorial(const mpz_class &n)], member and free function *)
Definition factorial (n : Z) : outcome mpz_class :=
  if operator_lt_si n 0 then Domain_error
  else
    let log2_n := mpz_sizeinbase_2 n in
    if log2_n >? 300 then Bad_alloc
    else Value (mpz_fac_ui (mpz_get_ui n)).

(** [fibonacci(const mpz_class &op)], member and free function.  The
    test [(op + 1) % 2 != 0] goes through the [int] operators. *)
Definition fibonacci (op : Z) : outcome mpz_class :=
  let log2_op := mpz_sizeinbase_2 op in
  if log2_op >? 300 then Bad_alloc
  else
    let isNegative := operator_lt_si op 0 in
    let adjusted_op := if isNegative then mpz_neg op else op in
    let n := mpz_get_ui adjusted_op in
    let result := mpz_fib_ui n in
    if isNegative then
      outcome_bind (operator_mod_si (operator_add_si 32 op 1) 2)
        (fun r =>
           if operator_ne_si r 0 then Value (mpz_neg result)
           else Value result)
    else Value result.

End Mpz.

(** The Fibonacci numbers of negative index,
    [F(-n) = (-1)^(n+1) F(n)]. *)
Definition negafibonacci (n : Z) : Z :=
  if n <? 0 then
    if Z.even n then - Mpz.fib (Z.to_nat (- n)) else Mpz.fib (Z.to_nat (- n))
  else Mpz.fib (Z.to_nat n).

(** ** The class [mpq_class]: constructors *)

Module Mpq.

(** An [mpq_t]: numerator and denominator. *)
Record mpq_t : Type := Mpq { num : Z; den : Z }.

Definition mpq_class : Type := mpq_t.

(** GMP (mpq/*.c) *)
Definition mpq_init : mpq_t := Mpq 0 1.
Definition mpq_set_num (q : mpq_t) (n : Z) : mpq_t := Mpq n (den q).
Definition mpq_set_den (q : mpq_t) (d : Z) : mpq_t := Mpq (num q) d.

(** [mpq_canonicalize]: the common factors are removed and the
    denominator is made positive; a zero denominator is GMP's division
    by zero. *)
Definition mpq_canonicalize (q : mpq_t) : outcome mpq_t :=
  if den q =? 0 then Division_by_zero
  else
    let g := Z.gcd (num q) (den q) in
    let n := num q / g in
    let d := den q / g in
    if d <? 0 then Value (Mpq (- n) (- d)) else Value (Mpq n d).

(** [mpq_set_si (rop, signed long op1, unsigned long op2)]: the two
    words are stored as they are, except that 0/d is stored as 0/1. *)
Definition mpq_set_si (q : mpq_t) (op1 : Z) (op2 : Z) : mpq_t :=
  let den := if op1 =? 0 then 1 else op2 in
  Mpq op1 den.

(** [operator==(const mpz_class &op1, T op2)], signed [T] *)
Definition mpz_operator_eq_si (op1 op2 : Z) : bool :=
  Mpz.mpz_cmp_si op1 (to_long op2) =? 0.

(** [mpq_class(const mpz_class &op1, const mpz_class &op2)] *)
Definition mpq_class_zz (op1 op2 : Z) : outcome mpq_class :=
  let value := mpq_init in
  let value := mpq_set_num value op1 in
  let value := mpq_set_den value op2 in
  if mpz_operator_eq_si op2 0 then Invalid_argument
  else mpq_canonicalize value.

(** [mpq_class(signed long int op1, signed long int op2)] and
    [mpq_class(int op1, int op2)]: the second argument becomes the
    [unsigned long] parameter of [mpq_set_si]. *)
Definition mpq_class_si_si (op1 op2 : Z) : mpq_class :=
  let value := mpq_init in
  mpq_set_si value (to_long op1) (to_ulong (to_long op2)).

End Mpq.

(** ** [log] on magnitudes *)

Section LogOnMagnitudes.

Context {E : Engine}.

(** [m], the binary exponent of the quotient [2^(p/2) / x]
    ([mpf_get_d_2exp(&m, s.get_mpf_t())]). *)
Definition log_exponent (k : Z) (p : Z) (x : mag) : Z :=
  let b := E_mul_2exp k (s_one k) (p / 2) in
  let s := E_div k b x in
  E_get_d_2exp s.

(** The factor [x] is scaled by, [b = one; b.mul_2exp(m)]: [mul_2exp]
    takes an [mp_bitcnt_t], so the [mp_exp_t] [m] is converted to
    [unsigned long] on the way. *)
Definition log_scale (k : Z) (m : Z) : mag :=
  E_mul_2exp k (s_one k) (to_ulong m).

(** The computation of [log] at [k] limbs ([p] bits), given pi and
    log 2: with [m] the binary exponent of [2^(p/2) / x], the argument
    is scaled by [log_scale m], the AGM of 1 and [4 / s] of the scaled
    argument [s] is iterated until [|a - b| < 2^-p], and the result is
    [pi / (2 * b) - m * log2]. *)
Definition log_as_coded (k : Z) (fuel : nat) (p : Z) (pi log2 x : mag)
  : option mag :=
  let m := log_exponent k p x in
  let b := log_scale k m in
  let s := E_mul k x b in
  let b := E_div k (s_four k) s in
  match agm_iterate k fuel (s_pow2_neg k p) (s_one k) b with
  | Some (_, b_final) =>
      Some (E_sub k (E_div k pi (E_mul k (s_two k) b_final))
                  (E_mul k log2 (E_set_si k m)))
  | None => None
  end.

(** [log] with its two constants. *)
Definition log_on_magnitudes (k : Z) (fuel : nat) (p : Z) (x : mag)
  : option mag :=
  match gauss_legendre_pi k fuel p with
  | Some pi =>
      match spec_log2 k fuel p with
      | Some log2 => log_as_coded k fuel p pi log2 x
      | None => None
      end
  | None => None
  end.

End LogOnMagnitudes.

(** The test of [const_log2()] for serving the call from the cache. *)
Definition log2_cache_hit {E : Engine} (g : globals) : bool :=
  log2_calculated g
  && (calculated_log2_precision g =? mpf_get_default_prec g).

(** ** Stream output

    A [std::string] is the list of its characters; the stream is the
    part of [std::ostream] the printing functions read and write.
    GMP's formatting ([gmp_asprintf], [mpf_get_str]) is taken as
    given. *)

Module Text.

Definition std_string : Type := list ascii.

(** A string literal. *)
Definition lit (s : string) : std_string := list_ascii_of_string s.

Definition length (s : std_string) : Z := Z.of_nat (List.length s).

(** [s[i]]; [s[s.size()]] is the null character. *)
Definition at_ (s : std_string) (i : Z) : ascii :=
  nth (Z.to_nat i) s Ascii.zero.

(** [s.append(n, c)] *)
Definition append_n (s : std_string) (n : Z) (c : ascii) : std_string :=
  s ++ repeat c (Z.to_nat n).

(** [s.insert(pos, n, c)] *)
Definition insert_n (s : std_string) (pos n : Z) (c : ascii) : std_string :=
  firstn (Z.to_nat pos) s ++ repeat c (Z.to_nat n) ++ skipn (Z.to_nat pos) s.

(** [s.substr(pos, n)] and [s.substr(pos)] *)
Definition substr (s : std_string) (pos n : Z) : std_string :=
  firstn (Z.to_nat n) (skipn (Z.to_nat pos) s).
Definition substr_from (s : std_string) (pos : Z) : std_string :=
  skipn (Z.to_nat pos) s.

(** [s.back()] of a non-empty string *)
Definition back (s : std_string) : ascii := last s Ascii.zero.

(** [s.find(c) == std::string::npos] *)
Definition not_found (c : ascii) (s : std_string) : bool :=
  negb (existsb (Ascii.eqb c) s).

(** The flags of [std::ios_base::fmtflags] that are read. *)
Record fmtflags : Type := Fmtflags {
  hex : bool;
  oct : bool;
  showbase : bool;
  uppercase : bool;
  showpos : bool;
  showpoint : bool;
  left : bool;
  internal : bool
}.

Record ostream : Type := Ostream {
  os_flags : fmtflags;
  os_width : Z;
  os_fill : ascii;
  os_text : std_string
}.

Section PrintMpz.

(** [gmp_asprintf(&str, format, op)] for an [mpz_t]. *)
Variable gmp_asprintf : string -> Z -> std_string.

(** [void print_mpz(std::ostream &os, const mpz_t op)] *)
Definition print_mpz (os : ostream) (op : Z) : ostream :=
  let flags := os_flags os in
  let width := os_width os in
  let fill := os_fill os in
  let is_hex := hex flags in
  let is_oct := oct flags in
  let show_base := showbase flags in
  let uppercase := uppercase flags in
  let str :=
    if Z.sgn op =? 0 then
      if is_hex && show_base then
        if uppercase then lit "0X0" else lit "0x0"
      else if is_oct then lit "0"
      else lit "0"
    else
      if is_oct then
        gmp_asprintf (if show_base then "%#Zo" else "%Zo") op
      else if is_hex then
        if show_base && uppercase then gmp_asprintf "%#ZX" op
        else if show_base && negb uppercase then gmp_asprintf "%#Zx" op
        else if negb show_base && uppercase then gmp_asprintf "%ZX" op
        else gmp_asprintf "%Zx" op
      else gmp_asprintf "%Zd" op in
  let s := str in
  let s := if showpos flags && (Z.sgn op >? 0) then lit "+" ++ s else s in
  let len := length s in
  let s :=
    if len <? width then
      let padding_length := width - len in
      if left flags then append_n s padding_length fill
      else if internal flags then
        let pos := 0 in
        let pos :=
          if Ascii.eqb (at_ s 0) "-" || Ascii.eqb (at_ s 0) "+"
          then 1 else pos in
        let pos :=
          if (length s >? pos + 1)
             && (Ascii.eqb (at_ s pos) "0"
                 && (Ascii.eqb (at_ s (pos + 1)) "x"
                     || Ascii.eqb (at_ s (pos + 1)) "X"))
          then pos + 2 else pos in
        insert_n s pos padding_length fill
      else insert_n s 0 padding_length fill
    else s in
  Ostream flags 0 fill (os_text os ++ s).

End PrintMpz.

End Text.

(** ** Printing an [mpf_t] in the default decimal notation *)

Module PrintMpf.

Import Text.

(** [std::to_string(int)] *)
Definition digit_char (d : Z) : ascii :=
  Ascii.ascii_of_nat (Z.to_nat (48 + d)).

Fixpoint unsigned_digits (fuel : nat) (z : Z) (acc : std_string)
  : std_string :=
  match fuel with
  | O => acc
  | S fuel' =>
      let acc' := digit_char (z mod 10) :: acc in
      if z / 10 =? 0 then acc' else unsigned_digits fuel' (z / 10) acc'
  end.

Definition to_string (z : Z) : std_string :=
  if z <? 0
  then "-"%char :: unsigned_digits (S (Z.to_nat (Z.log2 (- z)))) (- z) []
  else unsigned_digits (S (Z.to_nat (Z.log2 z))) z [].

Section ToDecString.

Context {E : Engine}.

(** [mpf_get_str(nullptr, &exp, base, n_digits, value)]: the digits,
    after a minus sign for a negative value, and the exponent; the
    value is [0.digits * base^exp].  [mpf_sgn]. *)
Variable mpf_get_str : Z -> Z -> mag -> std_string * Z.
Variable mpf_sgn : mag -> Z.

(** [std::string to_dec_string_default(const mpf_t value, int flags,
    int width, int prec, char fill)] *)
Definition to_dec_string_default (value : mag) (flags : fmtflags)
  (width prec : Z) (fill : ascii) : std_string :=
  let effective_prec := if prec =? 0 then 6 else prec in
  let '(dec_str, exp) := mpf_get_str 10 (to_ulong effective_prec) value in
  let is_showpoint := showpoint flags in
  let dec_str :=
    if mpf_sgn value <? 0 then substr_from dec_str 1 else dec_str in
  let formatted_dec :=
    if exp <=? 0 then
      let formatted_dec := lit "0." in
      let formatted_dec :=
        append_n formatted_dec (to_ulong (to_long (- exp + 1))) "0" in
      formatted_dec ++ dec_str
    else if to_ulong exp >? length dec_str then
      let formatted_dec :=
        substr dec_str 0 1 ++ lit "." ++ substr_from dec_str 1 in
      let adjusted_exp := to_int (exp - 1) in
      let exp_str :=
        if (adjusted_exp <? 10) && (adjusted_exp >? -10)
        then lit "0" ++ to_string adjusted_exp
        else to_string adjusted_exp in
      formatted_dec ++ lit "e+" ++ exp_str
    else
      let formatted_dec := substr dec_str 0 (to_ulong exp) in
      if exp <? to_long (length dec_str)
      then formatted_dec ++ lit "." ++ substr_from dec_str (to_ulong exp)
      else formatted_dec in
  let formatted_dec :=
    if is_showpoint && not_found "." formatted_dec then
      let formatted_dec := formatted_dec ++ lit "." in
      append_n formatted_dec
               (to_ulong (to_int (effective_prec + 1)) - length formatted_dec)
               "0"
    else formatted_dec in
  let formatted_dec :=
    if mpf_sgn value <? 0 then lit "-" ++ formatted_dec
    else formatted_dec in
  let formatted_dec :=
    if to_ulong width >? length formatted_dec then
      let padding_length := to_ulong width - length formatted_dec in
      if left flags then append_n formatted_dec padding_length fill
      else if internal flags then
        let pos := 0 in
        let pos :=
          if Ascii.eqb (at_ formatted_dec 0) "-"
             || Ascii.eqb (at_ formatted_dec 0) "+"
          then 1 else pos in
        insert_n formatted_dec pos padding_length fill
      else insert_n formatted_dec 0 padding_length fill
    else formatted_dec in
  if negb is_showpoint then
    if Ascii.eqb (back formatted_dec) "."
    then firstn (List.length formatted_dec - 1) formatted_dec
    else formatted_dec
  else formatted_dec.

End ToDecString.

(** Reading a text in fixed decimal notation: [Some (n, k)] for the
    text that writes [n / 10^k] with digits and at most one point. *)
Definition digit_value (c : ascii) : option Z :=
  let n := Z.of_nat (Ascii.nat_of_ascii c) - 48 in
  if (0 <=? n) && (n <=? 9) then Some n else None.

Fixpoint read_digits (acc : Z) (s : std_string) : option Z :=
  match s with
  | [] => Some acc
  | c :: s' =>
      match digit_value c with
      | Some d => read_digits (acc * 10 + d) s'
      | None => None
      end
  end.

Fixpoint read_fixed_from (acc : Z) (s : std_string) : option (Z * Z) :=
  match s with
  | [] => Some (acc, 0)
  | c :: s' =>
      if Ascii.eqb c "."
      then option_map (fun n => (n, length s')) (read_digits acc s')
      else
        match digit_value c with
        | Some d => read_fixed_from (acc * 10 + d) s'
        | None => None
        end
  end.

Definition read_fixed (s : std_string) : option (Z * Z) :=
  read_fixed_from 0 s.

End PrintMpf.

(** ** [mpf_class] with [mpz_class] operands *)

Section MpfClassAndMpz.

Context {E : Engine}.

(** [mpf_set_z] into a destination of [k] limbs. *)
Variable E_set_z : Z -> Z -> mag.

Definition mpf_set_z (r : mpf_t) (z : Z) : mpf_t :=
  Mpf (mp_prec r) (E_set_z (mp_prec r) z).

(** [mpf_class(const mpz_t op)], reached from [mpf_class(rhs)] for an
    [mpz_class] through its cast operator. *)
Definition mpf_class_z (default_limbs : Z) (op : Z) : mpf_class :=
  let value := mpf_init default_limbs in
  mpf_set_z value op.

(** [mpf_class &operator=(const mpz_class &other)] *)
Definition operator_assign_z (this : mpf_class) (other : Z) : mpf_class :=
  mpf_set_z this other.

(** [operator+=(mpf_class &lhs, const mpz_class &rhs)] and the three
    others *)
Definition operator_add_assign_z (default_limbs : Z) (lhs : mpf_class)
  (rhs : Z) : mpf_class :=
  let temp := mpf_class_z default_limbs rhs in
  operator_add_assign lhs temp.
Definition operator_sub_assign_z (default_limbs : Z) (lhs : mpf_class)
  (rhs : Z) : mpf_class :=
  let temp := mpf_class_z default_limbs rhs in
  operator_sub_assign lhs temp.
Definition operator_mul_assign_z (default_limbs : Z) (lhs : mpf_class)
  (rhs : Z) : mpf_class :=
  let temp := mpf_class_z default_limbs rhs in
  operator_mul_assign lhs temp.
Definition operator_div_assign_z (default_limbs : Z) (lhs : mpf_class)
  (rhs : Z) : mpf_class :=
  let temp := mpf_class_z default_limbs rhs in
  operator_div_assign lhs temp.

(** [operator+(const mpf_class &op1, const mpz_class &op2)] *)
Definition operator_add_z (default_limbs : Z) (op1 : mpf_class) (op2 : Z)
  : mpf_class :=
  let _op1 := mpf_class_copy op1 in
  let _op2 := mpf_class_z default_limbs op2 in
  operator_add_assign _op1 _op2.

(** [operator+(const mpz_class &op1, const mpf_class &op2)] *)
Definition operator_z_add (default_limbs : Z) (op1 : Z) (op2 : mpf_class)
  : mpf_class :=
  let _op1 := mpf_class_z default_limbs op1 in
  let _op2 := mpf_class_copy op2 in
  operator_add_assign _op2 _op1.

(** [operator-(const mpf_class &op1, const mpz_class &op2)] *)
Definition operator_sub_z (default_limbs : Z) (op1 : mpf_class) (op2 : Z)
  : mpf_class :=
  let _op1 := mpf_class_copy op1 in
  let _op2 := mpf_class_z default_limbs op2 in
  operator_sub_assign _op1 _op2.

(** [operator-(const mpz_class &op1, const mpf_class &op2)]: the
    left operand is assigned to a copy of the right one. *)
Definition operator_z_sub (op1 : Z) (op2 : mpf_class) : mpf_class :=
  let _op1 := mpf_class_copy op2 in
  let _op2 := mpf_class_copy op2 in
  let _op1 := operator_assign_z _op1 op1 in
  operator_sub_assign _op1 _op2.

(** [operator*(const mpf_class &op1, const mpz_class &op2)] *)
Definition operator_mul_z (default_limbs : Z) (op1 : mpf_class) (op2 : Z)
  : mpf_class :=
  let _op1 := mpf_class_copy op1 in
  let _op2 := mpf_class_z default_limbs op2 in
  operator_mul_assign _op1 _op2.

(** [operator*(const mpz_class &op1, const mpf_class &op2)] *)
Definition operator_z_mul (op1 : Z) (op2 : mpf_class) : mpf_class :=
  let _op1 := mpf_class_copy op2 in
  let _op2 := mpf_class_copy op2 in
  let _op1 := operator_assign_z _op1 op1 in
  operator_mul_assign _op1 _op2.

(** [operator/(const mpf_class &op1, const mpz_class &op2)] *)
Definition operator_div_z (default_limbs : Z) (op1 : mpf_class) (op2 : Z)
  : mpf_class :=
  let _op1 := mpf_class_copy op1 in
  let _op2 := mpf_class_z default_limbs op2 in
  operator_div_assign _op1 _op2.

(** [operator/(const mpz_class &op1, const mpf_class &op2)] *)
Definition operator_z_div (op1 : Z) (op2 : mpf_class) : mpf_class :=
  let _op1 := mpf_class_copy op2 in
  let _op2 := mpf_class_copy op2 in
  let _op1 := operator_assign_z _op1 op1 in
  operator_div_assign _op1 _op2.

End MpfClassAndMpz.

(** * Theorems *)

(** * Precision bookkeeping *)

(** Powers of two of the bounds, as numerals for [lia]. *)
Ltac pow2 :=
  change (2 ^ 58) with 288230376151711744 in *;
  change (2 ^ 64) with 18446744073709551616 in *;
  change (2 ^ 63) with 9223372036854775808 in *.

Lemma prec_to_bits_valid k :
  valid_limbs k -> GMPF_PREC_TO_BITS k = 64 * k - 64.
Proof.
  unfold valid_limbs, GMPF_PREC_TO_BITS, GMP_NUMB_BITS, to_ulong. intros H.
  pow2. rewrite Z.mod_small; lia.
Qed.

Lemma bits_to_prec_aligned p :
  limb_aligned p -> GMPF_BITS_TO_PREC p = p / 64 + 1.
Proof.
  unfold limb_aligned, GMPF_BITS_TO_PREC, GMP_NUMB_BITS, to_ulong.
  intros [Hr Hm]. pow2.
  rewrite Z.max_r by lia.
  rewrite Z.mod_small by lia.
  pose proof (Z.div_mod p 64 ltac:(lia)) as Hd. rewrite Hm in Hd.
  replace (p + 2 * 64 - 1) with ((p / 64 + 1) * 64 + 63) by lia.
  rewrite Z.div_add_l by lia. change (63 / 64) with 0. lia.
Qed.

Lemma aligned_valid p : limb_aligned p -> valid_limbs (GMPF_BITS_TO_PREC p).
Proof.
  intros H. rewrite (bits_to_prec_aligned p H).
  destruct H as [Hr Hm]. unfold valid_limbs. pow2.
  pose proof (Z.div_mod p 64 ltac:(lia)) as Hd. rewrite Hm in Hd.
  assert (1 <= p / 64) by lia.
  assert (p / 64 < 288230376151711744 - 1) by lia.
  lia.
Qed.

Lemma valid_aligned k : valid_limbs k -> limb_aligned (GMPF_PREC_TO_BITS k).
Proof.
  intros H. rewrite (prec_to_bits_valid k H).
  unfold valid_limbs in H. unfold limb_aligned. pow2. split; [lia|].
  replace (64 * k - 64) with ((k - 1) * 64) by lia. apply Z.mod_mul. lia.
Qed.

Lemma bits_prec_bits p :
  limb_aligned p -> GMPF_PREC_TO_BITS (GMPF_BITS_TO_PREC p) = p.
Proof.
  intros H. rewrite (prec_to_bits_valid _ (aligned_valid p H)).
  rewrite (bits_to_prec_aligned p H).
  destruct H as [Hr Hm].
  pose proof (Z.div_mod p 64 ltac:(lia)) as Hd. rewrite Hm in Hd. lia.
Qed.

Lemma prec_bits_prec k :
  valid_limbs k -> GMPF_BITS_TO_PREC (GMPF_PREC_TO_BITS k) = k.
Proof.
  intros H. rewrite (bits_to_prec_aligned _ (valid_aligned k H)).
  rewrite (prec_to_bits_valid k H).
  replace (64 * k - 64) with ((k - 1) * 64) by lia.
  rewrite Z.div_mul by lia. lia.
Qed.

Section Operators.

Context {E : Engine}.

Lemma init2_get_prec (x : mpf_t) :
  valid_limbs (mp_prec x) -> mpf_init2 (mpf_get_prec x) = Mpf (mp_prec x) E_zero.
Proof.
  intros H. unfold mpf_init2, mpf_get_prec. now rewrite prec_bits_prec.
Qed.

Lemma largerprec_max (a b : mpf_class) :
  largerprec a b = Z.max (get_prec a) (get_prec b).
Proof.
  unfold largerprec. cbv zeta.
  destruct (get_prec a >? get_prec b) eqn:Hc.
  - apply Z.gtb_lt in Hc. lia.
  - rewrite Z.gtb_ltb in Hc. apply Z.ltb_ge in Hc. lia.
Qed.

Lemma init2_largerprec (a b : mpf_class) :
  valid_limbs (mp_prec a) -> valid_limbs (mp_prec b) ->
  mpf_init2 (largerprec a b) = Mpf (Z.max (mp_prec a) (mp_prec b)) E_zero.
Proof.
  intros Ha Hb. rewrite largerprec_max. unfold get_prec, mpf_get_prec, mpf_init2.
  rewrite (prec_to_bits_valid _ Ha), (prec_to_bits_valid _ Hb).
  destruct (Z.max_spec (mp_prec a) (mp_prec b)) as [[Hlt Hm]|[Hlt Hm]]; rewrite Hm.
  - rewrite Z.max_r by lia. rewrite <- (prec_to_bits_valid _ Hb).
    now rewrite prec_bits_prec.
  - rewrite Z.max_l by lia. rewrite <- (prec_to_bits_valid _ Ha).
    now rewrite prec_bits_prec.
Qed.

Lemma get_prec_max (a b : mpf_class) :
  valid_limbs (mp_prec a) -> valid_limbs (mp_prec b) ->
  GMPF_PREC_TO_BITS (Z.max (mp_prec a) (mp_prec b))
  = Z.max (get_prec a) (get_prec b).
Proof.
  intros Ha Hb. unfold get_prec, mpf_get_prec.
  destruct (Z.max_spec (mp_prec a) (mp_prec b)) as [[Hlt Hm]|[Hlt Hm]]; rewrite Hm.
  - rewrite (prec_to_bits_valid _ Ha), (prec_to_bits_valid _ Hb). lia.
  - rewrite (prec_to_bits_valid _ Ha), (prec_to_bits_valid _ Hb). lia.
Qed.

(** C1.  In standard mode each of the binary operators [+], [-], [*]
    and [/] on [a] (at precision [p1]) and [b] (at precision [p2])
    returns a new object whose precision is [max p1 p2]: the result is
    built by [mpf_init2] at [largerprec a b], and neither operand is
    written. *)
Theorem C1_binary_operators_take_the_larger_precision (a b : mpf_class) :
  valid_limbs (mp_prec a) -> valid_limbs (mp_prec b) ->
  get_prec (a + b)%mpf = Z.max (get_prec a) (get_prec b) /\
  get_prec (a - b)%mpf = Z.max (get_prec a) (get_prec b) /\
  get_prec (a * b)%mpf = Z.max (get_prec a) (get_prec b) /\
  get_prec (a / b)%mpf = Z.max (get_prec a) (get_prec b).
Proof.
  intros Ha Hb.
  unfold operator_add, operator_sub, operator_mul, operator_div.
  cbv zeta. rewrite (init2_largerprec a b Ha Hb).
  unfold mpf_add, mpf_sub, mpf_mul, mpf_div. cbn [mp_prec].
  rewrite <- (get_prec_max a b Ha Hb). unfold get_prec, mpf_get_prec.
  cbn [mp_prec]. repeat split; reflexivity.
Qed.

(** C2.  After the copy assignment [x = y] in standard mode the
    precision of [x] is what it was before (the precision of [y] is
    not adopted), and the value of [x] is the value of [y] rounded by
    the engine into [x]'s precision.  [self] tells whether [y] is the
    object [x] itself. *)
Theorem C2_copy_assignment_keeps_the_precision
  (self : bool) (x y : mpf_class) :
  valid_limbs (mp_prec x) -> fits x -> (self = true -> y = x) ->
  get_prec (operator_assign self x y) = get_prec x /\
  mp_val (operator_assign self x y) = E_set (mp_prec x) (mp_val y).
Proof.
  intros Hx Hf Hs. unfold operator_assign. destruct self; cbn [negb].
  - rewrite (Hs eq_refl). split; [reflexivity | symmetry; exact Hf].
  - cbv zeta. rewrite (init2_get_prec x Hx). split; reflexivity.
Qed.

End Operators.

(** * The reference engine satisfies the laws *)

Lemma ref_bits_pos k : 64 <= Ref.bits k.
Proof. unfold Ref.bits. lia. Qed.

Lemma ref_trunc_idem k x : Ref.trunc k (Ref.trunc k x) = Ref.trunc k x.
Proof.
  destruct x as [m e].
  remember (Ref.trunc k (m, e)) as t eqn:Ht.
  unfold Ref.trunc in Ht.
  destruct (m =? 0) eqn:Hm0; [subst t; reflexivity|].
  destruct (Ref.bitlen m - Ref.bits k <=? 0) eqn:Hs.
  - subst t. unfold Ref.trunc. rewrite Hm0, Hs. reflexivity.
  - apply Z.leb_gt in Hs. apply Z.eqb_neq in Hm0.
    pose proof (ref_bits_pos k) as HB.
    assert (Hlen : Ref.bitlen m = Z.log2 (Z.abs m) + 1).
    { unfold Ref.bitlen. apply Z.eqb_neq in Hm0. now rewrite Hm0. }
    set (s := Ref.bitlen m - Ref.bits k) in *.
    set (q := Z.shiftr (Z.abs m) s) in *.
    assert (Habs : 0 < Z.abs m) by lia.
    assert (Hlq : Z.log2 q = Ref.bits k - 1).
    { unfold q. rewrite Z.log2_shiftr by lia. lia. }
    assert (Hq : 0 < q).
    { destruct (Z.le_gt_cases q 0) as [Hle|Hgt]; [|lia].
      rewrite (Z.log2_nonpos q Hle) in Hlq. lia. }
    assert (Hq' : Z.sgn m * q <> 0).
    { destruct (Z.sgn_spec m) as [[? Hsg]|[[? Hsg]|[? Hsg]]]; rewrite Hsg; lia. }
    assert (Hqa : Z.abs (Z.sgn m * q) = q).
    { destruct (Z.sgn_spec m) as [[? Hsg]|[[? Hsg]|[? Hsg]]]; rewrite Hsg; lia. }
    assert (Hbl : Ref.bitlen (Z.sgn m * q) = Ref.bits k).
    { unfold Ref.bitlen. apply Z.eqb_neq in Hq'. rewrite Hq', Hqa, Hlq. lia. }
    subst t. unfold Ref.trunc.
    apply Z.eqb_neq in Hq'. rewrite Hq', Hbl, Z.sub_diag. reflexivity.
Qed.

Lemma ref_laws : EngineLaws Ref.engine.
Proof.
  constructor; cbn [E_set E_zero E_set_d E_set_si E_set_ui E_add E_sub E_mul
                    E_div E_sqrt E_neg E_abs E_floor E_mul_2exp E_div_2exp
                    Ref.engine]; intros.
  - reflexivity.
  - apply ref_trunc_idem.
  - destruct d. apply ref_trunc_idem.
  - reflexivity.
  - apply ref_trunc_idem.
  - apply ref_trunc_idem.
  - unfold Ref.add. destruct (Ref.align x y) as [[a b] e]. apply ref_trunc_idem.
  - unfold Ref.sub. destruct (Ref.align x y) as [[a b] e]. apply ref_trunc_idem.
  - apply ref_trunc_idem.
  - unfold Ref.div. destruct (fst y =? 0); [reflexivity | apply ref_trunc_idem].
  - unfold Ref.sqrt. destruct (fst x <=? 0); [reflexivity | apply ref_trunc_idem].
  - apply ref_trunc_idem.
  - apply ref_trunc_idem.
  - unfold Ref.floor. destruct (snd x >=? 0); apply ref_trunc_idem.
  - apply ref_trunc_idem.
  - apply ref_trunc_idem.
Qed.

Section AtPrecision.

Context {E : Engine} {L : EngineLaws E}.

Variable k : Z.
Hypothesis Hk : valid_limbs k.

Lemma init2_k : mpf_init2 (GMPF_PREC_TO_BITS k) = Mpf k E_zero.
Proof. unfold mpf_init2. now rewrite prec_bits_prec. Qed.

Lemma largerprec_k (a b : mag) :
  largerprec (Mpf k a) (Mpf k b) = GMPF_PREC_TO_BITS k.
Proof.
  unfold largerprec, get_prec, mpf_get_prec. cbn [mp_prec].
  now destruct (GMPF_PREC_TO_BITS k >? GMPF_PREC_TO_BITS k).
Qed.

Lemma add_k (a b : mag) : (Mpf k a + Mpf k b)%mpf = Mpf k (E_add k a b).
Proof. unfold operator_add. now rewrite largerprec_k, init2_k. Qed.

Lemma sub_k (a b : mag) : (Mpf k a - Mpf k b)%mpf = Mpf k (E_sub k a b).
Proof. unfold operator_sub. now rewrite largerprec_k, init2_k. Qed.

Lemma mul_k (a b : mag) : (Mpf k a * Mpf k b)%mpf = Mpf k (E_mul k a b).
Proof. unfold operator_mul. now rewrite largerprec_k, init2_k. Qed.

Lemma div_k (a b : mag) : (Mpf k a / Mpf k b)%mpf = Mpf k (E_div k a b).
Proof. unfold operator_div. now rewrite largerprec_k, init2_k. Qed.

Lemma copy_k (a : mag) : mpf_class_copy (Mpf k a) = Mpf k (E_set k a).
Proof.
  unfold mpf_class_copy, mpf_get_prec. cbn [mp_prec]. now rewrite init2_k.
Qed.

Lemma of_mpf_t_k (a : mag) : mpf_class_of_mpf_t (Mpf k a) = Mpf k (E_set k a).
Proof.
  unfold mpf_class_of_mpf_t, mpf_get_prec. cbn [mp_prec]. now rewrite init2_k.
Qed.

Lemma copy_assign_k (a b : mag) (j : Z) :
  copy_assign (Mpf k a) (Mpf j b) = Mpf k (E_set k b).
Proof.
  unfold copy_assign, operator_assign, mpf_get_prec. cbn [negb mp_prec].
  now rewrite init2_k.
Qed.

Lemma move_assign_k (a b : mag) (j : Z) :
  move_assign (Mpf k a) (Mpf j b) = Mpf k (E_set k b).
Proof.
  unfold move_assign, operator_assign_move, mpf_get_prec. cbn [negb mp_prec].
  now rewrite init2_k.
Qed.

Lemma sqrt_k (a : mag) : sqrt (Mpf k a) = Mpf k (E_sqrt k a).
Proof. unfold sqrt. now rewrite copy_k. Qed.

Lemma abs_k (a : mag) : abs (Mpf k a) = Mpf k (E_abs k a).
Proof. unfold abs. now rewrite copy_k. Qed.

Lemma floor_k (a : mag) : floor (Mpf k a) = Mpf k (E_floor k a).
Proof. unfold floor. now rewrite copy_k. Qed.

Lemma neg_k (a : mag) : (- Mpf k a)%mpf = Mpf k (E_neg k a).
Proof. unfold operator_neg. now rewrite of_mpf_t_k. Qed.

Lemma get_prec_k (a : mag) : get_prec (Mpf k a) = GMPF_PREC_TO_BITS k.
Proof. reflexivity. Qed.

End AtPrecision.

Create Rewrite HintDb mpf.
#[export] Hint Rewrite @set_zero @set_set @set_set_d @set_set_si @set_set_ui
  @set_add @set_sub @set_mul @set_div @set_sqrt @set_neg @set_abs @set_floor
  @set_mul_2exp @set_div_2exp @set_d_zero : mpf.

(** Rewrites the operators on objects of [k] limbs ([Hk : valid_limbs
    k]) into engine operations on their magnitudes. *)
Ltac mpf_norm Hk :=
  repeat (progress (
    cbn [mp_prec mp_val];
    rewrite ?(add_k _ Hk), ?(sub_k _ Hk), ?(mul_k _ Hk), ?(div_k _ Hk),
            ?(copy_k _ Hk), ?(copy_assign_k _ Hk), ?(move_assign_k _ Hk),
            ?(sqrt_k _ Hk), ?(abs_k _ Hk), ?(neg_k _ Hk), ?(floor_k _ Hk);
    autorewrite with mpf; try assumption)).

Section ConstPiFacts.

Context {E : Engine} {L : EngineLaws E}.

Variable k : Z.
Hypothesis Hk : valid_limbs k.

Lemma const_pi_prec_body_k (eps : mag) (s : gl_state)
  (an bn tn est prev tmp : mag) :
  E_set k est = est ->
  const_pi_prec_body (Mpf k (s_two k)) (Mpf k (s_four k)) (Mpf k eps)
    (PiVars (Mpf k (gl_a s)) (Mpf k (gl_b s)) (Mpf k (gl_t s))
            (Mpf k (gl_p s)) (Mpf k an) (Mpf k bn) (Mpf k tn)
            (Mpf k est) (Mpf k prev) (Mpf k tmp))
  = let s' := gl_step k s in
    let est' := gl_estimate k s' in
    Ok (PiVars (Mpf k (gl_a s')) (Mpf k (gl_b s')) (Mpf k (gl_t s'))
               (Mpf k (gl_p s')) (Mpf k (gl_a s')) (Mpf k (gl_b s'))
               (Mpf k (gl_t s')) (Mpf k est') (Mpf k est)
               (Mpf k (E_abs k (E_sub k est' est))),
        s_close k est' est eps).
Proof.
  intros Hest. unfold const_pi_prec_body. cbn [pv_a pv_b pv_t pv_p pv_a_next
    pv_b_next pv_t_next pv_tmp_pi pv_pi_previous pv_tmp].
  cbv zeta. mpf_norm Hk. rewrite Hest. reflexivity.
Qed.

Lemma gl_estimate_fits (s : gl_state) :
  E_set k (gl_estimate k s) = gl_estimate k s.
Proof. unfold gl_estimate. apply set_div. Qed.

Lemma const_pi_prec_while_k (fuel : nat) (eps : mag) :
  forall (s : gl_state) (an bn tn est prev tmp : mag),
  E_set k est = est ->
  match gl_iterate k fuel eps s est with
  | Some m =>
      exists s',
        while_not_converged fuel
          (const_pi_prec_body (Mpf k (s_two k)) (Mpf k (s_four k)) (Mpf k eps))
          (PiVars (Mpf k (gl_a s)) (Mpf k (gl_b s)) (Mpf k (gl_t s))
                  (Mpf k (gl_p s)) (Mpf k an) (Mpf k bn) (Mpf k tn)
                  (Mpf k est) (Mpf k prev) (Mpf k tmp)) = Ok s'
        /\ pv_tmp_pi s' = Mpf k m /\ pi_vars_prec k s' /\ E_set k m = m
  | None =>
      while_not_converged fuel
        (const_pi_prec_body (Mpf k (s_two k)) (Mpf k (s_four k)) (Mpf k eps))
        (PiVars (Mpf k (gl_a s)) (Mpf k (gl_b s)) (Mpf k (gl_t s))
                (Mpf k (gl_p s)) (Mpf k an) (Mpf k bn) (Mpf k tn)
                (Mpf k est) (Mpf k prev) (Mpf k tmp)) = OutOfFuel
  end.
Proof.
  induction fuel as [|fuel IH]; intros s an bn tn est prev tmp Hest.
  - reflexivity.
  - cbn [gl_iterate while_not_converged].
    rewrite (const_pi_prec_body_k eps s an bn tn est prev tmp Hest).
    cbv zeta. cbn [bind fst snd].
    destruct (s_close k (gl_estimate k (gl_step k s)) est eps).
    + eexists. split; [reflexivity|]. cbn [pv_tmp_pi]. split; [reflexivity|].
      split; [|apply gl_estimate_fits].
      unfold pi_vars_prec. cbn. tauto.
    + apply IH. apply gl_estimate_fits.
Qed.

Lemma const_pi_prec_asserts_k (p : Z) (cp eps : mpf_class) (s : pi_vars) :
  GMPF_PREC_TO_BITS k = p -> mp_prec cp = k -> mp_prec eps = k ->
  pi_vars_prec k s ->
  const_pi_prec_asserts p cp eps s = Ok tt.
Proof.
  intros Hp Hcp Heps (H1 & H2 & H3 & H4 & H5 & H6 & H7 & H8 & H9 & H10).
  unfold const_pi_prec_asserts, get_prec, mpf_get_prec.
  rewrite Hcp, Heps, H1, H2, H3, H4, H5, H6, H7, H8, H9, H10, Hp, Z.eqb_refl.
  reflexivity.
Qed.

End ConstPiFacts.

Section ConstPiPrec.

Context {E : Engine} {L : EngineLaws E}.

(** [const_pi(p)] is the Gauss-Legendre iteration at [p] bits. *)
Lemma const_pi_prec_refines (fuel : nat) (p : Z) :
  limb_aligned p ->
  const_pi_prec fuel p
  = lift (GMPF_BITS_TO_PREC p)
         (gauss_legendre_pi (GMPF_BITS_TO_PREC p) fuel p).
Proof.
  intros Hp.
  pose proof (aligned_valid p Hp) as Hk.
  pose proof (bits_prec_bits p Hp) as Hb.
  set (k := GMPF_BITS_TO_PREC p) in *.
  unfold const_pi_prec, mpf_class_d_prec, mpf_set_d, mpf_init2, div_2exp,
    mpf_div_2exp.
  fold k. cbn [mp_prec mp_val]. cbv zeta.
  mpf_norm Hk.
  rewrite (const_pi_prec_asserts_k k p)
    by (try exact Hb; try reflexivity; repeat split; reflexivity).
  cbn [bind].
  unfold gauss_legendre_pi.
  pose proof (const_pi_prec_while_k k Hk fuel (s_pow2_neg k p) (gl_init k)
                E_zero E_zero E_zero E_zero E_zero E_zero (set_zero k)) as Hw.
  destruct (gl_iterate k fuel (s_pow2_neg k p) (gl_init k) E_zero) as [m|].
  - destruct Hw as (s' & Hrun & Htmp & Hprec & Hm).
    unfold gl_init, s_pow2_neg, s_one, s_two, s_four, s_quarter in Hrun.
    cbn [gl_a gl_b gl_t gl_p] in Hrun.
    rewrite Hrun. cbn [bind]. rewrite Htmp. mpf_norm Hk. rewrite Hm.
    rewrite (const_pi_prec_asserts_k k p)
      by (try exact Hb; try reflexivity; assumption).
    reflexivity.
  - unfold gl_init, s_pow2_neg, s_one, s_two, s_four, s_quarter in Hw.
    cbn [gl_a gl_b gl_t gl_p] in Hw.
    rewrite Hw. reflexivity.
Qed.

End ConstPiPrec.

Section ConstPiCached.

Context {E : Engine} {L : EngineLaws E}.

Variable k : Z.
Hypothesis Hk : valid_limbs k.

Lemma const_pi_body_k (eps : mag) (s : gl_state)
  (an bn tn est prev : mag) (tmp : mpf_class) :
  E_set k est = est ->
  const_pi_body (Mpf k (s_two k)) (Mpf k (s_four k)) (Mpf k eps)
    (PiVars (Mpf k (gl_a s)) (Mpf k (gl_b s)) (Mpf k (gl_t s))
            (Mpf k (gl_p s)) (Mpf k an) (Mpf k bn) (Mpf k tn)
            (Mpf k est) (Mpf k prev) tmp)
  = let s' := gl_step k s in
    let est' := gl_estimate k s' in
    Ok (PiVars (Mpf k (gl_a s')) (Mpf k (gl_b s')) (Mpf k (gl_t s'))
               (Mpf k (gl_p s')) (Mpf k (gl_a s')) (Mpf k (gl_b s'))
               (Mpf k (gl_t s')) (Mpf k est') (Mpf k est) tmp,
        s_close k est' est eps).
Proof.
  intros Hest. unfold const_pi_body. cbn [pv_a pv_b pv_t pv_p pv_a_next
    pv_b_next pv_t_next pv_tmp_pi pv_pi_previous pv_tmp].
  cbv zeta. mpf_norm Hk. rewrite Hest. reflexivity.
Qed.

Lemma const_pi_while_k (fuel : nat) (eps : mag) (tmp : mpf_class) :
  forall (s : gl_state) (an bn tn est prev : mag),
  E_set k est = est ->
  match gl_iterate k fuel eps s est with
  | Some m =>
      exists s',
        while_not_converged fuel
          (const_pi_body (Mpf k (s_two k)) (Mpf k (s_four k)) (Mpf k eps))
          (PiVars (Mpf k (gl_a s)) (Mpf k (gl_b s)) (Mpf k (gl_t s))
                  (Mpf k (gl_p s)) (Mpf k an) (Mpf k bn) (Mpf k tn)
                  (Mpf k est) (Mpf k prev) tmp) = Ok s'
        /\ pv_tmp_pi s' = Mpf k m
  | None =>
      while_not_converged fuel
        (const_pi_body (Mpf k (s_two k)) (Mpf k (s_four k)) (Mpf k eps))
        (PiVars (Mpf k (gl_a s)) (Mpf k (gl_b s)) (Mpf k (gl_t s))
                (Mpf k (gl_p s)) (Mpf k an) (Mpf k bn) (Mpf k tn)
                (Mpf k est) (Mpf k prev) tmp) = OutOfFuel
  end.
Proof.
  induction fuel as [|fuel IH]; intros s an bn tn est prev Hest.
  - reflexivity.
  - cbn [gl_iterate while_not_converged].
    rewrite (const_pi_body_k eps s an bn tn est prev tmp Hest).
    cbv zeta. cbn [bind fst snd].
    destruct (s_close k (gl_estimate k (gl_step k s)) est eps).
    + eexists. split; reflexivity.
    + apply IH. apply gl_estimate_fits.
Qed.

End ConstPiCached.

Section CacheOfPi.

Context {E : Engine} {L : EngineLaws E}.

Lemma const_pi_condition (g : globals) :
  negb (pi_calculated g)
  || (pi_calculated g
      && negb (calculated_pi_precision g =? mpf_get_default_prec g))
  = negb (pi_cache_hit g).
Proof.
  unfold pi_cache_hit.
  destruct (pi_calculated g), (calculated_pi_precision g =? mpf_get_default_prec g);
    reflexivity.
Qed.

(** A hit: the call returns a copy of the slot and writes nothing. *)
Lemma const_pi_hit (fuel : nat) (g : globals) :
  pi_cache_hit g = true ->
  const_pi fuel g = Ok (mpf_class_copy (pi_cached g), g).
Proof.
  intros Hhit. unfold const_pi. cbv zeta. rewrite const_pi_condition, Hhit.
  reflexivity.
Qed.

(** A miss: the iteration runs at the default precision, and its result
    is assigned to the slot. *)
Lemma const_pi_miss (fuel : nat) (g : globals) :
  valid_limbs (gmp_default_fp_limb_precision g) ->
  valid_limbs (mp_prec (pi_cached g)) ->
  pi_cache_hit g = false ->
  const_pi fuel g =
  match gauss_legendre_pi (gmp_default_fp_limb_precision g) fuel
                          (mpf_get_default_prec g) with
  | Some computed =>
      let slot := mpf_set (pi_cached g)
                          (Mpf (gmp_default_fp_limb_precision g) computed) in
      Ok (slot,
          Globals (gmp_default_fp_limb_precision g) (base g)
                  slot true (mpf_get_default_prec g)
                  (log2_cached g) (log2_calculated g)
                  (calculated_log2_precision g))
  | None => OutOfFuel
  end.
Proof.
  intros Hd Hs Hhit. unfold const_pi. cbv zeta.
  rewrite const_pi_condition, Hhit. cbn [negb].
  set (dl := gmp_default_fp_limb_precision g) in *.
  unfold mpf_class_d, mpf_init_set_d, mpf_set_d, mpf_class_default, mpf_init,
    div_2exp, mpf_div_2exp.
  mpf_norm Hd.
  unfold gauss_legendre_pi.
  pose proof (const_pi_while_k dl Hd fuel
                (s_pow2_neg dl (mpf_get_default_prec g)) (Mpf dl E_zero) (gl_init dl)
                E_zero E_zero E_zero E_zero E_zero (set_zero dl)) as Hw.
  destruct (gl_iterate dl fuel (s_pow2_neg dl (mpf_get_default_prec g))
                       (gl_init dl) E_zero) as [m|].
  - destruct Hw as (s' & Hrun & Htmp).
    unfold gl_init, s_pow2_neg, s_one, s_two, s_four, s_quarter in Hrun.
    cbn [gl_a gl_b gl_t gl_p] in Hrun.
    unfold set_calculated_pi_precision, set_pi_cached, mpf_get_default_prec.
    cbn [gmp_default_fp_limb_precision].
    unfold mpf_get_default_prec in Hrun. fold dl in Hrun |- *.
    rewrite Hrun. cbn [bind]. rewrite Htmp.
    unfold set_pi_calculated, set_pi_cached.
    cbn [gmp_default_fp_limb_precision base pi_cached pi_calculated
         calculated_pi_precision log2_cached log2_calculated
         calculated_log2_precision].
    destruct (pi_cached g) as [ks vs]. cbn [mp_prec] in Hs.
    unfold mpf_set. cbn [mp_prec mp_val].
    rewrite (move_assign_k ks Hs), (copy_assign_k ks Hs), (copy_k ks Hs).
    rewrite set_set. reflexivity.
  - unfold gl_init, s_pow2_neg, s_one, s_two, s_four, s_quarter in Hw.
    cbn [gl_a gl_b gl_t gl_p] in Hw.
    unfold set_calculated_pi_precision, set_pi_cached, mpf_get_default_prec.
    cbn [gmp_default_fp_limb_precision].
    unfold mpf_get_default_prec in Hw. fold dl in Hw |- *.
    rewrite Hw. reflexivity.
Qed.

(** C3.  [const_pi()] keeps one value, tagged with the default
    precision it was computed under.  When a value has been computed
    and the tag equals the current default precision, the call returns
    (a copy of) the cached value and changes nothing.  Otherwise it
    runs the Gauss-Legendre iteration at the current default
    precision, overwrites the one slot with the result (assigned to
    the slot as every assignment is, at the slot's precision) and the
    tag with the current default precision, and returns the slot: the
    value computed before is gone. *)
Theorem C3_const_pi_cache (fuel : nat) (g : globals) :
  valid_limbs (gmp_default_fp_limb_precision g) ->
  valid_limbs (mp_prec (pi_cached g)) ->
  (pi_cache_hit g = true ->
   const_pi fuel g = Ok (mpf_class_copy (pi_cached g), g)) /\
  (pi_cache_hit g = false ->
   const_pi fuel g =
   match gauss_legendre_pi (gmp_default_fp_limb_precision g) fuel
                           (mpf_get_default_prec g) with
   | Some computed =>
       let slot := mpf_set (pi_cached g)
                           (Mpf (gmp_default_fp_limb_precision g) computed) in
       Ok (slot,
           Globals (gmp_default_fp_limb_precision g) (base g)
                   slot true (mpf_get_default_prec g)
                   (log2_cached g) (log2_calculated g)
                   (calculated_log2_precision g))
   | None => OutOfFuel
   end).
Proof.
  intros Hd Hs. split.
  - apply const_pi_hit.
  - apply const_pi_miss; assumption.
Qed.

End CacheOfPi.

Section AgmFacts.

Context {E : Engine} {L : EngineLaws E}.

Variable k : Z.
Hypothesis Hk : valid_limbs k.

Lemma agm_body_k (eps a b an bn : mag) :
  agm_body (Mpf k (s_two k)) (Mpf k eps)
    (AgmVars (Mpf k a) (Mpf k b) (Mpf k an) (Mpf k bn))
  = let a' := E_div k (E_add k a b) (s_two k) in
    let b' := E_sqrt k (E_mul k a b) in
    Ok (AgmVars (Mpf k a') (Mpf k b') (Mpf k a') (Mpf k b'),
        s_close k a b eps).
Proof.
  unfold agm_body. cbn [av_a av_b av_a_next av_b_next]. cbv zeta.
  mpf_norm Hk. reflexivity.
Qed.

Lemma const_log2_prec_body_k (p : Z) (eps a b an bn : mag) :
  GMPF_PREC_TO_BITS k = p ->
  const_log2_prec_body p (Mpf k (s_two k)) (Mpf k eps)
    (AgmVars (Mpf k a) (Mpf k b) (Mpf k an) (Mpf k bn))
  = let a' := E_div k (E_add k a b) (s_two k) in
    let b' := E_sqrt k (E_mul k a b) in
    Ok (AgmVars (Mpf k a') (Mpf k b') (Mpf k a') (Mpf k b'),
        s_close k a b eps).
Proof.
  intros Hp.
  unfold const_log2_prec_body. cbn [av_a av_b av_a_next av_b_next]. cbv zeta.
  mpf_norm Hk. unfold get_prec, mpf_get_prec. cbn [mp_prec].
  rewrite Hp, Z.eqb_refl. reflexivity.
Qed.

Lemma agm_while_k (fuel : nat) (eps : mag) :
  forall (a b an bn : mag),
  while_not_converged fuel (agm_body (Mpf k (s_two k)) (Mpf k eps))
    (AgmVars (Mpf k a) (Mpf k b) (Mpf k an) (Mpf k bn))
  = agm_result k (agm_iterate k fuel eps a b).
Proof.
  induction fuel as [|fuel IH]; intros a b an bn.
  - reflexivity.
  - cbn [agm_iterate while_not_converged]. rewrite agm_body_k.
    cbv zeta. cbn [bind fst snd].
    destruct (s_close k a b eps); [reflexivity | apply IH].
Qed.

Lemma const_log2_prec_while_k (fuel : nat) (p : Z) (eps : mag) :
  GMPF_PREC_TO_BITS k = p ->
  forall (a b an bn : mag),
  while_not_converged fuel
    (const_log2_prec_body p (Mpf k (s_two k)) (Mpf k eps))
    (AgmVars (Mpf k a) (Mpf k b) (Mpf k an) (Mpf k bn))
  = agm_result k (agm_iterate k fuel eps a b).
Proof.
  intros Hp.
  induction fuel as [|fuel IH]; intros a b an bn.
  - reflexivity.
  - cbn [agm_iterate while_not_converged].
    rewrite (const_log2_prec_body_k p eps a b an bn Hp).
    cbv zeta. cbn [bind fst snd].
    destruct (s_close k a b eps); [reflexivity | apply IH].
Qed.

Lemma const_log2_prec_asserts_k (p : Z)
  (log2 epsilon tmp sum one two : mpf_class) (s : agm_vars) :
  GMPF_PREC_TO_BITS k = p ->
  mp_prec log2 = k -> mp_prec epsilon = k -> mp_prec tmp = k ->
  mp_prec sum = k -> mp_prec one = k -> mp_prec two = k ->
  mp_prec (av_a s) = k -> mp_prec (av_b s) = k ->
  mp_prec (av_a_next s) = k -> mp_prec (av_b_next s) = k ->
  const_log2_prec_asserts p log2 epsilon tmp sum one two s = Ok tt.
Proof.
  intros Hp H1 H2 H3 H4 H5 H6 H7 H8 H9 H10.
  unfold const_log2_prec_asserts, get_prec, mpf_get_prec.
  rewrite H1, H2, H3, H4, H5, H6, H7, H8, H9, H10, Hp, Z.eqb_refl.
  reflexivity.
Qed.

End AgmFacts.

Section ConstLog2Prec.

Context {E : Engine} {L : EngineLaws E}.

(** [const_log2(p)] is the AGM computation of log 2 at [p] bits, with
    [eps = 2^(-p)] and pi from [const_pi(p)]. *)
Lemma const_log2_prec_refines (fuel : nat) (p : Z) :
  limb_aligned p ->
  const_log2_prec fuel p
  = lift (GMPF_BITS_TO_PREC p) (spec_log2 (GMPF_BITS_TO_PREC p) fuel p).
Proof.
  intros Hp.
  pose proof (aligned_valid p Hp) as Hk.
  pose proof (bits_prec_bits p Hp) as Hb.
  unfold const_log2_prec. rewrite (const_pi_prec_refines fuel p Hp).
  set (k := GMPF_BITS_TO_PREC p) in *.
  unfold mpf_class_d_prec, mpf_class_ui_prec, mpf_set_d, mpf_set_ui, mpf_init2,
    div_2exp, mpf_div_2exp.
  fold k. cbn [mp_prec mp_val]. cbv zeta.
  mpf_norm Hk.
  rewrite (const_log2_prec_asserts_k k p) by (try exact Hb; reflexivity).
  cbn [bind].
  fold (s_one k) (s_two k).
  rewrite (const_log2_prec_while_k k Hk fuel p _ Hb).
  unfold spec_log2, agm_log2, s_pow2_neg.
  destruct (agm_iterate k fuel (E_div_2exp k (s_one k) p) (s_one k)
              (E_div_2exp k (s_one k) (to_ulong (p / 2 - 2)))) as [[a b]|];
    cbn [agm_result bind];
    destruct (gauss_legendre_pi k fuel p) as [pi|]; cbn [lift bind];
    try reflexivity.
  cbn [av_a]. mpf_norm Hk. unfold get_prec, mpf_get_prec. cbn [mp_prec].
  rewrite Hb, Z.eqb_refl. cbn [assert bind].
  rewrite (const_log2_prec_asserts_k k p) by (try exact Hb; reflexivity).
  reflexivity.
Qed.

End ConstLog2Prec.

Section Assignments.

Context {E : Engine}.

Lemma copy_assign_prec (x y : mpf_class) :
  valid_limbs (mp_prec x) -> mp_prec (copy_assign x y) = mp_prec x.
Proof.
  intros H. unfold copy_assign, operator_assign. cbn [negb]. cbv zeta.
  now rewrite init2_get_prec.
Qed.

Lemma move_assign_prec (x y : mpf_class) :
  valid_limbs (mp_prec x) -> mp_prec (move_assign x y) = mp_prec x.
Proof.
  intros H. unfold move_assign, operator_assign_move. cbn [negb]. cbv zeta.
  now rewrite init2_get_prec.
Qed.

Lemma exp_series_prec (n : nat) (p : Z) (one r : mpf_class) :
  forall e : mpf_class,
  valid_limbs (mp_prec e) -> mp_prec (exp_series n p one r e) = mp_prec e.
Proof.
  induction n as [|n IH]; intros e He.
  - reflexivity.
  - cbn [exp_series]. cbv zeta. rewrite IH.
    + now apply move_assign_prec.
    + now rewrite move_assign_prec.
Qed.

Lemma exp_squarings_prec (kk : Z) (e : mpf_class) :
  valid_limbs (mp_prec e) -> mp_prec (exp_squarings kk e) = mp_prec e.
Proof.
  intros He. unfold exp_squarings.
  induction (Z.to_nat kk) as [|n IH]; [reflexivity|].
  rewrite Nat.iter_succ. rewrite move_assign_prec; rewrite IH; auto.
Qed.

End Assignments.

Section PrecisionAssertions.

Context {E : Engine}.

(** C10.  At the requested precision 100 the first precision assertion
    of [const_pi(p)] and of [const_log2(p)] fails: GMP materialises
    the values at 128 bits (two limbs and a guard limb), so
    [get_prec()] is 128 and not 100.  No value is returned. *)
Theorem C10_precision_assertions_fail_at_100 (fuel : nat) :
  const_pi_prec fuel 100 = AssertionFailed /\
  const_log2_prec fuel 100 = AssertionFailed /\
  get_prec (mpf_class_copy (mpf_class_d_prec d_0_0 100)) = 128.
Proof. repeat split; reflexivity. Qed.

End PrecisionAssertions.

Section AlignedPrecisions.

Context {E : Engine} {L : EngineLaws E}.

(** For the precisions [get_prec] reports, no assertion of
    [const_pi(p)] and [const_log2(p)] fails and the value returned,
    when the loops converge, has precision [p]. *)
Lemma const_pi_prec_aligned (fuel : nat) (p : Z) :
  limb_aligned p ->
  const_pi_prec fuel p = OutOfFuel \/
  exists v, const_pi_prec fuel p = Ok v /\ get_prec v = p.
Proof.
  intros Hp. rewrite (const_pi_prec_refines fuel p Hp).
  destruct (gauss_legendre_pi _ fuel p) as [m|]; [right | now left].
  eexists. split; [reflexivity|]. apply (bits_prec_bits p Hp).
Qed.

Lemma const_log2_prec_aligned (fuel : nat) (p : Z) :
  limb_aligned p ->
  const_log2_prec fuel p = OutOfFuel \/
  exists v, const_log2_prec fuel p = Ok v /\ get_prec v = p.
Proof.
  intros Hp. rewrite (const_log2_prec_refines fuel p Hp).
  destruct (spec_log2 _ fuel p) as [m|]; [right | now left].
  eexists. split; [reflexivity|]. apply (bits_prec_bits p Hp).
Qed.

End AlignedPrecisions.

Section LogFacts.

Context {E : Engine} {L : EngineLaws E}.

Lemma move_assign_to_k (k : Z) (a : mag) (y : mpf_class) :
  valid_limbs k -> move_assign (Mpf k a) y = Mpf k (E_set k (mp_val y)).
Proof. intros Hk. destruct y as [j b]. now apply move_assign_k. Qed.

Lemma log_asserts_k (k p : Z)
  (_log epsilon tmp s _pi _log2 : mpf_class) (v : agm_vars) :
  GMPF_PREC_TO_BITS k = p ->
  mp_prec _log = k -> mp_prec epsilon = k -> mp_prec tmp = k ->
  mp_prec s = k -> mp_prec _pi = k -> mp_prec _log2 = k ->
  mp_prec (av_a v) = k -> mp_prec (av_b v) = k ->
  mp_prec (av_a_next v) = k -> mp_prec (av_b_next v) = k ->
  log_asserts p _log epsilon tmp s _pi _log2 v = Ok tt.
Proof.
  intros Hp H1 H2 H3 H4 H5 H6 H7 H8 H9 H10.
  unfold log_asserts, get_prec, mpf_get_prec.
  rewrite H1, H2, H3, H4, H5, H6, H7, H8, H9, H10, Hp, Z.eqb_refl.
  reflexivity.
Qed.

(** [log] of the complete header: pi and log 2 come from
    [const_pi(p)] and [const_log2(p)] at the precision [p] of the
    argument, no assertion fails, and the result has precision [p]. *)
Lemma log_result_precision (fuel : nat) (default_limbs : Z) (x : mpf_class) :
  valid_limbs (mp_prec x) ->
  log fuel default_limbs x = OutOfFuel \/
  exists v, log fuel default_limbs x = Ok v /\ get_prec v = get_prec x.
Proof.
  intros Hk. destruct x as [k vx]. cbn [mp_prec] in Hk.
  pose proof (valid_aligned k Hk) as Hp.
  pose proof (prec_bits_prec k Hk) as Hb.
  unfold log. cbv zeta.
  change (get_prec {| mp_prec := k; mp_val := vx |})
    with (GMPF_PREC_TO_BITS k).
  rewrite (const_pi_prec_refines fuel _ Hp), (const_log2_prec_refines fuel _ Hp).
  rewrite Hb.
  destruct (gauss_legendre_pi k fuel (GMPF_PREC_TO_BITS k)) as [pi|];
    [|now left].
  destruct (spec_log2 k fuel (GMPF_PREC_TO_BITS k)) as [l2|]; [|now left].
  cbn [lift bind].
  unfold mpf_class_d_prec, mpf_set_d, mpf_init2, div_2exp, mul_2exp,
    mpf_div_2exp, mpf_mul_2exp, mpf_get_d_2exp.
  rewrite Hb. mpf_norm Hk.
  rewrite (log_asserts_k k) by reflexivity. cbn [bind].
  fold (s_one k) (s_two k) (s_four k).
  rewrite (agm_while_k k Hk).
  match goal with
  | |- context [agm_iterate k fuel ?e ?a ?b] =>
      destruct (agm_iterate k fuel e a b) as [[a' b']|]
  end; cbn [agm_result bind]; [|now left].
  right. cbn [av_b]. rewrite (move_assign_to_k k _ _ Hk).
  rewrite (log_asserts_k k) by reflexivity. cbn [bind].
  eexists. split; reflexivity.
Qed.

End LogFacts.

Section ExpFacts.

Context {E : Engine} {L : EngineLaws E}.

Variable k : Z.
Hypothesis Hk : valid_limbs k.

Lemma exp_series_k (n : nat) (p : Z) (r : mag) :
  GMPF_BITS_TO_PREC p = k ->
  forall e : mag,
  exp_series n p (Mpf k (s_one k)) (Mpf k r) (Mpf k e)
  = Mpf k (s_series k (fun i => i) n r e).
Proof.
  intros Hp. induction n as [|n IH]; intros e.
  - reflexivity.
  - cbn [exp_series s_series]. cbv zeta.
    unfold mpf_class_si_prec, mpf_set_si, mpf_init2. rewrite Hp.
    mpf_norm Hk. apply IH.
Qed.

Lemma exp_squarings_k (kk : Z) (e : mag) :
  exp_squarings kk (Mpf k e) = Mpf k (s_squarings k kk e).
Proof.
  unfold exp_squarings, s_squarings.
  induction (Z.to_nat kk) as [|n IH]; [reflexivity|].
  rewrite !Nat.iter_succ, IH. mpf_norm Hk. reflexivity.
Qed.

Lemma operator_si_mul_k (n : Z) (l2 : mag) :
  operator_si_mul k n (Mpf k l2) = Mpf k (E_mul k l2 (E_set_si k n)).
Proof. reflexivity. Qed.

Lemma operator_si_mul_at (d j n : Z) (l2 : mag) :
  operator_si_mul d n (Mpf j l2) = Mpf d (E_mul d l2 (E_set_si d n)).
Proof. reflexivity. Qed.

Lemma sub_mixed (j : Z) (a b : mag) :
  valid_limbs j ->
  (Mpf k a - Mpf j b)%mpf = Mpf (Z.max k j) (E_sub (Z.max k j) a b).
Proof.
  intros Hj. unfold operator_sub. cbv zeta.
  rewrite (init2_largerprec (Mpf k a) (Mpf j b) Hk Hj). reflexivity.
Qed.

End ExpFacts.

Section ExpTheorem.

Context {E : Engine} {L : EngineLaws E}.

Lemma if_mpf (c : bool) (k : Z) (a b : mag) :
  (if c return mpf_class then Mpf k a else Mpf k b)
  = Mpf k (if c then a else b).
Proof. now destruct c. Qed.


End ExpTheorem.

Section Strings.

Context {E : Engine}.


End Strings.

Section CacheStays.

Context {E : Engine} {L : EngineLaws E}.

(** C9.  The headers declare [reset_pi_cache] and [reset_log2_cache]
    and define neither; the flags [const_pi()] and [const_log2()]
    test are local to these two functions.  So once both constants
    have been computed under the current default precision, the
    operations that exist serve the stored values ([slot], [l2]) and
    write nothing: no call recomputes a constant while the default
    precision stays what it is. *)
Theorem C9_no_operation_drops_the_caches
  (fuel : nat) (default_limbs base : Z) (slot l2 : mpf_class) :
  let g := pi_cached_state default_limbs base slot (Some l2) true
             (GMPF_PREC_TO_BITS default_limbs) in
  const_pi fuel g = Ok (mpf_class_copy slot, g) /\
  const_log2 fuel g = Ok (mpf_class_copy l2, g) /\
  (forall v g', const_log2 fuel g = Ok (v, g') ->
     const_pi fuel g' = Ok (mpf_class_copy slot, g')).
Proof.
  intros g.
  assert (Hpi : const_pi fuel g = Ok (mpf_class_copy slot, g)).
  { apply (const_pi_hit fuel g). unfold pi_cache_hit, g, pi_cached_state.
    cbn [pi_calculated calculated_pi_precision]. unfold mpf_get_default_prec.
    cbn [gmp_default_fp_limb_precision]. now rewrite Z.eqb_refl. }
  assert (Hlog : const_log2 fuel g = Ok (mpf_class_copy l2, g)).
  { unfold const_log2, g, pi_cached_state. cbv zeta.
    cbn [log2_cached log2_calculated calculated_log2_precision].
    unfold mpf_get_default_prec. cbn [gmp_default_fp_limb_precision].
    rewrite Z.eqb_refl. reflexivity. }
  repeat split; [exact Hpi | exact Hlog |].
  intros v g' Hrun. rewrite Hlog in Hrun. injection Hrun as _ <-. exact Hpi.
Qed.

End CacheStays.

Section PrecisionOnly.

Context {E : Engine}.

Lemma valid_max (a b : Z) :
  valid_limbs a -> valid_limbs b -> valid_limbs (Z.max a b).
Proof. unfold valid_limbs. lia. Qed.

Lemma prec_add (a b : mpf_class) (ka kb : Z) :
  mp_prec a = ka -> mp_prec b = kb -> valid_limbs ka -> valid_limbs kb ->
  mp_prec (a + b)%mpf = Z.max ka kb.
Proof.
  intros <- <- Ha Hb. unfold operator_add. cbv zeta.
  now rewrite init2_largerprec.
Qed.

Lemma prec_sub (a b : mpf_class) (ka kb : Z) :
  mp_prec a = ka -> mp_prec b = kb -> valid_limbs ka -> valid_limbs kb ->
  mp_prec (a - b)%mpf = Z.max ka kb.
Proof.
  intros <- <- Ha Hb. unfold operator_sub. cbv zeta.
  now rewrite init2_largerprec.
Qed.

Lemma prec_mul (a b : mpf_class) (ka kb : Z) :
  mp_prec a = ka -> mp_prec b = kb -> valid_limbs ka -> valid_limbs kb ->
  mp_prec (a * b)%mpf = Z.max ka kb.
Proof.
  intros <- <- Ha Hb. unfold operator_mul. cbv zeta.
  now rewrite init2_largerprec.
Qed.

Lemma prec_div (a b : mpf_class) (ka kb : Z) :
  mp_prec a = ka -> mp_prec b = kb -> valid_limbs ka -> valid_limbs kb ->
  mp_prec (a / b)%mpf = Z.max ka kb.
Proof.
  intros <- <- Ha Hb. unfold operator_div. cbv zeta.
  now rewrite init2_largerprec.
Qed.

Lemma prec_copy (a : mpf_class) (ka : Z) :
  mp_prec a = ka -> valid_limbs ka -> mp_prec (mpf_class_copy a) = ka.
Proof.
  intros <- Ha. unfold mpf_class_copy. cbv zeta. now rewrite init2_get_prec.
Qed.

Lemma prec_sqrt (a : mpf_class) (ka : Z) :
  mp_prec a = ka -> valid_limbs ka -> mp_prec (sqrt a) = ka.
Proof. intros Ha Hv. unfold sqrt. cbv zeta. cbn [mpf_sqrt mp_prec]. now apply prec_copy. Qed.

Lemma prec_abs (a : mpf_class) (ka : Z) :
  mp_prec a = ka -> valid_limbs ka -> mp_prec (abs a) = ka.
Proof. intros Ha Hv. unfold abs. cbv zeta. cbn [mpf_abs mp_prec]. now apply prec_copy. Qed.

Lemma prec_copy_assign (a b : mpf_class) (ka : Z) :
  mp_prec a = ka -> valid_limbs ka -> mp_prec (copy_assign a b) = ka.
Proof. intros <- Ha. now apply copy_assign_prec. Qed.

(** A loop whose body returns and keeps an invariant either is still
    running when the budget is used up or ends in a state satisfying
    the invariant. *)
Lemma while_invariant {St : Type} (I : St -> Prop)
  (body : St -> result (St * bool)) :
  (forall s, I s -> exists s' c, body s = Ok (s', c) /\ I s') ->
  forall (fuel : nat) (s : St), I s ->
  while_not_converged fuel body s = OutOfFuel \/
  exists s', while_not_converged fuel body s = Ok s' /\ I s'.
Proof.
  intros Hbody. induction fuel as [|fuel IH]; intros s Hs.
  - now left.
  - cbn [while_not_converged].
    destruct (Hbody s Hs) as (s' & c & Hb & Hs'). rewrite Hb.
    cbn [bind fst snd]. destruct c.
    + right. now exists s'.
    + now apply IH.
Qed.

End PrecisionOnly.

Section LegacyPrecision.

Context {E : Engine}.

Variable K : Z.
Hypothesis HK : valid_limbs K.

Lemma prec_add_same (a b : mpf_class) :
  mp_prec a = K -> mp_prec b = K -> mp_prec (a + b)%mpf = K.
Proof. intros Ha Hb. rewrite (prec_add a b K K); auto. apply Z.max_id. Qed.

Lemma prec_sub_same (a b : mpf_class) :
  mp_prec a = K -> mp_prec b = K -> mp_prec (a - b)%mpf = K.
Proof. intros Ha Hb. rewrite (prec_sub a b K K); auto. apply Z.max_id. Qed.

Lemma prec_mul_same (a b : mpf_class) :
  mp_prec a = K -> mp_prec b = K -> mp_prec (a * b)%mpf = K.
Proof. intros Ha Hb. rewrite (prec_mul a b K K); auto. apply Z.max_id. Qed.

Lemma prec_div_same (a b : mpf_class) :
  mp_prec a = K -> mp_prec b = K -> mp_prec (a / b)%mpf = K.
Proof. intros Ha Hb. rewrite (prec_div a b K K); auto. apply Z.max_id. Qed.

Lemma prec_sqrt_same (a : mpf_class) : mp_prec a = K -> mp_prec (sqrt a) = K.
Proof. intros Ha. now apply prec_sqrt. Qed.

Lemma prec_copy_same (a : mpf_class) :
  mp_prec a = K -> mp_prec (mpf_class_copy a) = K.
Proof. intros Ha. now apply prec_copy. Qed.

Lemma prec_copy_assign_same (a b : mpf_class) :
  mp_prec a = K -> mp_prec (copy_assign a b) = K.
Proof. intros Ha. now apply prec_copy_assign. Qed.

(** Solves [mp_prec e = K] for an expression over objects of [K]
    limbs. *)
Ltac prec_same :=
  repeat match goal with
    | |- mp_prec (operator_add _ _) = _ => apply prec_add_same
    | |- mp_prec (operator_sub _ _) = _ => apply prec_sub_same
    | |- mp_prec (operator_mul _ _) = _ => apply prec_mul_same
    | |- mp_prec (operator_div _ _) = _ => apply prec_div_same
    | |- mp_prec (sqrt _) = _ => apply prec_sqrt_same
    | |- mp_prec (mpf_class_copy _) = _ => apply prec_copy_same
    | |- mp_prec (copy_assign _ _) = _ => apply prec_copy_assign_same
    | |- mp_prec _ = _ => assumption
    | |- mp_prec (Mpf _ _) = _ => reflexivity
    end.

Lemma legacy_const_pi_body_inv (two four epsilon : mpf_class) :
  mp_prec two = K -> mp_prec four = K ->
  forall s, legacy_pi_inv K s ->
  exists s' c,
    Legacy.const_pi_body two four epsilon s = Ok (s', c) /\ legacy_pi_inv K s'.
Proof.
  intros H2 H4 s (Ha & Hb & Ht & Hp & Htmp & Hprev).
  unfold Legacy.const_pi_body, Legacy.move_assign. cbv zeta.
  do 2 eexists. split; [reflexivity|].
  unfold legacy_pi_inv.
  cbn [pv_a pv_b pv_t pv_p pv_tmp_pi pv_pi_previous].
  repeat split; prec_same.
Qed.

Lemma d_prec_K (d : double) :
  mp_prec (mpf_class_d_prec d (GMPF_PREC_TO_BITS K)) = K.
Proof.
  unfold mpf_class_d_prec, mpf_set_d, mpf_init2. cbn [mp_prec].
  now apply prec_bits_prec.
Qed.

Lemma ui_prec_K (z : Z) :
  mp_prec (mpf_class_ui_prec z (GMPF_PREC_TO_BITS K)) = K.
Proof.
  unfold mpf_class_ui_prec, mpf_set_ui, mpf_init2. cbn [mp_prec].
  now apply prec_bits_prec.
Qed.

(** [const_pi()] of the older header, when the cache cannot serve the
    call: the value returned is an object of the default precision and
    the cache is valid afterwards. *)
Lemma legacy_const_pi_miss (fuel : nat) (g : globals) :
  gmp_default_fp_limb_precision g = K ->
  pi_cache_hit g = false ->
  Legacy.const_pi fuel g = OutOfFuel \/
  exists v g',
    Legacy.const_pi fuel g = Ok (v, g') /\ mp_prec v = K /\
    gmp_default_fp_limb_precision g' = K /\
    pi_cache_hit g' = true /\ mp_prec (pi_cached g') = K /\
    log2_cached g' = log2_cached g /\
    log2_calculated g' = log2_calculated g /\
    calculated_log2_precision g' = calculated_log2_precision g.
Proof.
  intros Hd Hmiss. unfold Legacy.const_pi. cbv zeta.
  rewrite const_pi_condition, Hmiss. cbn [negb].
  unfold Legacy.mpf_class_d, mpf_get_default_prec, set_calculated_pi_precision,
    set_pi_cached, Legacy.move_assign.
  cbn [gmp_default_fp_limb_precision]. rewrite Hd.
  match goal with
  | |- context [while_not_converged fuel ?body ?s0] =>
      destruct (while_invariant (legacy_pi_inv K) body
                  (legacy_const_pi_body_inv _ _ _ (d_prec_K _) (d_prec_K _))
                  fuel s0) as [Hw | (s' & Hw & Hinv)]
  end.
  - unfold legacy_pi_inv, mpf_class_default, mpf_init.
    cbn [pv_a pv_b pv_t pv_p pv_tmp_pi pv_pi_previous mp_prec].
    pose proof (d_prec_K d_1_0). pose proof (d_prec_K d_2_0).
    pose proof (d_prec_K d_0_25).
    repeat split; prec_same.
  - left. rewrite Hw. reflexivity.
  - right. rewrite Hw. cbn [bind]. do 2 eexists. split; [reflexivity|].
    unfold set_pi_cached, set_pi_calculated, pi_cache_hit, mpf_get_default_prec,
      mpf_class_default, mpf_init.
    cbn [gmp_default_fp_limb_precision pi_cached pi_calculated
         calculated_pi_precision log2_cached log2_calculated
         calculated_log2_precision mp_prec].
    rewrite Z.eqb_refl.
    repeat split; prec_same.
Qed.

Lemma legacy_const_pi_hit (fuel : nat) (g : globals) :
  pi_cache_hit g = true ->
  Legacy.const_pi fuel g = Ok (mpf_class_copy (pi_cached g), g).
Proof.
  intros Hhit. unfold Legacy.const_pi. cbv zeta.
  rewrite const_pi_condition, Hhit. reflexivity.
Qed.

Lemma legacy_agm_body_inv (two epsilon : mpf_class) :
  mp_prec two = K ->
  forall s, legacy_agm_inv K s ->
  exists s' c, Legacy.agm_body two epsilon s = Ok (s', c) /\ legacy_agm_inv K s'.
Proof.
  intros H2 s (Ha & Hb).
  unfold Legacy.agm_body, Legacy.move_assign. cbv zeta.
  do 2 eexists. split; [reflexivity|].
  unfold legacy_agm_inv. cbn [av_a av_b]. split; prec_same.
Qed.

(** [const_log2()] of the older header, first call. *)
Lemma legacy_const_log2_miss (fuel : nat) (g : globals) :
  gmp_default_fp_limb_precision g = K ->
  log2_calculated g = false ->
  pi_cache_hit g = true -> mp_prec (pi_cached g) = K ->
  Legacy.const_log2 fuel g = OutOfFuel \/
  exists v g',
    Legacy.const_log2 fuel g = Ok (v, g') /\ mp_prec v = K /\
    gmp_default_fp_limb_precision g' = K.
Proof.
  intros Hd Hcalc Hhit Hslot. unfold Legacy.const_log2. cbv zeta.
  set (g0 := match log2_cached g with
             | Some _ => g
             | None => set_log2_cached _ g
             end).
  assert (H0 : gmp_default_fp_limb_precision g0 = K /\
               log2_calculated g0 = false /\
               pi_cache_hit g0 = true /\ pi_cached g0 = pi_cached g).
  { unfold g0. destruct (log2_cached g); auto. }
  destruct H0 as (H0d & H0c & H0h & H0s).
  rewrite H0c. cbn [negb orb].
  unfold Legacy.mpf_class_d, Legacy.mpf_class_ui, Legacy.move_assign.
  unfold mpf_get_default_prec, set_calculated_log2_precision, set_log2_cached.
  cbn [gmp_default_fp_limb_precision]. rewrite H0d.
  match goal with
  | |- context [while_not_converged fuel ?body ?s0] =>
      destruct (while_invariant (legacy_agm_inv K) body
                  (legacy_agm_body_inv _ _ (d_prec_K _))
                  fuel s0) as [Hw | (s' & Hw & Ha & Hb)]
  end.
  - unfold legacy_agm_inv. cbn [av_a av_b].
    pose proof (d_prec_K d_1_0).
    split; [prec_same|]. apply prec_copy_same.
    unfold div_2exp, mpf_div_2exp. cbn [mp_prec]. prec_same.
  - left. rewrite Hw. reflexivity.
  - right. rewrite Hw. cbn [bind].
    rewrite legacy_const_pi_hit
      by (unfold pi_cache_hit, mpf_get_default_prec in *;
          cbn [gmp_default_fp_limb_precision pi_calculated
               calculated_pi_precision];
          rewrite H0d in H0h; exact H0h).
    cbn [bind fst snd].
    do 2 eexists. split; [reflexivity|].
    unfold set_log2_calculated, set_log2_cached.
    cbn [gmp_default_fp_limb_precision pi_cached].
    split; [|reflexivity].
    apply prec_copy_same. apply prec_div_same.
    + apply prec_copy_same. now rewrite H0s.
    + apply prec_mul_same; [apply ui_prec_K | exact Ha].
Qed.

End LegacyPrecision.

Section LegacyLog.

Context {E : Engine}.

Lemma valid_17 : valid_limbs 17.
Proof. unfold valid_limbs. lia. Qed.

(** [log] of the older header computes at max (1024 bits, precision of
    [x]) and leaves the default precision at 1024 bits. *)
Lemma legacy_log_precision (fuel : nat) (g : globals) (x : mpf_class) :
  valid_limbs (mp_prec x) ->
  pi_calculated g = false -> log2_calculated g = false ->
  Legacy.log fuel g x = OutOfFuel \/
  exists v g',
    Legacy.log fuel g x = Ok (v, g') /\
    mp_prec v = Z.max 17 (mp_prec x) /\
    gmp_default_fp_limb_precision g' = 17.
Proof.
  intros Hx Hpi Hl2.
  pose proof valid_17 as HK.
  pose proof (valid_max 17 (mp_prec x) HK Hx) as HM.
  unfold Legacy.log. cbv zeta.
  set (g1 := mpf_set_default_prec 1000 g).
  assert (Hg1 : gmp_default_fp_limb_precision g1 = 17) by reflexivity.
  assert (Hg1pi : pi_cache_hit g1 = false).
  { unfold pi_cache_hit, g1, mpf_set_default_prec. cbn [pi_calculated].
    now rewrite Hpi. }
  assert (Hg1l2 : log2_calculated g1 = false) by exact Hl2.
  unfold Legacy.mpf_class_d, Legacy.move_assign, Legacy.assign_d.
  assert (Hbits : mpf_get_default_prec g1 = GMPF_PREC_TO_BITS 17) by reflexivity.
  rewrite Hbits.
  pose proof (d_prec_K 17 HK) as Hd.
  set (inv := fun s : agm_vars =>
                mp_prec (av_a s) = 17 /\ mp_prec (av_b s) = Z.max 17 (mp_prec x)).
  match goal with
  | |- context [while_not_converged fuel ?body ?s0] =>
      assert (Hloop :
        while_not_converged fuel body s0 = OutOfFuel \/
        exists s', while_not_converged fuel body s0 = Ok s' /\ inv s')
  end.
  { apply (while_invariant inv).
    - intros s (Ha & Hb). unfold Legacy.agm_body, Legacy.move_assign. cbv zeta.
      do 2 eexists. split; [reflexivity|]. unfold inv. cbn [av_a av_b].
      split; apply prec_copy_assign; auto.
    - unfold inv. cbn [av_a av_b]. split.
      + apply (prec_copy _ 17); auto.
      + rewrite (prec_div _ _ 17 (Z.max 17 (mp_prec x)));
          [lia | apply Hd | | exact HK | exact HM].
        rewrite (prec_mul _ _ (mp_prec x) 17);
          [lia | reflexivity | | exact Hx | exact HK].
        unfold mul_2exp, mpf_mul_2exp, mpf_set_d. cbn [mp_prec].
        apply (prec_copy _ 17); auto. }
  destruct Hloop as [Hw | (s' & Hw & Ha & Hb)]; rewrite Hw; cbn [bind];
    [now left|].
  destruct (legacy_const_pi_miss 17 HK fuel g1 Hg1 Hg1pi)
    as [Hp | (v1 & g2 & Hp & Hv1 & Hd2 & Hhit2 & Hslot2 & _ & Hc2 & _)];
    rewrite Hp; cbn [bind fst snd]; [now left|].
  rewrite Hg1l2 in Hc2.
  destruct (legacy_const_log2_miss 17 HK fuel g2 Hd2 Hc2 Hhit2 Hslot2)
    as [Hq | (v2 & g3 & Hq & Hv2 & Hd3)];
    rewrite Hq; cbn [bind fst snd]; [now left|].
  right. do 2 eexists. split; [reflexivity|]. split; [|exact Hd3].
  rewrite (prec_sub _ _ (Z.max 17 (mp_prec x)) 17);
    [lia | | | exact HM | exact HK].
  - rewrite (prec_div _ _ 17 (Z.max 17 (mp_prec x)));
      [lia | exact Hv1 | | exact HK | exact HM].
    rewrite (prec_mul _ _ 17 (Z.max 17 (mp_prec x)));
      [lia | apply Hd | exact Hb | exact HK | exact HM].
  - unfold Legacy.operator_d_mul, Legacy.mpf_class_d, mpf_get_default_prec.
    cbv zeta. cbn [mpf_mul mp_prec]. rewrite Hd3. apply Hd.
Qed.

(** C4.  [log] of the older header gmpxx_mkII.h, called on [x = 2.0]
    of 128 bits in the state at program start: it sets the default
    precision to 1000 bits first, takes pi and log 2 from the cached
    [const_pi()] and [const_log2()], and, when its loops converge,
    returns a result of 1024 bits, not of the 128 bits of [x]; the
    default precision, 512 bits before the call, is 1024 bits after
    it. *)
Theorem C4_legacy_log_ignores_the_precision_of_x (fuel : nat) :
  let x := mpf_class_d_prec d_2_0 128 in
  get_prec x = 128 /\
  mpf_get_default_prec initial_globals = 512 /\
  (Legacy.log fuel initial_globals x = OutOfFuel \/
   exists v g',
     Legacy.log fuel initial_globals x = Ok (v, g') /\
     get_prec v = 1024 /\ mpf_get_default_prec g' = 1024).
Proof.
  cbv zeta. split; [reflexivity|]. split; [reflexivity|].
  destruct (legacy_log_precision fuel initial_globals
              (mpf_class_d_prec d_2_0 128))
    as [H | (v & g' & H & Hv & Hg)]; try reflexivity.
  - unfold valid_limbs. cbn. lia.
  - now left.
  - right. exists v, g'. split; [exact H|].
    unfold get_prec, mpf_get_prec, mpf_get_default_prec. rewrite Hv, Hg.
    split; reflexivity.
Qed.

End LegacyLog.

(** * Evaluations on the reference engine *)

(** Closing a goal about numerals by evaluating it. *)
Ltac evaluated :=
  vm_compute; repeat split; try discriminate; try reflexivity.

(** The string constructors on the reference engine, which reads
    integers: a string with a stray letter and the empty string throw,
    and the numeral 0 builds the zero. *)
Example string_constructors_on_the_reference_engine :
  throws_invalid_argument (mpf_class_str (E := Ref.engine) 9 10 "12x") = true /\
  throws_invalid_argument (mpf_class_str_prec (E := Ref.engine) "" 128 10)
  = true /\
  value_of (mpf_class_str (E := Ref.engine) 9 10 "0") = Some (0, 0) /\
  value_of (mpf_class_str_prec (E := Ref.engine) "-12" 128 10)
  = Some (-12, 0).
Proof. repeat split; vm_compute; reflexivity. Qed.

(** The theorem of C1 applied to 1.0 of 64 bits and 0.25 of 128 bits:
    the results have 128 bits. *)
Lemma C1_binary_operators_witness :
  (valid_limbs (mp_prec ref_one_64) /\
   valid_limbs (mp_prec ref_quarter_128)) /\
  Z.max (get_prec ref_one_64) (get_prec ref_quarter_128) = 128 /\
  get_prec (ref_one_64 + ref_quarter_128)%mpf
  = Z.max (get_prec ref_one_64) (get_prec ref_quarter_128) /\
  get_prec (ref_one_64 - ref_quarter_128)%mpf
  = Z.max (get_prec ref_one_64) (get_prec ref_quarter_128) /\
  get_prec (ref_one_64 * ref_quarter_128)%mpf
  = Z.max (get_prec ref_one_64) (get_prec ref_quarter_128) /\
  get_prec (ref_one_64 / ref_quarter_128)%mpf
  = Z.max (get_prec ref_one_64) (get_prec ref_quarter_128).
Proof.
  assert (Ha : valid_limbs (mp_prec ref_one_64)) by evaluated.
  assert (Hb : valid_limbs (mp_prec ref_quarter_128)) by evaluated.
  split; [split; assumption|]. split; [reflexivity|].
  exact (C1_binary_operators_take_the_larger_precision
           ref_one_64 ref_quarter_128 Ha Hb).
Defined.

(** The theorem of C2 applied to [x] = 1.0 of 64 bits and [y] = 0.25
    of 128 bits: [x] keeps its 64 bits. *)
Lemma C2_copy_assignment_witness :
  (valid_limbs (mp_prec ref_one_64) /\ fits ref_one_64) /\
  get_prec ref_one_64 = 64 /\ get_prec ref_quarter_128 = 128 /\
  get_prec (operator_assign false ref_one_64 ref_quarter_128)
  = get_prec ref_one_64 /\
  mp_val (operator_assign false ref_one_64 ref_quarter_128)
  = E_set (mp_prec ref_one_64) (mp_val ref_quarter_128).
Proof.
  assert (Hx : valid_limbs (mp_prec ref_one_64)) by evaluated.
  assert (Hf : fits ref_one_64) by evaluated.
  split; [split; assumption|]. split; [reflexivity|]. split; [reflexivity|].
  apply (C2_copy_assignment_keeps_the_precision
           false ref_one_64 ref_quarter_128 Hx Hf).
  discriminate.
Defined.

(** The theorem of C3 applied to the state at program start after
    [mpf_set_default_prec(64)]:
    nothing is cached, the call runs the iteration, which converges,
    and returns its result as stored in the slot; the state after the
    call is a cache hit. *)
Lemma C3_const_pi_cache_witness :
  (valid_limbs (gmp_default_fp_limb_precision ref_globals_64) /\
   valid_limbs (mp_prec (pi_cached ref_globals_64))) /\
  pi_cache_hit ref_globals_64 = false /\
  exists computed,
    gauss_legendre_pi 2 30 64 = Some computed /\
    value_of_call (const_pi 30 ref_globals_64) = Some (E_set 2 computed).
Proof.
  assert (Hd : valid_limbs (gmp_default_fp_limb_precision ref_globals_64))
    by evaluated.
  assert (Hs : valid_limbs (mp_prec (pi_cached ref_globals_64)))
    by evaluated.
  split; [split; assumption|]. split; [reflexivity|].
  destruct (C3_const_pi_cache (L := ref_laws) 30 ref_globals_64 Hd Hs)
    as [_ Hmiss].
  rewrite (Hmiss eq_refl).
  eexists. split; [vm_compute; reflexivity | vm_compute; reflexivity].
Defined.

(** C5.  At program start the default precision is 512 bits and the
    slot [pi_cached], constructed before the initializer ran, has 64
    bits.  [const_pi()] runs the Gauss-Legendre iteration at 512 bits
    and assigns its last estimate to the slot, which keeps its own
    precision: the call returns the estimate cut down to 64 bits, not
    the estimate, where [const_pi(512)] returns the estimate itself at
    512 bits. *)
Theorem C5_const_pi_returns_a_truncated_estimate :
  mpf_get_default_prec (E := Ref.engine) initial_globals = 512 /\
  get_prec (pi_cached (E := Ref.engine) initial_globals) = 64 /\
  exists estimate,
    gauss_legendre_pi (E := Ref.engine) 9 40 512 = Some estimate /\
    const_pi_prec (E := Ref.engine) 40 512 = Ok (Mpf 9 estimate) /\
    (exists g',
       const_pi (E := Ref.engine) 40 initial_globals
       = Ok (Mpf 2 (E_set 2 estimate), g')) /\
    get_prec (E := Ref.engine) (Mpf 2 (E_set 2 estimate)) = 64 /\
    E_set 2 estimate <> estimate.
Proof.
  assert (Hp : limb_aligned 512) by evaluated.
  assert (Hd : valid_limbs
                 (gmp_default_fp_limb_precision (E := Ref.engine)
                    initial_globals)) by evaluated.
  assert (Hs : valid_limbs
                 (mp_prec (pi_cached (E := Ref.engine) initial_globals)))
    by evaluated.
  split; [reflexivity|]. split; [reflexivity|].
  let v := eval vm_compute in (gauss_legendre_pi (E := Ref.engine) 9 40 512) in
  match v with
  | Some ?e =>
      assert (He : gauss_legendre_pi (E := Ref.engine) 9 40 512 = Some e)
        by (vm_compute; reflexivity);
      exists e
  end.
  split; [exact He|]. split; [|split; [|split]].
  - rewrite (const_pi_prec_refines (L := ref_laws) 40 512 Hp).
    change (GMPF_BITS_TO_PREC 512) with 9. rewrite He. reflexivity.
  - rewrite (const_pi_miss (L := ref_laws) 40 initial_globals Hd Hs eq_refl).
    change (gmp_default_fp_limb_precision (E := Ref.engine) initial_globals)
      with 9.
    change (mpf_get_default_prec (E := Ref.engine) initial_globals) with 512.
    rewrite He. eexists. reflexivity.
  - reflexivity.
  - vm_compute. discriminate.
Qed.

(** C6.  With the default precision at 64 bits, [const_log2()] stops
    its AGM loop when [|a - b| < 2^-(64/2 - 2)], the value it starts
    [b] from, where [const_log2(64)] stops at [2^-64]: the two calls
    run the same iteration on the same pi to different thresholds and
    return different values for log 2. *)
Theorem C6_const_log2_stops_at_its_start_value :
  exists pi cached computed,
    gauss_legendre_pi 2 30 64 = Some pi /\
    value_of_call (const_log2 30 ref_globals_64) = Some cached /\
    agm_log2 2 30 64 (s_pow2_neg 2 (to_ulong (64 / 2 - 2))) pi = Some cached /\
    value_of (const_log2_prec 30 64) = Some computed /\
    agm_log2 2 30 64 (s_pow2_neg 2 64) pi = Some computed /\
    cached <> computed.
Proof.
  do 3 eexists.
  split; [vm_compute; reflexivity|].
  split; [vm_compute; reflexivity|].
  split; [vm_compute; reflexivity|].
  split; [vm_compute; reflexivity|].
  split; [vm_compute; reflexivity|].
  vm_compute. discriminate.
Qed.



(** * Precision of the other [mpf_class] operations *)

Section MixedPrecision.

Context {E : Engine}.

(** X1.  A compound assignment computes into the left operand and so
    at its precision, whatever the precision of the right operand; the
    spelled-out [a = a + b], a move assignment of the temporary, has
    the same precision but rounds twice, once at the larger precision
    and once into [a]. *)
Theorem X1_compound_assignment_keeps_the_left_precision (a b : mpf_class) :
  valid_limbs (mp_prec a) -> valid_limbs (mp_prec b) ->
  (get_prec (operator_add_assign a b) = get_prec a /\
   get_prec (operator_sub_assign a b) = get_prec a /\
   get_prec (operator_mul_assign a b) = get_prec a /\
   get_prec (operator_div_assign a b) = get_prec a) /\
  get_prec (move_assign a (a + b)%mpf) = get_prec a /\
  mp_val (operator_add_assign a b)
  = E_add (mp_prec a) (mp_val a) (mp_val b) /\
  mp_val (move_assign a (a + b)%mpf)
  = E_set (mp_prec a)
      (E_add (Z.max (mp_prec a) (mp_prec b)) (mp_val a) (mp_val b)).
Proof.
  intros Ha Hb. split; [repeat split|].
  unfold move_assign, operator_assign_move. cbn [negb]. cbv zeta.
  rewrite (init2_get_prec a Ha).
  unfold operator_add. cbv zeta. rewrite (init2_largerprec a b Ha Hb).
  repeat split.
Qed.

(** X2.  With a built-in operand (an integer or a double) the sum takes
    the precision of the [mpf_class] operand, and the difference, the
    product and the quotient take the default precision: their result
    is the temporary built from the built-in operand by the
    one-argument constructor.  The compound forms keep the precision
    of the left operand. *)
Theorem X2_scalar_operands (default_limbs : Z) (a : mpf_class) (s : scalar) :
  valid_limbs (mp_prec a) ->
  (get_prec (operator_add_T default_limbs a s) = get_prec a /\
   get_prec (operator_T_add default_limbs s a) = get_prec a) /\
  (get_prec (operator_sub_T default_limbs a s)
   = GMPF_PREC_TO_BITS default_limbs /\
   get_prec (operator_T_sub default_limbs s a)
   = GMPF_PREC_TO_BITS default_limbs /\
   get_prec (operator_mul_T default_limbs a s)
   = GMPF_PREC_TO_BITS default_limbs /\
   get_prec (operator_T_mul default_limbs s a)
   = GMPF_PREC_TO_BITS default_limbs /\
   get_prec (operator_div_T default_limbs a s)
   = GMPF_PREC_TO_BITS default_limbs /\
   get_prec (operator_T_div default_limbs s a)
   = GMPF_PREC_TO_BITS default_limbs) /\
  (get_prec (operator_add_assign_T default_limbs a s) = get_prec a /\
   get_prec (operator_sub_assign_T default_limbs a s) = get_prec a /\
   get_prec (operator_mul_assign_T default_limbs a s) = get_prec a /\
   get_prec (operator_div_assign_T default_limbs a s) = get_prec a) /\
  mp_val (operator_add_T default_limbs a s)
  = E_add (mp_prec a) (E_set (mp_prec a) (mp_val a))
          (mp_val (mpf_class_scalar default_limbs s)) /\
  mp_val (operator_sub_T default_limbs a s)
  = E_sub default_limbs (mp_val a)
          (mp_val (mpf_class_scalar default_limbs s)).
Proof.
  intros Ha.
  assert (Hs : mp_prec (mpf_class_scalar default_limbs s) = default_limbs)
    by (destruct s; reflexivity).
  unfold operator_T_add, operator_add_T, operator_T_mul, operator_mul_T,
    operator_sub_T, operator_T_sub, operator_div_T, operator_T_div,
    operator_add_assign_T, operator_sub_assign_T, operator_mul_assign_T,
    operator_div_assign_T, mpf_class_copy.
  cbv zeta. rewrite (init2_get_prec a Ha).
  unfold get_prec, mpf_get_prec, mpf_add, mpf_sub, mpf_mul, mpf_div, mpf_set.
  cbn [mp_prec mp_val]. rewrite Hs. repeat split.
Qed.

(** X3.  [hypot] returns a result of the larger of the two precisions:
    the squares are taken at the precision of each operand, their sum
    and its square root at the larger one. *)
Theorem X3_hypot_precision (default_limbs : Z) (a b : mpf_class) :
  valid_limbs (mp_prec a) -> valid_limbs (mp_prec b) ->
  get_prec (hypot default_limbs a b) = Z.max (get_prec a) (get_prec b) /\
  get_prec (hypot default_limbs a b) = get_prec (hypot default_limbs b a) /\
  let K := Z.max (mp_prec a) (mp_prec b) in
  mp_val (hypot default_limbs a b)
  = E_set K (E_sqrt K
      (E_add K (E_mul (mp_prec a) (mp_val a) (mp_val a))
               (E_mul (mp_prec b) (mp_val b) (mp_val b)))).
Proof.
  intros Ha Hb.
  assert (HK : valid_limbs (Z.max (mp_prec a) (mp_prec b)))
    by (unfold valid_limbs in *; lia).
  assert (Hh : forall x y : mpf_class,
             valid_limbs (mp_prec x) -> valid_limbs (mp_prec y) ->
             hypot default_limbs x y
             = Mpf (Z.max (mp_prec x) (mp_prec y))
                 (E_set (Z.max (mp_prec x) (mp_prec y))
                    (E_sqrt (Z.max (mp_prec x) (mp_prec y))
                       (E_add (Z.max (mp_prec x) (mp_prec y))
                          (E_mul (mp_prec x) (mp_val x) (mp_val x))
                          (E_mul (mp_prec y) (mp_val y) (mp_val y)))))).
  { intros x y Hx Hy.
    assert (Hxy : valid_limbs (Z.max (mp_prec x) (mp_prec y)))
      by (unfold valid_limbs in *; lia).
    unfold hypot. cbv zeta. rewrite (init2_largerprec x y Hx Hy).
    destruct x as [kx vx], y as [ky vy]. cbn [mp_prec mp_val] in *.
    unfold operator_mul at 1 2. cbv zeta.
    rewrite !init2_largerprec by assumption.
    cbn [mp_prec]. rewrite !Z.max_id.
    unfold mpf_mul. cbn [mp_prec mp_val].
    unfold operator_add. cbv zeta.
    rewrite init2_largerprec by assumption.
    unfold mpf_add. cbn [mp_prec mp_val].
    unfold sqrt, mpf_class_copy. cbv zeta.
    rewrite init2_get_prec by assumption.
    unfold mpf_set, mpf_sqrt. cbn [mp_prec mp_val].
    unfold move_assign, operator_assign_move. cbn [negb]. cbv zeta.
    rewrite init2_get_prec by assumption.
    unfold mpf_set. cbn [mp_prec mp_val]. reflexivity. }
  rewrite (Hh a b Ha Hb), (Hh b a Hb Ha).
  split; [|split].
  - rewrite <- (get_prec_max a b Ha Hb). reflexivity.
  - unfold get_prec, mpf_get_prec. cbn [mp_prec].
    now rewrite Z.max_comm.
  - reflexivity.
Qed.

End MixedPrecision.

(** * Requested and granted precision *)

Lemma granted_precision_spec (p : Z) :
  0 <= p <= 2 ^ 64 - 128 ->
  GMPF_PREC_TO_BITS (GMPF_BITS_TO_PREC p) = granted_precision p /\
  valid_limbs (GMPF_BITS_TO_PREC p).
Proof.
  intros Hp. unfold GMPF_PREC_TO_BITS, GMPF_BITS_TO_PREC, GMP_NUMB_BITS,
    granted_precision, to_ulong, valid_limbs. pow2.
  rewrite (Z.mod_small (Z.max 53 p + 2 * 64 - 1)) by lia.
  replace (Z.max 53 p + 2 * 64 - 1) with (Z.max 53 p + 63 + 1 * 64) by lia.
  rewrite Z.div_add by lia.
  assert (H0 : 1 <= (Z.max 53 p + 63) / 64).
  { apply Z.div_le_lower_bound; lia. }
  assert (H1 : (Z.max 53 p + 63) / 64 < 288230376151711743).
  { apply Z.div_lt_upper_bound; lia. }
  rewrite Z.mod_small by lia. lia.
Qed.

Section GrantedPrecision.

Context {E : Engine}.

(** X4.  An object built or re-sized with a requested precision of [p]
    bits reports [p] rounded up to whole 64-bit limbs, and at least 64
    bits: [get_prec()] is never below the request, exceeds it by less
    than 64 bits (for [p >= 53]), and equals it exactly when [p] is a
    multiple of 64 from 64 up.  This holds for the constructors with a
    precision argument, [set_prec] and the default precision. *)
Theorem X4_granted_precision
  (p : Z) (d : double) (z : Z) (x : mpf_class) (g : globals) :
  0 <= p <= 2 ^ 64 - 128 ->
  (get_prec (mpf_class_d_prec d p) = granted_precision p /\
   get_prec (mpf_class_si_prec z p) = granted_precision p /\
   get_prec (mpf_class_ui_prec z p) = granted_precision p /\
   get_prec (mpf_class_copy_prec x p) = granted_precision p /\
   get_prec (set_prec x p) = granted_precision p /\
   mpf_get_default_prec (mpf_set_default_prec p g) = granted_precision p) /\
  granted_precision p mod 64 = 0 /\
  Z.max 53 p <= granted_precision p < Z.max 53 p + 64 /\
  (granted_precision p = p <-> limb_aligned p).
Proof.
  intros Hp. destruct (granted_precision_spec p Hp) as [Hg _].
  split.
  { repeat split; try exact Hg.
    unfold set_prec, mpf_set_prec. cbv zeta.
    destruct (Z.eqb_spec (GMPF_BITS_TO_PREC p) (mp_prec x)) as [Heq|_].
    - unfold get_prec, mpf_get_prec. rewrite <- Heq. exact Hg.
    - exact Hg. }
  unfold granted_precision, limb_aligned.
  pose proof (Z.div_mod (Z.max 53 p + 63) 64 ltac:(lia)) as Hd.
  pose proof (Z.mod_pos_bound (Z.max 53 p + 63) 64 ltac:(lia)) as Hm.
  split; [|split].
  - rewrite Z.mul_comm. apply Z.mod_mul. lia.
  - lia.
  - pow2. split.
    + intros Heq. split; [lia|].
      rewrite <- Heq. rewrite Z.mul_comm. apply Z.mod_mul. lia.
    + intros [Hr Ha].
      pose proof (Z.div_mod p 64 ltac:(lia)) as Hq. rewrite Ha in Hq.
      rewrite Z.max_r by lia.
      replace (p + 63) with (63 + (p / 64) * 64) by lia.
      rewrite Z.div_add by lia. change (63 / 64) with 0. lia.
Qed.

(** X5.  A precision read back from an object, or from the default,
    can be handed to any of these operations without change: copying
    an object, re-sizing it to its own [get_prec()] and setting the
    default precision to [get_default_prec()] keep the precision, and
    keep the value of an object whose value fits its precision. *)
Theorem X5_precision_round_trips (x : mpf_class) (g : globals) :
  valid_limbs (mp_prec x) -> fits x ->
  valid_limbs (gmp_default_fp_limb_precision g) ->
  mpf_class_copy x = x /\
  mpf_class_copy_prec x (get_prec x) = x /\
  set_prec x (get_prec x) = x /\
  mpf_set_default_prec (mpf_get_default_prec g) g = g /\
  get_prec (mpf_class_default (gmp_default_fp_limb_precision g))
  = mpf_get_default_prec g.
Proof.
  intros Hx Hf Hg.
  unfold mpf_class_copy, mpf_class_copy_prec, set_prec, mpf_set_prec,
    get_prec, mpf_get_prec, mpf_init2, mpf_set, mpf_set_default_prec,
    mpf_get_default_prec, mpf_class_default, mpf_init.
  cbv zeta. cbn [mp_prec mp_val].
  rewrite (prec_bits_prec _ Hx), (prec_bits_prec _ Hg), Z.eqb_refl.
  unfold fits in Hf. rewrite Hf.
  destruct x, g; repeat split.
Qed.

End GrantedPrecision.

(** * [mpz_class] with built-in operands *)

Lemma to_ulong_small (x : Z) : 0 <= x < 2 ^ 64 -> to_ulong x = x.
Proof. intros H. unfold to_ulong. apply Z.mod_small. exact H. Qed.

Lemma to_long_small (x : Z) : - 2 ^ 63 <= x < 2 ^ 63 -> to_long x = x.
Proof.
  intros H. unfold to_long. pow2. rewrite Z.mod_small; lia.
Qed.

Lemma signed_range_64 (w x : Z) :
  8 <= w <= 64 -> Mpz.signed_range w x -> - 2 ^ 63 <= x < 2 ^ 63.
Proof.
  unfold Mpz.signed_range. intros Hw Hx.
  assert (Hp : 2 ^ (w - 1) <= 2 ^ 63) by (apply Z.pow_le_mono_r; lia).
  lia.
Qed.

Lemma negate_exact (w x : Z) :
  8 <= w <= 64 -> Mpz.signed_range (Z.max 32 w) (- x) ->
  Mpz.negate w x = - x.
Proof.
  unfold Mpz.negate, Mpz.wrap, Mpz.signed_range. intros Hw Hx.
  set (v := Z.max 32 w) in *.
  assert (Hv : 0 < 2 ^ (v - 1)) by (apply Z.pow_pos_nonneg; lia).
  assert (H2 : 2 ^ v = 2 * 2 ^ (v - 1)).
  { replace v with (1 + (v - 1)) at 1 by lia.
    rewrite Z.pow_add_r by lia. reflexivity. }
  rewrite Z.mod_small by lia. lia.
Qed.

(** The magnitude of a negative machine integer, as
    [-static_cast<unsigned long>(x)] computes it. *)
Lemma unsigned_negation (x : Z) :
  - 2 ^ 63 <= x < 0 -> to_ulong (- to_ulong x) = - x.
Proof.
  intros H. unfold to_ulong. pow2.
  replace (x mod 18446744073709551616) with (x + 18446744073709551616).
  2:{ symmetry. rewrite <- (Z.mod_add x 1) by lia.
      rewrite Z.mod_small; lia. }
  replace (- (x + 18446744073709551616))
    with (- x + (-1) * 18446744073709551616) by lia.
  rewrite Z.mod_add by lia. rewrite Z.mod_small; lia.
Qed.

(** X6.  Adding or subtracting a signed machine integer takes the
    branch of its sign and hands GMP the magnitude; whenever the
    negation [-rhs] does not overflow, all six operators return the
    exact sum or difference. *)
Theorem X6_mpz_signed_sum_and_difference (w a x : Z) :
  8 <= w <= 64 ->
  Mpz.signed_range w x ->
  Mpz.signed_range (Z.max 32 w) (- x) ->
  Mpz.operator_add_assign_si w a x = a + x /\
  Mpz.operator_add_si w a x = a + x /\
  Mpz.operator_si_add w x a = x + a /\
  Mpz.operator_sub_assign_si w a x = a - x /\
  Mpz.operator_sub_si w a x = a - x /\
  Mpz.operator_si_sub w x a = x - a.
Proof.
  intros Hw Hx Hn.
  pose proof (signed_range_64 w x Hw Hx) as H64.
  unfold Mpz.operator_add_assign_si, Mpz.operator_add_si,
    Mpz.operator_si_add, Mpz.operator_sub_assign_si, Mpz.operator_sub_si,
    Mpz.operator_si_sub, Mpz.mpz_add_ui, Mpz.mpz_sub_ui, Mpz.mpz_ui_sub,
    Mpz.mpz_neg.
  cbv zeta. rewrite (negate_exact w x Hw Hn).
  destruct (x >=? 0) eqn:Hs.
  - apply Z.geb_le in Hs. pow2.
    rewrite (to_ulong_small x) by (pow2; lia). repeat split; lia.
  - rewrite Z.geb_leb in Hs. apply Z.leb_gt in Hs. pow2.
    assert (Hu : to_ulong (- x) = - x) by (apply to_ulong_small; pow2; lia).
    rewrite Hu, Hu. repeat split; lia.
Qed.

(** X7.  Dividing by a signed machine integer truncates towards zero,
    as the built-in division does, for every divisor of every signed
    type, the most negative one included: the quotient is
    [Z.quot a x], the remainder [Z.rem a x] has the sign of the
    dividend, and the two recompose [a].  A zero divisor reaches GMP,
    which stops the program. *)
Theorem X7_mpz_signed_division (w a x : Z) :
  8 <= w <= 64 ->
  Mpz.signed_range w x ->
  (x <> 0 ->
   Mpz.operator_div_assign_si a x = Value (Z.quot a x) /\
   Mpz.operator_div_si a x = Value (Z.quot a x) /\
   Mpz.operator_mod_assign_si a x = Value (Z.rem a x) /\
   Mpz.operator_mod_si a x = Value (Z.rem a x) /\
   a = x * Z.quot a x + Z.rem a x /\
   Z.abs (Z.rem a x) < Z.abs x /\
   0 <= Z.rem a x * a) /\
  (x = 0 ->
   Mpz.operator_div_assign_si a x = Division_by_zero /\
   Mpz.operator_div_si a x = Division_by_zero /\
   Mpz.operator_mod_assign_si a x = Division_by_zero /\
   Mpz.operator_mod_si a x = Division_by_zero).
Proof.
  intros Hw Hx.
  pose proof (signed_range_64 w x Hw Hx) as H64.
  unfold Mpz.operator_div_assign_si, Mpz.operator_div_si,
    Mpz.operator_mod_assign_si, Mpz.operator_mod_si. cbv zeta.
  split.
  - intros Hnz.
    assert (Hrec : a = x * Z.quot a x + Z.rem a x)
      by (apply Z.quot_rem'; exact Hnz).
    assert (Hbound : Z.abs (Z.rem a x) < Z.abs x)
      by (apply Z.rem_bound_abs; exact Hnz).
    assert (Hsign : 0 <= Z.rem a x * a)
      by (apply Z.rem_sign_mul; exact Hnz).
    destruct (x >=? 0) eqn:Hs.
    + apply Z.geb_le in Hs.
      rewrite (to_long_small x) by lia.
      rewrite (to_ulong_small x) by (pow2; lia).
      unfold Mpz.mpz_tdiv_q_ui, Mpz.mpz_tdiv_r_ui.
      destruct (Z.eqb_spec x 0); [contradiction|]. repeat split; assumption.
    + rewrite Z.geb_leb in Hs. apply Z.leb_gt in Hs.
      rewrite (unsigned_negation x) by lia.
      assert (Hu : to_ulong (- x) = - x)
        by (apply to_ulong_small; pow2; lia).
      assert (Hl : to_ulong (to_long (- x)) = - x).
      { unfold to_long, to_ulong. pow2.
        destruct (Z.eq_dec x (-9223372036854775808)) as [->|Hne].
        - reflexivity.
        - rewrite (Z.mod_small (- x + 9223372036854775808)) by lia.
          rewrite Z.mod_small; lia. }
      rewrite Hu, Hl.
      unfold Mpz.mpz_tdiv_q_ui, Mpz.mpz_tdiv_r_ui.
      destruct (Z.eqb_spec (- x) 0); [lia|].
      cbn [outcome_map]. unfold Mpz.mpz_neg.
      rewrite Z.quot_opp_r by exact Hnz. rewrite Z.opp_involutive.
      rewrite Z.rem_opp_r by exact Hnz. repeat split; assumption.
  - intros ->. cbn. repeat split.
Qed.

(** X8.  The two right shifts round differently: [op >> n] rounds
    towards minus infinity (GMP's [fdiv]) and [op >>= n] towards zero
    ([tdiv]).  They agree exactly on the operands that are
    non-negative or divisible by [2^n]; on the others [op >> n] is one
    less.  A left shift is undone by either. *)
Theorem X8_mpz_right_shifts_differ (a n : Z) :
  0 <= n < 2 ^ 64 ->
  Mpz.operator_shr a n = a / 2 ^ n /\
  Mpz.operator_shr_assign a n = Z.quot a (2 ^ n) /\
  (0 <= a \/ a mod 2 ^ n = 0 ->
   Mpz.operator_shr a n = Mpz.operator_shr_assign a n) /\
  (a < 0 -> a mod 2 ^ n <> 0 ->
   Mpz.operator_shr a n = Mpz.operator_shr_assign a n - 1) /\
  Mpz.operator_shr (Mpz.operator_shl a n) n = a /\
  Mpz.operator_shr_assign (Mpz.operator_shl_assign a n) n = a.
Proof.
  intros Hn.
  unfold Mpz.operator_shr, Mpz.operator_shr_assign, Mpz.operator_shl,
    Mpz.operator_shl_assign, Mpz.mpz_fdiv_q_2exp, Mpz.mpz_tdiv_q_2exp,
    Mpz.mpz_mul_2exp. cbv zeta.
  rewrite (to_ulong_small n Hn).
  assert (Hp : 0 < 2 ^ n) by (apply Z.pow_pos_nonneg; lia).
  set (d := 2 ^ n) in *.
  assert (Hquot : forall b, 0 <= b -> Z.quot b d = b / d)
    by (intros b Hb; apply Z.quot_div_nonneg; lia).
  split; [reflexivity|]. split; [reflexivity|].
  split; [|split; [|split]].
  - intros [Hpos | Hdiv].
    + symmetry. apply Hquot. exact Hpos.
    + destruct (Z_le_gt_dec 0 a) as [Hpos | Hneg];
        [symmetry; apply Hquot; exact Hpos|].
      pose proof (Z.div_mod a d ltac:(lia)) as Hd. rewrite Hdiv in Hd.
      rewrite Hd at 2. rewrite Z.add_0_r.
      rewrite Z.mul_comm. rewrite Z.quot_mul by lia. reflexivity.
  - intros Hneg Hnd.
    pose proof (Z.div_mod a d ltac:(lia)) as Hd.
    pose proof (Z.mod_pos_bound a d Hp) as Hb.
    assert (Hq : Z.quot a d = a / d + 1).
    { rewrite <- (Z.opp_involutive a) at 1.
      rewrite Z.quot_opp_l by lia.
      rewrite Hquot by lia.
      assert (Hopp : - a = d * (- (a / d) - 1) + (d - a mod d)) by lia.
      rewrite Hopp at 1.
      rewrite Z.mul_comm, Z.div_add_l by lia.
      rewrite (Z.div_small (d - a mod d) d) by lia. lia. }
    lia.
  - rewrite Z.div_mul by lia. reflexivity.
  - rewrite Z.quot_mul by lia. reflexivity.
Qed.

(** * [factorial] and [fibonacci] *)

Lemma sizeinbase_guard (a : Z) :
  (Mpz.mpz_sizeinbase_2 a >? 300) = (2 ^ 300 <=? Z.abs a).
Proof.
  unfold Mpz.mpz_sizeinbase_2.
  destruct (Z.eqb_spec a 0) as [->|Hnz]; [reflexivity|].
  assert (Hpos : 0 < Z.abs a) by lia.
  destruct (Z.leb_spec (2 ^ 300) (Z.abs a)) as [Hle|Hlt].
  - apply Z.gtb_lt. apply Z.log2_le_pow2 in Hle; lia.
  - rewrite Z.gtb_ltb. apply Z.ltb_ge.
    apply Z.log2_lt_pow2 in Hlt; lia.
Qed.

Lemma operator_lt_si_zero (a : Z) : Mpz.operator_lt_si a 0 = (a <? 0).
Proof.
  unfold Mpz.operator_lt_si, Mpz.mpz_cmp_si.
  change (to_long 0) with 0. unfold Z.ltb at 2.
  destruct (a ?= 0); reflexivity.
Qed.

Lemma operator_ne_si_zero (a : Z) :
  Mpz.operator_ne_si a 0 = negb (a =? 0).
Proof.
  unfold Mpz.operator_ne_si, Mpz.mpz_cmp_si.
  change (to_long 0) with 0. unfold Z.eqb at 2.
  destruct (a ?= 0) eqn:Hc; destruct a; try discriminate; reflexivity.
Qed.

Lemma rem_2_even (a : Z) : (Z.rem a 2 =? 0) = Z.even a.
Proof.
  pose proof (Z.quot_rem' a 2) as Hd.
  pose proof (Z.rem_bound_abs a 2 ltac:(lia)) as Hb.
  rewrite Hd at 2. rewrite Z.add_comm, Z.even_add_mul_2.
  assert (Hr : Z.rem a 2 = -1 \/ Z.rem a 2 = 0 \/ Z.rem a 2 = 1) by lia.
  destruct Hr as [-> | [-> | ->]]; reflexivity.
Qed.

Lemma fib_step (n : nat) :
  Mpz.fib (S (S n)) = Mpz.fib (S n) + Mpz.fib n.
Proof. reflexivity. Qed.

(** The recurrence holds along all the integers. *)
Lemma negafibonacci_step (n : Z) :
  negafibonacci (n + 2) = negafibonacci (n + 1) + negafibonacci n.
Proof.
  unfold negafibonacci.
  destruct (Z.ltb_spec n 0) as [Hneg|Hpos].
  - (* n = -(m + 1) *)
    remember (Z.to_nat (- n - 1)) as m eqn:Hm.
    assert (Hn : n = - Z.of_nat (S m)) by lia.
    destruct m as [|m].
    + replace n with (-1) by lia. reflexivity.
    + assert (H1 : n + 1 = - Z.of_nat (S m)) by lia.
      assert (H2 : n + 2 = - Z.of_nat m) by lia.
      rewrite H1, H2, Hn.
      destruct (Z.ltb_spec (- Z.of_nat (S m)) 0); [|lia].
      rewrite !Z.opp_involutive, !Nat2Z.id, !Z.even_opp.
      replace (Z.of_nat (S (S m))) with (Z.succ (Z.succ (Z.of_nat m))) by lia.
      replace (Z.of_nat (S m)) with (Z.succ (Z.of_nat m)) by lia.
      rewrite Z.even_succ_succ, Z.even_succ, <- Z.negb_even.
      rewrite fib_step.
      destruct (Z.ltb_spec (- Z.of_nat m) 0) as [Hm0|Hm0].
      * destruct (Z.even (Z.of_nat m)); cbn [negb]; lia.
      * assert (m = 0%nat) by lia. subst m. reflexivity.
  - destruct (Z.ltb_spec (n + 2) 0); [lia|].
    destruct (Z.ltb_spec (n + 1) 0); [lia|].
    replace (Z.to_nat (n + 2)) with (S (S (Z.to_nat n))) by lia.
    replace (Z.to_nat (n + 1)) with (S (Z.to_nat n)) by lia.
    apply fib_step.
Qed.

Lemma fibonacci_in_range (op : Z) :
  Z.abs op < 2 ^ 64 -> Mpz.fibonacci op = Value (negafibonacci op).
Proof.
  intros Hr. unfold Mpz.fibonacci. cbv zeta.
  rewrite sizeinbase_guard.
  destruct (Z.leb_spec (2 ^ 300) (Z.abs op)) as [Hbig|_].
  { assert (2 ^ 64 < 2 ^ 300) by (apply Z.pow_lt_mono_r; lia). lia. }
  rewrite operator_lt_si_zero. unfold negafibonacci.
  destruct (Z.ltb_spec op 0) as [Hneg|Hpos].
  - unfold Mpz.mpz_get_ui, Mpz.mpz_neg, Mpz.mpz_fib_ui.
    rewrite Z.mod_small by lia.
    replace (Z.abs (- op)) with (- op) by lia.
    assert (Hadd : Mpz.operator_add_si 32 op 1 = op + 1) by reflexivity.
    rewrite Hadd.
    assert (Hmod : Mpz.operator_mod_si (op + 1) 2 = Value (Z.rem (op + 1) 2))
      by reflexivity.
    rewrite Hmod. cbn [outcome_bind]. rewrite operator_ne_si_zero.
    assert (Hpar : (Z.rem (op + 1) 2 =? 0) = negb (Z.even op)).
    { rewrite rem_2_even. replace (op + 1) with (Z.succ op) by lia.
      rewrite Z.even_succ. symmetry. apply Z.negb_even. }
    rewrite Hpar, negb_involutive.
    destruct (Z.even op); reflexivity.
  - unfold Mpz.mpz_get_ui, Mpz.mpz_fib_ui.
    rewrite Z.mod_small by lia.
    replace (Z.abs op) with op by lia. reflexivity.
Qed.

(** X9.  [fibonacci] extends the Fibonacci numbers to negative
    arguments by [F(-n) = (-1)^(n+1) F(n)], so that the recurrence
    [F(n+2) = F(n+1) + F(n)] holds across zero: for every argument of
    magnitude below [2^64] the call returns [negafibonacci].  An
    argument of 301 bits or more is refused with [std::bad_alloc]; one
    in between is silently reduced to the low 64 bits of its
    magnitude. *)
Theorem X9_fibonacci (op : Z) :
  (Z.abs op < 2 ^ 64 -> Mpz.fibonacci op = Value (negafibonacci op)) /\
  negafibonacci 0 = 0 /\ negafibonacci 1 = 1 /\
  negafibonacci (op + 2) = negafibonacci (op + 1) + negafibonacci op /\
  (2 ^ 64 <= op < 2 ^ 300 ->
   Mpz.fibonacci op = Value (negafibonacci (op mod 2 ^ 64))) /\
  (2 ^ 300 <= Z.abs op -> Mpz.fibonacci op = Bad_alloc).
Proof.
  split; [apply fibonacci_in_range|].
  split; [reflexivity|]. split; [reflexivity|].
  split; [apply negafibonacci_step|]. split.
  - intros Hr. unfold Mpz.fibonacci. cbv zeta.
    rewrite sizeinbase_guard.
    destruct (Z.leb_spec (2 ^ 300) (Z.abs op)) as [Hbig|_]; [lia|].
    rewrite operator_lt_si_zero.
    assert (H64 : 0 < 2 ^ 64) by (apply Z.pow_pos_nonneg; lia).
    destruct (Z.ltb_spec op 0); [lia|].
    unfold Mpz.mpz_get_ui, Mpz.mpz_fib_ui, negafibonacci.
    replace (Z.abs op) with op by lia.
    pose proof (Z.mod_pos_bound op (2 ^ 64) H64).
    destruct (Z.ltb_spec (op mod 2 ^ 64) 0); [lia|]. reflexivity.
  - intros Hbig. unfold Mpz.fibonacci. cbv zeta.
    rewrite sizeinbase_guard.
    destruct (Z.leb_spec (2 ^ 300) (Z.abs op)); [reflexivity|lia].
Qed.

(** X10.  [factorial] refuses a negative argument with
    [std::domain_error] and one of 301 bits or more with
    [std::bad_alloc]; below [2^64] it returns [n!]; in between it
    hands GMP the low 64 bits of the argument and returns their
    factorial. *)
Theorem X10_factorial (n : Z) :
  (n < 0 -> Mpz.factorial n = Domain_error) /\
  (0 <= n < 2 ^ 64 -> Mpz.factorial n = Value (Mpz.fac (Z.to_nat n))) /\
  (2 ^ 64 <= n < 2 ^ 300 ->
   Mpz.factorial n = Value (Mpz.fac (Z.to_nat (n mod 2 ^ 64)))) /\
  (2 ^ 300 <= n -> Mpz.factorial n = Bad_alloc).
Proof.
  assert (H64 : 0 < 2 ^ 64) by (apply Z.pow_pos_nonneg; lia).
  assert (Hlt : 2 ^ 64 < 2 ^ 300) by (apply Z.pow_lt_mono_r; lia).
  unfold Mpz.factorial. cbv zeta.
  rewrite operator_lt_si_zero, sizeinbase_guard.
  unfold Mpz.mpz_fac_ui, Mpz.mpz_get_ui.
  repeat split; intros Hn.
  - destruct (Z.ltb_spec n 0); [reflexivity|lia].
  - destruct (Z.ltb_spec n 0); [lia|].
    destruct (Z.leb_spec (2 ^ 300) (Z.abs n)); [lia|].
    replace (Z.abs n) with n by lia.
    rewrite Z.mod_small by lia. reflexivity.
  - destruct (Z.ltb_spec n 0); [lia|].
    destruct (Z.leb_spec (2 ^ 300) (Z.abs n)); [lia|].
    replace (Z.abs n) with n by lia. reflexivity.
  - destruct (Z.ltb_spec n 0); [lia|].
    destruct (Z.leb_spec (2 ^ 300) (Z.abs n)); [reflexivity|lia].
Qed.

(** * The constructors of [mpq_class] *)

(** X11.  A rational built from two [mpz_class] values is in lowest
    terms with a positive denominator and equals [op1 / op2]; a zero
    denominator throws [std::invalid_argument] before GMP sees it. *)
Theorem X11_mpq_from_two_integers (op1 op2 : Z) :
  (op2 = 0 -> Mpq.mpq_class_zz op1 op2 = Invalid_argument) /\
  (op2 <> 0 ->
   exists q,
     Mpq.mpq_class_zz op1 op2 = Value q /\
     0 < Mpq.den q /\
     Z.gcd (Mpq.num q) (Mpq.den q) = 1 /\
     Mpq.num q * op2 = op1 * Mpq.den q).
Proof.
  unfold Mpq.mpq_class_zz, Mpq.mpz_operator_eq_si, Mpq.mpq_canonicalize,
    Mpq.mpq_set_den, Mpq.mpq_set_num, Mpq.mpq_init, Mpz.mpz_cmp_si.
  cbv zeta. cbn [Mpq.num Mpq.den]. change (to_long 0) with 0.
  split.
  - intros ->. reflexivity.
  - intros Hnz.
    destruct (op2 ?= 0) eqn:Hc;
      [apply Z.compare_eq in Hc; contradiction| |];
      (change (-1 =? 0) with false; change (1 =? 0) with false; cbv iota);
      destruct (Z.eqb_spec op2 0); try contradiction.
    all: set (g := Z.gcd op1 op2).
    all: assert (Hg : 0 < g)
      by (pose proof (Z.gcd_nonneg op1 op2);
          assert (g <> 0) by (unfold g; intros H0;
            apply Z.gcd_eq_0_r in H0; contradiction); unfold g in *; lia).
    all: destruct (Z.gcd_divide_l op1 op2) as [a Ha];
      destruct (Z.gcd_divide_r op1 op2) as [b Hb]; fold g in Ha, Hb.
    all: assert (Hn : op1 / g = a) by (rewrite Ha at 1; apply Z.div_mul; lia).
    all: assert (Hd : op2 / g = b) by (rewrite Hb at 1; apply Z.div_mul; lia).
    all: assert (Hco : Z.gcd (op1 / g) (op2 / g) = 1)
      by (apply Z.gcd_div_gcd; [lia | reflexivity]).
    all: rewrite Hn, Hd in *.
    all: destruct (Z.ltb_spec b 0) as [Hb0|Hb0]; eexists;
      (split; [reflexivity|]); cbn [Mpq.num Mpq.den].
    all: repeat split;
      try (rewrite ?Z.gcd_opp_l, ?Z.gcd_opp_r; exact Hco); try nia.
Qed.

(** X12.  A rational built from two signed machine integers stores them
    as GMP's [mpq_set_si] takes them, numerator signed and denominator
    unsigned: nothing is reduced, and a negative [op2] is stored as
    [op2 + 2^64], so that the object is [op1 / op2] exactly when [op2]
    is not negative.  A zero denominator is stored as it is. *)
Theorem X12_mpq_from_two_machine_integers (op1 op2 : Z) :
  Mpz.signed_range 64 op1 -> Mpz.signed_range 64 op2 -> op1 <> 0 ->
  let q := Mpq.mpq_class_si_si op1 op2 in
  Mpq.num q = op1 /\
  Mpq.den q = (if op2 <? 0 then op2 + 2 ^ 64 else op2) /\
  (Mpq.num q * op2 = op1 * Mpq.den q <-> 0 <= op2).
Proof.
  unfold Mpz.signed_range. change (64 - 1) with 63.
  intros H1 H2 Hnz. cbv zeta.
  unfold Mpq.mpq_class_si_si, Mpq.mpq_set_si. cbv zeta.
  rewrite !to_long_small by assumption. cbn [Mpq.num Mpq.den].
  destruct (Z.eqb_spec op1 0); [contradiction|].
  assert (Hden : to_ulong op2 = if op2 <? 0 then op2 + 2 ^ 64 else op2).
  { unfold to_ulong. pow2. destruct (Z.ltb_spec op2 0).
    - rewrite <- (Z.mod_add op2 1) by lia. rewrite Z.mod_small; lia.
    - rewrite Z.mod_small; lia. }
  rewrite Hden. split; [reflexivity|]. split; [reflexivity|].
  pow2. destruct (Z.ltb_spec op2 0) as [Hs|Hs]; split; intros Heq;
    try lia; nia.
Qed.

(** * [log] is the AGM computation *)

Section LogRefinement.

Context {E : Engine} {L : EngineLaws E}.

(** X13.  [log(x)], called with the default precision at the precision
    [p] of [x], runs no failing assertion and returns, at precision
    [p], the value of [log_on_magnitudes]: with pi and log 2 from
    [const_pi(p)] and [const_log2(p)], and [m] the binary exponent of
    [2^(p/2) / x], the argument is multiplied by 2 to the power [m]
    converted to [unsigned long], the AGM of 1 and [4 / s] of the
    scaled argument [s] is iterated until [|a - b| < 2^-p], and the
    result is [pi / (2 * b) - m * log2].  The factor is [2^m] for
    [m >= 0]; for a negative [m], which an [x] above [2^(p/2 + 1)]
    gives, it is [2^(m + 2^64)].  The call runs out of fuel exactly when one
    of the three iterations does. *)
Theorem X13_log_is_the_agm_computation (fuel : nat) (x : mpf_class) :
  valid_limbs (mp_prec x) ->
  log fuel (mp_prec x) x
  = lift (mp_prec x)
      (log_on_magnitudes (mp_prec x) fuel (get_prec x) (mp_val x)) /\
  (forall v, log fuel (mp_prec x) x = Ok v -> get_prec v = get_prec x) /\
  (forall m, 0 <= m < 2 ^ 64 ->
     log_scale (mp_prec x) m
     = E_mul_2exp (mp_prec x) (s_one (mp_prec x)) m) /\
  (forall m, - 2 ^ 64 <= m < 0 ->
     log_scale (mp_prec x) m
     = E_mul_2exp (mp_prec x) (s_one (mp_prec x)) (m + 2 ^ 64)).
Proof.
  intros Hk.
  assert (Heq : log fuel (mp_prec x) x
    = lift (mp_prec x)
        (log_on_magnitudes (mp_prec x) fuel (get_prec x) (mp_val x))).
  { destruct x as [k vx]. cbn [mp_prec mp_val] in *.
    pose proof (valid_aligned k Hk) as Hp.
    pose proof (prec_bits_prec k Hk) as Hb.
    unfold log, log_on_magnitudes. cbv zeta.
    change (get_prec {| mp_prec := k; mp_val := vx |})
      with (GMPF_PREC_TO_BITS k).
    rewrite (const_pi_prec_refines fuel _ Hp),
      (const_log2_prec_refines fuel _ Hp).
    rewrite Hb.
    destruct (gauss_legendre_pi k fuel (GMPF_PREC_TO_BITS k)) as [pi|];
      [|reflexivity].
    destruct (spec_log2 k fuel (GMPF_PREC_TO_BITS k)) as [l2|];
      [|reflexivity].
    cbn [lift bind].
    unfold mpf_class_d_prec, mpf_set_d, mpf_init2, div_2exp, mul_2exp,
      mpf_div_2exp, mpf_mul_2exp, mpf_get_d_2exp.
    rewrite Hb. mpf_norm Hk.
    rewrite (log_asserts_k k) by reflexivity. cbn [bind].
    fold (s_one k) (s_two k) (s_four k).
    rewrite (agm_while_k k Hk).
    unfold log_as_coded, log_scale, log_exponent. cbv zeta.
    unfold s_pow2_neg.
    match goal with
    | |- context [agm_iterate k fuel ?e ?a ?b] =>
        destruct (agm_iterate k fuel e a b) as [[a' b']|]
    end; cbn [agm_result bind]; [|reflexivity].
    cbn [av_b]. rewrite (operator_si_mul_k k). mpf_norm Hk.
    rewrite (log_asserts_k k) by reflexivity. cbn [bind lift].
    reflexivity. }
  split; [exact Heq|]. split; [|split].
  - intros v Hv. rewrite Heq in Hv.
    destruct (log_on_magnitudes _ _ _ _) as [m|]; [|discriminate].
    cbn [lift] in Hv. injection Hv as <-. reflexivity.
  - intros m Hm. unfold log_scale. rewrite (to_ulong_small m Hm).
    reflexivity.
  - intros m Hm. unfold log_scale. f_equal. unfold to_ulong.
    rewrite <- (Z.mod_add m 1) by (pow2; lia).
    rewrite Z.mod_small by (pow2; lia). lia.
Qed.

End LogRefinement.

(** * The cached constants *)

Section Memoization.

Context {E : Engine}.

(** What a returning call of [const_pi()] leaves: the pi cache valid
    for the default precision, which it does not change, and the
    statics of [const_log2()] untouched. *)
Lemma const_pi_leaves_a_hit (fuel : nat) (g g' : globals) (v : mpf_class) :
  const_pi fuel g = Ok (v, g') ->
  pi_cache_hit g' = true /\
  v = mpf_class_copy (pi_cached g') /\
  gmp_default_fp_limb_precision g' = gmp_default_fp_limb_precision g /\
  log2_cached g' = log2_cached g /\
  log2_calculated g' = log2_calculated g /\
  calculated_log2_precision g' = calculated_log2_precision g.
Proof.
  unfold const_pi. cbv zeta. rewrite const_pi_condition.
  destruct (pi_cache_hit g) eqn:Hhit; cbn [negb].
  - intros Heq. injection Heq as <- <-. repeat split. exact Hhit.
  - destruct (while_not_converged _ _ _) as [s| | |]; cbn [bind];
      try discriminate.
    intros Heq. injection Heq as <- <-.
    unfold pi_cache_hit, set_pi_cached, set_pi_calculated,
      set_calculated_pi_precision, mpf_get_default_prec.
    cbn [pi_calculated calculated_pi_precision gmp_default_fp_limb_precision
         pi_cached log2_cached log2_calculated calculated_log2_precision].
    rewrite Z.eqb_refl. repeat split.
Qed.

(** X14.  The constants are computed once per default precision.  When
    a call of [const_log2()] has returned, the state it leaves serves
    every later call from the cache while the default precision
    stays: [const_log2()] returns the same value again and changes
    nothing, with no iteration (any fuel, none included), and so does
    [const_pi()], whose cache the first call has filled on its way. *)
Theorem X14_constants_are_computed_once
  (fuel fuel' : nat) (g g' : globals) (v : mpf_class) :
  const_log2 fuel g = Ok (v, g') ->
  const_log2 fuel' g' = Ok (v, g') /\
  mpf_get_default_prec g' = mpf_get_default_prec g /\
  (log2_cache_hit g = false ->
   const_pi fuel' g' = Ok (mpf_class_copy (pi_cached g'), g')).
Proof.
  unfold const_log2 at 1. cbv zeta.
  set (g0 := match log2_cached g with
             | Some _ => g
             | None => set_log2_cached _ g
             end).
  assert (Hd0 : gmp_default_fp_limb_precision g0
                = gmp_default_fp_limb_precision g)
    by (unfold g0; destruct (log2_cached g); reflexivity).
  assert (Hp0 : pi_cache_hit g0 = pi_cache_hit g)
    by (unfold g0; destruct (log2_cached g); reflexivity).
  assert (Hslot0 : exists slot0, log2_cached g0 = Some slot0).
  { unfold g0. destruct (log2_cached g) eqn:Hl.
    - eexists. exact Hl.
    - eexists. reflexivity. }
  destruct Hslot0 as [slot0 Hslot0]. rewrite Hslot0.
  destruct (negb (log2_calculated g0) || _) eqn:Hcond.
  - destruct (while_not_converged _ _ _) as [s| | |]; cbn [bind];
      try discriminate.
    destruct (const_pi fuel _) as [[pi g1]| | |] eqn:Hpi; cbn [bind];
      try discriminate.
    cbn [fst snd]. intros Heq. injection Heq as <- <-.
    destruct (const_pi_leaves_a_hit _ _ _ _ Hpi)
      as (Hhit & _ & Hd1 & _ & _ & Ht1).
    unfold set_calculated_log2_precision, set_log2_cached in Hd1, Ht1.
    cbn [gmp_default_fp_limb_precision calculated_log2_precision] in Hd1, Ht1.
    unfold mpf_get_default_prec in Ht1.
    cbn [gmp_default_fp_limb_precision] in Ht1.
    split; [|split].
    + unfold const_log2. cbv zeta.
      unfold set_log2_calculated, set_log2_cached, mpf_get_default_prec.
      cbn [log2_cached log2_calculated calculated_log2_precision
           gmp_default_fp_limb_precision].
      rewrite Ht1, Hd1, Z.eqb_refl. reflexivity.
    + unfold mpf_get_default_prec, set_log2_calculated, set_log2_cached.
      cbn [gmp_default_fp_limb_precision]. rewrite Hd1, Hd0. reflexivity.
    + intros _. apply const_pi_hit.
      unfold pi_cache_hit, set_log2_calculated, set_log2_cached,
        mpf_get_default_prec in *.
      cbn [pi_calculated calculated_pi_precision
           gmp_default_fp_limb_precision] in *. exact Hhit.
  - intros Heq. injection Heq as <- <-.
    apply orb_false_iff in Hcond. destruct Hcond as [Hc1 Hc2].
    apply negb_false_iff in Hc1. rewrite Hc1 in Hc2. cbn [andb] in Hc2.
    apply negb_false_iff in Hc2.
    split; [|split].
    + unfold const_log2. cbv zeta. rewrite Hslot0, Hc1, Hc2.
      cbn [negb orb andb]. rewrite Hslot0. reflexivity.
    + unfold mpf_get_default_prec. now rewrite Hd0.
    + intros Hmiss. exfalso.
      assert (Hh : log2_cache_hit g0 = log2_cache_hit g)
        by (unfold g0; destruct (log2_cached g); reflexivity).
      unfold log2_cache_hit in Hh at 1. rewrite Hc1, Hc2, Hmiss in Hh.
      discriminate.
Qed.

End Memoization.

(** * Padding of printed integers *)

Section PrintMpzPadding.

Variable gmp_asprintf : string -> Z -> Text.std_string.

Lemma length_nonneg (s : Text.std_string) : 0 <= Text.length s.
Proof. unfold Text.length. lia. Qed.

Lemma insert_n_length (s : Text.std_string) (pos n : Z) (c : ascii) :
  0 <= n ->
  Text.length (Text.insert_n s pos n c) = Text.length s + n.
Proof.
  intros Hn. unfold Text.insert_n, Text.length.
  rewrite !length_app, repeat_length.
  pose proof (firstn_skipn (Z.to_nat pos) s) as Hs.
  apply (f_equal (@List.length ascii)) in Hs. rewrite length_app in Hs.
  lia.
Qed.

(** X15.  [print_mpz] writes the text of the number, padded to the
    stream's width by one run of fill characters, and resets the width
    to 0: the output is exactly [max width length] characters long;
    the run is at the end under [left], at the front by default, and
    under [internal] after at most three leading characters (a sign
    and a [0x] prefix); taking the run out gives the text back.  Flags
    and fill character are left as they were. *)
Theorem X15_print_mpz_padding (os : Text.ostream) (op : Z) :
  let unpadded :=
    Text.os_text
      (Text.print_mpz gmp_asprintf
         (Text.Ostream (Text.os_flags os) 0 (Text.os_fill os) []) op) in
  let out := Text.print_mpz gmp_asprintf os op in
  let run :=
    repeat (Text.os_fill os)
           (Z.to_nat (Text.os_width os - Text.length unpadded)) in
  Text.os_width out = 0 /\
  Text.os_flags out = Text.os_flags os /\
  Text.os_fill out = Text.os_fill os /\
  exists pos : nat,
    Text.os_text out
    = Text.os_text os ++ firstn pos unpadded ++ run ++ skipn pos unpadded /\
    (pos <= List.length unpadded)%nat /\
    Text.length (firstn pos unpadded ++ run ++ skipn pos unpadded)
    = Z.max (Text.os_width os) (Text.length unpadded) /\
    (Text.left (Text.os_flags os) = true -> pos = List.length unpadded) /\
    (Text.left (Text.os_flags os) = false ->
     Text.internal (Text.os_flags os) = true -> (pos <= 3)%nat) /\
    (Text.left (Text.os_flags os) = false ->
     Text.internal (Text.os_flags os) = false -> pos = 0%nat).
Proof.
  unfold Text.print_mpz. cbv zeta. cbn [Text.os_flags Text.os_width
    Text.os_fill Text.os_text app].
  match goal with
  | |- context [Text.length ?t <? 0] => set (s := t)
  end.
  pose proof (length_nonneg s) as Hlen.
  destruct (Z.ltb_spec (Text.length s) 0) as [Hneg|_]; [lia|].
  split; [reflexivity|]. split; [reflexivity|]. split; [reflexivity|].
  set (w := Text.os_width os) in *. set (c := Text.os_fill os) in *.
  assert (Hcount : forall pos : nat,
            Text.length (firstn pos s
                          ++ repeat c (Z.to_nat (w - Text.length s))
                          ++ skipn pos s)
            = Z.max w (Text.length s)).
  { intros pos. unfold Text.length.
    rewrite !length_app, repeat_length.
    pose proof (firstn_skipn pos s) as Hs.
    apply (f_equal (@List.length ascii)) in Hs. rewrite length_app in Hs.
    unfold Text.length in Hlen. lia. }
  destruct (Z.ltb_spec (Text.length s) w) as [Hpad|Hnopad].
  - destruct (Text.left (Text.os_flags os)) eqn:Hleft.
    + exists (List.length s). rewrite firstn_all, skipn_all, app_nil_r.
      unfold Text.append_n.
      repeat split; try reflexivity; try discriminate; try lia.
      rewrite <- (Hcount (List.length s)).
      now rewrite firstn_all, skipn_all, app_nil_r.
    + destruct (Text.internal (Text.os_flags os)) eqn:Hint.
      * match goal with
        | |- context [Text.insert_n s ?p _ _] => set (pos := p)
        end.
        assert (Hpos : 0 <= pos <= 3 /\ pos <= Text.length s).
        { unfold pos.
          destruct (Ascii.eqb (Text.at_ s 0) "-"
                    || Ascii.eqb (Text.at_ s 0) "+") eqn:Hsign.
          - assert (1 <= Text.length s).
            { unfold Text.length, Text.at_ in *. destruct s; [|cbn; lia].
              cbn in Hsign. discriminate. }
            match goal with
            | |- context [if ?b then _ else _] => destruct b eqn:Hb
            end; [|lia].
            apply andb_true_iff in Hb. destruct Hb as [Hb _].
            apply Z.gtb_lt in Hb. lia.
          - match goal with
            | |- context [if ?b then _ else _] => destruct b eqn:Hb
            end; [|lia].
            apply andb_true_iff in Hb. destruct Hb as [Hb _].
            apply Z.gtb_lt in Hb. lia. }
        exists (Z.to_nat pos). unfold Text.insert_n.
        unfold Text.length in Hpos.
        repeat split; try reflexivity; try discriminate; try lia.
        apply Hcount.
      * exists 0%nat. unfold Text.insert_n. cbn [Z.to_nat firstn skipn app].
        repeat split; try reflexivity; try discriminate; try lia.
        apply (Hcount 0%nat).
  - assert (Hk : Z.to_nat (w - Text.length s) = 0%nat) by lia.
    exists (if Text.left (Text.os_flags os) then List.length s else 0%nat).
    rewrite Hk in *. cbn [repeat app] in *.
    rewrite firstn_skipn.
    repeat split; try reflexivity.
    + destruct (Text.left _); lia.
    + rewrite <- (Hcount 0%nat). cbn [firstn skipn app]. reflexivity.
    + intros ->. reflexivity.
    + intros ->. lia.
    + intros -> _. reflexivity.
Qed.

End PrintMpzPadding.

(** * The default decimal notation of [mpf_class] *)

Section ReadBack.

Import Text PrintMpf.

Lemma digit_is_no_point (c : ascii) (d : Z) :
  digit_value c = Some d -> Ascii.eqb c "." = false.
Proof.
  intros Hd. destruct (Ascii.eqb_spec c "."%char) as [->|]; [|reflexivity].
  discriminate Hd.
Qed.

Lemma read_digits_app (s1 s2 : std_string) :
  forall acc,
  read_digits acc (s1 ++ s2)
  = match read_digits acc s1 with
    | Some a => read_digits a s2
    | None => None
    end.
Proof.
  induction s1 as [|c s1 IH]; intros acc; cbn [app read_digits].
  - reflexivity.
  - destruct (digit_value c); [apply IH | reflexivity].
Qed.

Lemma read_digits_zeros (n : nat) :
  read_digits 0 (repeat "0"%char n) = Some 0.
Proof. induction n as [|n IH]; [reflexivity | exact IH]. Qed.

Lemma read_fixed_from_digits (s : std_string) :
  forall acc a, read_digits acc s = Some a ->
  read_fixed_from acc s = Some (a, 0).
Proof.
  induction s as [|c s IH]; intros acc a; cbn [read_digits read_fixed_from].
  - intros [= ->]. reflexivity.
  - destruct (digit_value c) as [d|] eqn:Hd; [|discriminate].
    rewrite (digit_is_no_point c d Hd). apply IH.
Qed.

Lemma read_fixed_from_point (s1 s2 : std_string) :
  forall acc a, read_digits acc s1 = Some a ->
  read_fixed_from acc (s1 ++ "."%char :: s2)
  = option_map (fun n => (n, length s2)) (read_digits a s2).
Proof.
  induction s1 as [|c s1 IH]; intros acc a;
    cbn [app read_digits read_fixed_from].
  - intros [= ->]. reflexivity.
  - destruct (digit_value c) as [d|] eqn:Hd; [|discriminate].
    rewrite (digit_is_no_point c d Hd). apply IH.
Qed.

Lemma read_digits_last (s : std_string) :
  forall acc a, s <> [] -> read_digits acc s = Some a ->
  Ascii.eqb (last s Ascii.zero) "." = false.
Proof.
  induction s as [|c s IH]; intros acc a Hne; [contradiction|].
  cbn [read_digits]. destruct (digit_value c) as [d|] eqn:Hd; [|discriminate].
  destruct s as [|c' s].
  - intros _. cbn [last]. exact (digit_is_no_point c d Hd).
  - intros Hr. change (last (c :: c' :: s) Ascii.zero)
      with (last (c' :: s) Ascii.zero).
    apply (IH _ _ ltac:(discriminate) Hr).
Qed.

Lemma last_app_nonempty (s1 s2 : std_string) :
  s2 <> [] -> last (s1 ++ s2) Ascii.zero = last s2 Ascii.zero.
Proof.
  intros Hne. induction s1 as [|c s1 IH]; [reflexivity|].
  cbn [app]. destruct (s1 ++ s2) eqn:Happ.
  - destruct s1, s2; try discriminate. contradiction.
  - cbn [last]. exact IH.
Qed.

(** The last steps of [to_dec_string_default] on a text that ends in
    a digit, with no width. *)
Lemma no_width_no_trailing_point
  (sign body : std_string) (flags : fmtflags) (fill : ascii) :
  body <> [] -> Ascii.eqb (last body Ascii.zero) "." = false ->
  (let formatted_dec := sign ++ body in
   let formatted_dec :=
     if to_ulong 0 >? length formatted_dec
     then
       if left flags
       then append_n formatted_dec (to_ulong 0 - length formatted_dec) fill
       else if internal flags
       then
         insert_n formatted_dec
           (if Ascii.eqb (at_ formatted_dec 0) "-"
               || Ascii.eqb (at_ formatted_dec 0) "+"
            then 1 else 0)
           (to_ulong 0 - length formatted_dec) fill
       else insert_n formatted_dec 0 (to_ulong 0 - length formatted_dec) fill
     else formatted_dec in
   if Ascii.eqb (back formatted_dec) "."
   then firstn (List.length formatted_dec - 1) formatted_dec
   else formatted_dec) = sign ++ body.
Proof.
  intros Hb Hl. cbv zeta.
  change (to_ulong 0) with 0.
  assert (Hnn : 0 <= length (sign ++ body)) by (unfold length; lia).
  destruct (Z.gtb_spec 0 (length (sign ++ body))); [lia|].
  unfold back. rewrite (last_app_nonempty _ body Hb), Hl. reflexivity.
Qed.

End ReadBack.

Section DecimalNotation.

Import Text PrintMpf.

Context {E : Engine}.

Variable mpf_get_str : Z -> Z -> mag -> std_string * Z.
Variable mpf_sgn : mag -> Z.

(** X16.  With no width and no [showpoint], a non-zero value whose
    digits GMP returns as [digits] with exponent [exp] (the value is
    [0.digits * 10^exp], that is [N / 10^(n - exp)] for the number [N]
    of the [n] digits) is written as the sign followed by a text in
    fixed notation.  For [0 < exp <= n] the text reads back as
    [N / 10^(n - exp)], the value.  For [exp <= 0] the text is [0.]
    followed by [1 - exp] zeros and the digits and reads back as
    [N / 10^(n - exp + 1)]: one decimal place below the value. *)
Theorem X16_default_decimal_notation
  (value : mag) (flags : fmtflags) (prec : Z) (fill : ascii)
  (digits : std_string) (exp N : Z) :
  mpf_get_str 10 (to_ulong (if prec =? 0 then 6 else prec)) value
  = ((if mpf_sgn value <? 0 then lit "-" else []) ++ digits, exp) ->
  digits <> [] ->
  read_digits 0 digits = Some N ->
  showpoint flags = false ->
  - 2 ^ 62 < exp <= length digits ->
  length digits < 2 ^ 62 ->
  exists body,
    to_dec_string_default mpf_get_str mpf_sgn value flags 0 prec fill
    = (if mpf_sgn value <? 0 then lit "-" else []) ++ body /\
    (0 < exp ->
     read_fixed body = Some (N, length digits - exp)) /\
    (exp <= 0 ->
     body = lit "0." ++ repeat "0"%char (Z.to_nat (1 - exp)) ++ digits /\
     read_fixed body = Some (N, length digits - exp + 1)).
Proof.
  intros Hget Hne HN Hsp Hexp Hmax.
  change (2 ^ 62) with 4611686018427387904 in Hexp, Hmax.
  assert (Hlen : 0 < length digits).
  { unfold length. destruct digits; [contradiction | cbn; lia]. }
  assert (Hlast : Ascii.eqb (last digits Ascii.zero) "." = false)
    by (apply (read_digits_last digits 0 N Hne HN)).
  pose proof (firstn_skipn (Z.to_nat exp) digits) as Hsplit.
  assert (Hfrac : length (skipn (Z.to_nat exp) digits)
                  = length digits - Z.max 0 exp)
    by (unfold length in *; rewrite length_skipn; lia).
  (* the text after the sign, and what it reads back as *)
  set (body :=
    if exp <=? 0
    then lit "0." ++ repeat "0"%char (Z.to_nat (1 - exp)) ++ digits
    else if exp <? length digits
    then firstn (Z.to_nat exp) digits ++ lit "." ++ skipn (Z.to_nat exp) digits
    else digits).
  assert (Hbody : body <> [] /\ Ascii.eqb (last body Ascii.zero) "." = false).
  { unfold body. destruct (exp <=? 0); [|destruct (Z.ltb_spec exp (length digits))].
    - split; [cbn; discriminate|].
      rewrite app_assoc, (last_app_nonempty _ digits Hne). exact Hlast.
    - assert (Hskip : skipn (Z.to_nat exp) digits <> []).
      { intros Hnil. rewrite Hnil in Hfrac. cbn in Hfrac. lia. }
      split.
      + intros Hnil. apply app_eq_nil in Hnil. destruct Hnil as [_ Hnil].
        discriminate.
      + rewrite app_assoc, (last_app_nonempty _ _ Hskip).
        rewrite <- (last_app_nonempty (firstn (Z.to_nat exp) digits) _ Hskip).
        rewrite Hsplit. exact Hlast.
    - split; assumption. }
  destruct Hbody as [Hbne Hblast].
  exists body. split; [|split].
  - unfold to_dec_string_default. cbv zeta. rewrite Hget, Hsp.
    cbv beta iota. cbn [andb negb].
    assert (Hcount : to_ulong (to_long (- exp + 1)) = 1 - exp \/ 0 < exp).
    { destruct (Z_lt_ge_dec 0 exp); [now right|left].
      rewrite to_long_small by (pow2; lia).
      rewrite to_ulong_small by (pow2; lia). lia. }
    assert (Hexp64 : to_ulong exp = exp \/ exp <= 0).
    { destruct (Z_lt_ge_dec 0 exp); [left|right; lia].
      apply to_ulong_small. pow2. lia. }
    destruct (mpf_sgn value <? 0); cbv iota;
      [change (substr_from (lit "-" ++ digits) 1) with digits
      |change ([] ++ digits) with digits];
      rewrite ?(to_long_small (length digits)) by (pow2; lia).
    + etransitivity;
        [|exact (no_width_no_trailing_point (lit "-") body flags fill
                   Hbne Hblast)].
      cbv zeta. unfold body.
      destruct (Z.leb_spec exp 0) as [Hle|Hgt].
      * destruct Hcount as [-> |]; [|lia]. unfold append_n.
        rewrite <- app_assoc. reflexivity.
      * destruct Hexp64 as [-> |]; [|lia].
        destruct (Z.gtb_spec exp (length digits)); [lia|].
        unfold substr, substr_from. cbn [Z.to_nat skipn].
        destruct (Z.ltb_spec exp (length digits)); [reflexivity|].
        rewrite firstn_all2 by (unfold length in *; lia). reflexivity.
    + etransitivity;
        [|exact (no_width_no_trailing_point [] body flags fill Hbne Hblast)].
      cbv zeta. unfold body. cbn [app].
      destruct (Z.leb_spec exp 0) as [Hle|Hgt].
      * destruct Hcount as [-> |]; [|lia]. unfold append_n.
        rewrite <- app_assoc. reflexivity.
      * destruct Hexp64 as [-> |]; [|lia].
        destruct (Z.gtb_spec exp (length digits)); [lia|].
        unfold substr, substr_from. cbn [Z.to_nat skipn].
        destruct (Z.ltb_spec exp (length digits)); [reflexivity|].
        rewrite firstn_all2 by (unfold length in *; lia). reflexivity.
  - intros Hpos. unfold body, read_fixed.
    destruct (Z.leb_spec exp 0); [lia|].
    assert (Hparts : exists a,
              read_digits 0 (firstn (Z.to_nat exp) digits) = Some a /\
              read_digits a (skipn (Z.to_nat exp) digits) = Some N).
    { rewrite <- Hsplit in HN. rewrite read_digits_app in HN.
      destruct (read_digits 0 (firstn (Z.to_nat exp) digits)) as [a|];
        [|discriminate].
      exists a. split; [reflexivity | exact HN]. }
    destruct Hparts as (a & Ha & Hrest).
    destruct (Z.ltb_spec exp (length digits)).
    + change (lit "." ++ skipn (Z.to_nat exp) digits)
        with ("."%char :: skipn (Z.to_nat exp) digits).
      rewrite (read_fixed_from_point _ _ 0 a Ha), Hrest. cbn [option_map].
      rewrite Hfrac. f_equal. f_equal. lia.
    + rewrite (read_fixed_from_digits digits 0 N HN).
      f_equal. f_equal. lia.
  - intros Hle. unfold body, read_fixed.
    destruct (Z.leb_spec exp 0); [|lia]. split; [reflexivity|].
    change (lit "0." ++ repeat "0"%char (Z.to_nat (1 - exp)) ++ digits)
      with (lit "0" ++ "."%char
              :: (repeat "0"%char (Z.to_nat (1 - exp)) ++ digits)).
    rewrite (read_fixed_from_point (lit "0") _ 0 0 eq_refl).
    rewrite read_digits_app, read_digits_zeros, HN. cbn [option_map].
    f_equal. f_equal. unfold length.
    rewrite length_app, repeat_length. lia.
Qed.

End DecimalNotation.

(** * [mpf_class] with [mpz_class] operands *)

Section MpzOperands.

Context {E : Engine}.

Variable E_set_z : Z -> Z -> mag.

(** X17.  With an [mpz_class] operand every operator returns a result
    of the precision of the [mpf_class] operand, on either side and in
    the compound forms.  The integer is converted at the default
    precision when it is the right operand or the left operand of a
    sum, and at the precision of the [mpf_class] operand when it is
    the left operand of a difference, a product or a quotient. *)
Theorem X17_mpz_operands (default_limbs : Z) (a : mpf_class) (z : Z) :
  valid_limbs (mp_prec a) ->
  (get_prec (operator_add_z E_set_z default_limbs a z) = get_prec a /\
   get_prec (operator_z_add E_set_z default_limbs z a) = get_prec a /\
   get_prec (operator_sub_z E_set_z default_limbs a z) = get_prec a /\
   get_prec (operator_z_sub E_set_z z a) = get_prec a /\
   get_prec (operator_mul_z E_set_z default_limbs a z) = get_prec a /\
   get_prec (operator_z_mul E_set_z z a) = get_prec a /\
   get_prec (operator_div_z E_set_z default_limbs a z) = get_prec a /\
   get_prec (operator_z_div E_set_z z a) = get_prec a) /\
  (get_prec (operator_add_assign_z E_set_z default_limbs a z) = get_prec a /\
   get_prec (operator_sub_assign_z E_set_z default_limbs a z) = get_prec a /\
   get_prec (operator_mul_assign_z E_set_z default_limbs a z) = get_prec a /\
   get_prec (operator_div_assign_z E_set_z default_limbs a z) = get_prec a) /\
  mp_val (operator_sub_z E_set_z default_limbs a z)
  = E_sub (mp_prec a) (E_set (mp_prec a) (mp_val a))
          (E_set_z default_limbs z) /\
  mp_val (operator_z_sub E_set_z z a)
  = E_sub (mp_prec a) (E_set_z (mp_prec a) z)
          (E_set (mp_prec a) (mp_val a)).
Proof.
  intros Ha.
  unfold operator_add_z, operator_z_add, operator_sub_z, operator_z_sub,
    operator_mul_z, operator_z_mul, operator_div_z, operator_z_div,
    operator_add_assign_z, operator_sub_assign_z, operator_mul_assign_z,
    operator_div_assign_z, operator_assign_z, mpf_class_z, mpf_class_copy.
  cbv zeta. rewrite (init2_get_prec a Ha).
  unfold operator_add_assign, operator_sub_assign, operator_mul_assign,
    operator_div_assign, mpf_set_z, mpf_init, mpf_set, mpf_add, mpf_sub,
    mpf_mul, mpf_div, get_prec, mpf_get_prec.
  cbn [mp_prec mp_val]. repeat split.
Qed.

End MpzOperands.

(** * [const_log2] with a precision argument *)

Section ConstLog2WithPrecision.

Context {E : Engine} {L : EngineLaws E}.

(** X18.  [const_log2(p)], for a precision [p] that GMP can report,
    fails none of its assertions and is the AGM computation of log 2 at
    [p] bits: from [a = 1] and [b = 2^-(p/2 - 2)] it iterates
    [a' = (a + b) / 2], [b' = sqrt (a * b)] until [|a - b| < 2^-p] and
    returns [pi / (p * a)], with pi from [const_pi(p)]; a value it
    returns has precision [p]. *)
Theorem X18_const_log2_with_precision (fuel : nat) (p : Z) :
  limb_aligned p ->
  const_log2_prec fuel p
  = lift (GMPF_BITS_TO_PREC p) (spec_log2 (GMPF_BITS_TO_PREC p) fuel p) /\
  (forall v, const_log2_prec fuel p = Ok v -> get_prec v = p).
Proof.
  intros Hp. rewrite (const_log2_prec_refines fuel p Hp). split.
  - reflexivity.
  - destruct (spec_log2 _ fuel p) as [m|]; cbn [lift]; [|discriminate].
    intros v [= <-]. apply (bits_prec_bits p Hp).
Qed.

End ConstLog2WithPrecision.

Section ConstPiWithPrecision.

Context {E : Engine} {L : EngineLaws E}.

(** X21.  [const_pi(p)], for a precision [p] that GMP can report, fails
    none of its assertions and is the Gauss-Legendre iteration at [p]
    bits: from [a = 1], [b = 1 / sqrt 2], [t = 1/4], [p = 1] each round
    takes [a' = (a + b) / 2], [b' = sqrt (a * b)],
    [t' = t - p * (a - a')^2], [p' = 2 * p] and the estimate
    [(a' + b')^2 / (4 * t')]; it stops when the estimate is closer than
    [2^-p] to the one before and returns the last estimate; a value it
    returns has precision [p]. *)
Theorem X21_const_pi_with_precision (fuel : nat) (p : Z) :
  limb_aligned p ->
  const_pi_prec fuel p
  = lift (GMPF_BITS_TO_PREC p)
         (gauss_legendre_pi (GMPF_BITS_TO_PREC p) fuel p) /\
  (forall v, const_pi_prec fuel p = Ok v -> get_prec v = p).
Proof.
  intros Hp. rewrite (const_pi_prec_refines fuel p Hp). split.
  - reflexivity.
  - destruct (gauss_legendre_pi _ fuel p) as [m|]; cbn [lift];
      [|discriminate].
    intros v [= <-]. apply (bits_prec_bits p Hp).
Qed.

End ConstPiWithPrecision.

(** * Assigning a temporary, and the unary functions *)

Section Temporaries.

Context {E : Engine}.

(** X19.  Assigning the result of an expression, [a = b + c], is a move
    assignment.  In the complete header it keeps the precision of [a]
    and rounds the sum into it; in the older header gmpxx_mkII.h it
    swaps, so [a] takes over the precision of the sum, the larger of
    the precisions of [b] and [c], and its unrounded value. *)
Theorem X19_assigning_a_temporary (a b c : mpf_class) :
  valid_limbs (mp_prec a) -> valid_limbs (mp_prec b) ->
  valid_limbs (mp_prec c) ->
  (get_prec (move_assign a (b + c)%mpf) = get_prec a /\
   mp_val (move_assign a (b + c)%mpf)
   = E_set (mp_prec a)
       (E_add (Z.max (mp_prec b) (mp_prec c)) (mp_val b) (mp_val c))) /\
  (get_prec (Legacy.move_assign a (b + c)%mpf)
   = Z.max (get_prec b) (get_prec c) /\
   mp_val (Legacy.move_assign a (b + c)%mpf)
   = E_add (Z.max (mp_prec b) (mp_prec c)) (mp_val b) (mp_val c)).
Proof.
  intros Ha Hb Hc.
  unfold move_assign, operator_assign_move, Legacy.move_assign.
  cbn [negb]. cbv zeta. rewrite (init2_get_prec a Ha).
  unfold operator_add. cbv zeta. rewrite (init2_largerprec b c Hb Hc).
  split; [split; reflexivity|]. split; [|reflexivity].
  unfold mpf_add. cbn [mp_prec]. unfold get_prec at 1, mpf_get_prec.
  cbn [mp_prec]. exact (get_prec_max b c Hb Hc).
Qed.

(** X20.  [sqrt], [abs], [floor] and the unary minus return a result
    at the precision of their operand, not at the default precision,
    computed from the operand itself; so a chain of them, and a root
    of a product, stay at the precision of the operands. *)
Theorem X20_unary_functions_keep_the_precision (a : mpf_class) :
  valid_limbs (mp_prec a) ->
  (get_prec (sqrt a) = get_prec a /\
   get_prec (abs a) = get_prec a /\
   get_prec (floor a) = get_prec a /\
   get_prec (- a)%mpf = get_prec a) /\
  (mp_val (sqrt a) = E_sqrt (mp_prec a) (mp_val a) /\
   mp_val (abs a) = E_abs (mp_prec a) (mp_val a) /\
   mp_val (floor a) = E_floor (mp_prec a) (mp_val a) /\
   mp_val (- a)%mpf = E_neg (mp_prec a) (mp_val a)) /\
  get_prec (sqrt (abs (- a)%mpf)) = get_prec a /\
  (forall b : mpf_class,
     valid_limbs (mp_prec b) ->
     get_prec (sqrt (a * b)%mpf) = Z.max (get_prec a) (get_prec b)).
Proof.
  intros Ha.
  unfold sqrt, abs, floor, operator_neg, mpf_class_copy, mpf_class_of_mpf_t.
  cbv zeta. rewrite (init2_get_prec a Ha).
  split; [repeat split|]. split; [repeat split|]. split.
  - unfold mpf_set, mpf_neg, mpf_abs, mpf_sqrt. cbn [mp_prec mp_val].
    rewrite (init2_get_prec (Mpf (mp_prec a) _) Ha). cbn [mp_prec].
    rewrite (init2_get_prec (Mpf (mp_prec a) _) Ha). reflexivity.
  - intros b Hb. unfold operator_mul. cbv zeta.
    rewrite (init2_largerprec a b Ha Hb).
    unfold mpf_mul. cbn [mp_prec mp_val].
    rewrite (init2_get_prec (Mpf (Z.max (mp_prec a) (mp_prec b)) _)
               (valid_max _ _ Ha Hb)).
    unfold mpf_set, mpf_sqrt. cbn [mp_prec].
    unfold get_prec at 1, mpf_get_prec. cbn [mp_prec].
    exact (get_prec_max a b Ha Hb).
Qed.

End Temporaries.

(** * Instances of the theorems above *)

(** [a += b] and [a = a + b] with a 128-bit [b] leave a 64-bit [a] at
    64 bits. *)
Lemma X1_witness :
  (valid_limbs (mp_prec ref_one_64) /\
   valid_limbs (mp_prec ref_quarter_128)) /\
  get_prec ref_one_64 = 64 /\ get_prec ref_quarter_128 = 128 /\
  get_prec (operator_add_assign ref_one_64 ref_quarter_128)
  = get_prec ref_one_64 /\
  get_prec (move_assign ref_one_64 (ref_one_64 + ref_quarter_128)%mpf)
  = get_prec ref_one_64.
Proof.
  assert (Ha : valid_limbs (mp_prec ref_one_64)) by evaluated.
  assert (Hb : valid_limbs (mp_prec ref_quarter_128)) by evaluated.
  split; [split; assumption|]. split; [reflexivity|]. split; [reflexivity|].
  destruct (X1_compound_assignment_keeps_the_left_precision
              ref_one_64 ref_quarter_128 Ha Hb) as [[H1 _] [H2 _]].
  split; assumption.
Defined.

(** At a default precision of 512 bits, [a + 3] has the 128 bits of [a]
    and [a - 3] has 512 bits. *)
Lemma X2_witness :
  valid_limbs (mp_prec ref_quarter_128) /\
  get_prec ref_quarter_128 = 128 /\ GMPF_PREC_TO_BITS 9 = 512 /\
  get_prec (operator_add_T 9 ref_quarter_128 (Signed 3))
  = get_prec ref_quarter_128 /\
  get_prec (operator_sub_T 9 ref_quarter_128 (Signed 3))
  = GMPF_PREC_TO_BITS 9.
Proof.
  assert (Ha : valid_limbs (mp_prec ref_quarter_128)) by evaluated.
  split; [assumption|]. split; [reflexivity|]. split; [reflexivity|].
  destruct (X2_scalar_operands 9 ref_quarter_128 (Signed 3) Ha)
    as [[H1 _] [[H2 _] _]].
  split; assumption.
Defined.

(** [hypot] of a 64-bit and a 128-bit operand has 128 bits. *)
Lemma X3_witness :
  (valid_limbs (mp_prec ref_one_64) /\
   valid_limbs (mp_prec ref_quarter_128)) /\
  Z.max (get_prec ref_one_64) (get_prec ref_quarter_128) = 128 /\
  get_prec (hypot 9 ref_one_64 ref_quarter_128)
  = Z.max (get_prec ref_one_64) (get_prec ref_quarter_128).
Proof.
  assert (Ha : valid_limbs (mp_prec ref_one_64)) by evaluated.
  assert (Hb : valid_limbs (mp_prec ref_quarter_128)) by evaluated.
  split; [split; assumption|]. split; [reflexivity|].
  exact (proj1 (X3_hypot_precision 9 ref_one_64 ref_quarter_128 Ha Hb)).
Defined.

(** A request of 100 bits is granted 128 bits. *)
Lemma X4_witness :
  0 <= 100 <= 2 ^ 64 - 128 /\
  granted_precision 100 = 128 /\
  get_prec (mpf_class_d_prec (E := Ref.engine) d_1_0 100)
  = granted_precision 100.
Proof.
  assert (Hp : 0 <= 100 <= 2 ^ 64 - 128) by evaluated.
  split; [assumption|]. split; [reflexivity|].
  exact (proj1 (proj1 (X4_granted_precision 100 d_1_0 1 ref_one_64
                         ref_globals_64 Hp))).
Defined.

(** The 64-bit one is unchanged by a copy and by [set_prec] at its own
    precision. *)
Lemma X5_witness :
  (valid_limbs (mp_prec ref_one_64) /\ fits ref_one_64 /\
   valid_limbs (gmp_default_fp_limb_precision ref_globals_64)) /\
  mpf_class_copy ref_one_64 = ref_one_64 /\
  set_prec ref_one_64 (get_prec ref_one_64) = ref_one_64.
Proof.
  assert (Hx : valid_limbs (mp_prec ref_one_64)) by evaluated.
  assert (Hf : fits ref_one_64) by evaluated.
  assert (Hg : valid_limbs (gmp_default_fp_limb_precision ref_globals_64))
    by evaluated.
  split; [split; [|split]; assumption|].
  destruct (X5_precision_round_trips ref_one_64 ref_globals_64 Hx Hf Hg)
    as (H1 & _ & H3 & _).
  split; assumption.
Defined.

(** On [int]: [10 + (-3)] and [(-3) - 10]. *)
Lemma X6_witness :
  (8 <= 32 <= 64 /\ Mpz.signed_range 32 (-3) /\
   Mpz.signed_range (Z.max 32 32) (- -3)) /\
  Mpz.operator_add_si 32 10 (-3) = 10 + -3 /\
  Mpz.operator_si_sub 32 (-3) 10 = -3 - 10.
Proof.
  assert (Hw : 8 <= 32 <= 64) by evaluated.
  assert (Hx : Mpz.signed_range 32 (-3)) by evaluated.
  assert (Hn : Mpz.signed_range (Z.max 32 32) (- -3)) by evaluated.
  split; [split; [|split]; assumption|].
  destruct (X6_mpz_signed_sum_and_difference 32 10 (-3) Hw Hx Hn)
    as (_ & H2 & _ & _ & _ & H6).
  split; assumption.
Defined.

(** Division by [LONG_MIN], the remainder of [-7] by [2], and division
    by zero. *)
Lemma X7_witness :
  (8 <= 64 <= 64 /\ Mpz.signed_range 64 (- 2 ^ 63)) /\
  Mpz.operator_div_si 7 (- 2 ^ 63) = Value (Z.quot 7 (- 2 ^ 63)) /\
  Mpz.operator_mod_si (-7) 2 = Value (-1) /\
  Mpz.operator_div_si 7 0 = Division_by_zero.
Proof.
  assert (Hw : 8 <= 64 <= 64) by evaluated.
  assert (Hx : Mpz.signed_range 64 (- 2 ^ 63)) by evaluated.
  assert (H2 : Mpz.signed_range 64 2) by evaluated.
  assert (H0 : Mpz.signed_range 64 0) by evaluated.
  split; [split; assumption|].
  destruct (X7_mpz_signed_division 64 7 (- 2 ^ 63) Hw Hx) as [Hmin _].
  destruct (X7_mpz_signed_division 64 (-7) 2 Hw H2) as [Htwo _].
  destruct (X7_mpz_signed_division 64 7 0 Hw H0) as [_ Hzero].
  split; [|split].
  - apply Hmin. discriminate.
  - apply Htwo. discriminate.
  - apply Hzero. reflexivity.
Defined.

(** [-3 >> 1] is [-2] and [-3 >>= 1] gives [-1]. *)
Lemma X8_witness :
  0 <= 1 < 2 ^ 64 /\
  Mpz.operator_shr (-3) 1 = -2 /\
  Mpz.operator_shr_assign (-3) 1 = -1 /\
  Mpz.operator_shr (-3) 1 = Mpz.operator_shr_assign (-3) 1 - 1.
Proof.
  assert (Hn : 0 <= 1 < 2 ^ 64) by evaluated.
  split; [assumption|].
  destruct (X8_mpz_right_shifts_differ (-3) 1 Hn)
    as (H1 & H2 & _ & H4 & _).
  split; [exact H1|]. split; [exact H2|].
  apply H4; [reflexivity | discriminate].
Defined.

(** [mpq_class(1L, -2L)] holds the numerator [1] and the denominator
    [2^64 - 2]. *)
Lemma X12_witness :
  (Mpz.signed_range 64 1 /\ Mpz.signed_range 64 (-2) /\ 1 <> 0) /\
  Mpq.num (Mpq.mpq_class_si_si 1 (-2)) = 1 /\
  Mpq.den (Mpq.mpq_class_si_si 1 (-2)) = 2 ^ 64 - 2.
Proof.
  assert (H1 : Mpz.signed_range 64 1) by evaluated.
  assert (H2 : Mpz.signed_range 64 (-2)) by evaluated.
  assert (Hnz : 1 <> 0) by discriminate.
  split; [split; [|split]; assumption|].
  destruct (X12_mpq_from_two_machine_integers 1 (-2) H1 H2 Hnz)
    as (Hn & Hd & _).
  split; [exact Hn | exact Hd].
Defined.

(** [log(4)] at 64 bits on the reference engine, where [m] is
    positive; and for [x = 2^40] at 64 bits [m] is [-7] and the factor
    is [2^(2^64 - 7)]. *)
Lemma X13_witness :
  valid_limbs (mp_prec ref_four_64) /\
  (exists v, log_on_magnitudes 2 30 64 (mp_val ref_four_64) = Some v) /\
  log 30 (mp_prec ref_four_64) ref_four_64
  = lift (mp_prec ref_four_64)
      (log_on_magnitudes (mp_prec ref_four_64) 30 (get_prec ref_four_64)
         (mp_val ref_four_64)) /\
  log_exponent 2 64 (mp_val ref_four_64) = 31 /\
  log_exponent 2 64
    (mp_val (mpf_class_d_prec (E := Ref.engine) (Dyadic 1 40) 64)) = -7 /\
  log_scale (E := Ref.engine) 2 (-7) = E_mul_2exp 2 (s_one 2) (2 ^ 64 - 7).
Proof.
  assert (Hx : valid_limbs (mp_prec ref_four_64)) by evaluated.
  destruct (X13_log_is_the_agm_computation (L := ref_laws) 30 ref_four_64 Hx)
    as (Heq & _ & _ & Hneg).
  split; [assumption|]. split; [|split; [|split; [|split]]].
  - eexists. vm_compute. reflexivity.
  - exact Heq.
  - vm_compute. reflexivity.
  - vm_compute. reflexivity.
  - assert (Hm : - 2 ^ 64 <= -7 < 0)
      by (vm_compute; split; [discriminate | reflexivity]).
    exact (Hneg (-7) Hm).
Defined.

(** After [const_log2()] at a default precision of 64 bits, both
    constants are served from their slots. *)
Lemma X14_witness :
  exists v g',
    const_log2 30 ref_globals_64 = Ok (v, g') /\
    const_log2 0 g' = Ok (v, g') /\
    const_pi 0 g' = Ok (mpf_class_copy (pi_cached g'), g').
Proof.
  assert (Hret : value_of_call (const_log2 30 ref_globals_64) <> None)
    by (vm_compute; discriminate).
  destruct (const_log2 30 ref_globals_64) as [[v g']| | |] eqn:Hcall;
    try (exfalso; apply Hret; reflexivity).
  exists v, g'. split; [reflexivity|].
  destruct (X14_constants_are_computed_once 30 0 ref_globals_64 g' v Hcall)
    as (H1 & _ & H3).
  split; [exact H1 | apply H3; reflexivity].
Defined.

(** Digits [5] with exponent [0] (the value 0.5) are written as [0.05]. *)
Lemma X16_witness :
  exists body,
    PrintMpf.to_dec_string_default (E := Ref.engine)
      (fun _ _ _ => (Text.lit "5", 0)) (fun _ => 1) (1, -1)
      (Text.Fmtflags false false false false false false false false)
      0 0 " "
    = body /\
    body = Text.lit "0.05" /\
    PrintMpf.read_fixed body = Some (5, 2).
Proof.
  destruct (X16_default_decimal_notation (E := Ref.engine)
              (fun _ _ _ => (Text.lit "5", 0)) (fun _ => 1) (1, -1)
              (Text.Fmtflags false false false false false false false false)
              0 " "%char (Text.lit "5") 0 5)
    as (body & Hout & _ & Hlow);
    try reflexivity; try discriminate; try evaluated.
  exists body. destruct (Hlow ltac:(discriminate)) as [Hbody Hread].
  split; [exact Hout|]. split; [exact Hbody | exact Hread].
Defined.

(** With an [mpz_class] operand, [a - z] and [z - a] have the 128 bits
    of [a]. *)
Lemma X17_witness :
  valid_limbs (mp_prec ref_quarter_128) /\
  get_prec (operator_sub_z (E := Ref.engine) E_set_si 9 ref_quarter_128 3)
  = get_prec ref_quarter_128 /\
  get_prec (operator_z_sub (E := Ref.engine) E_set_si 3 ref_quarter_128)
  = get_prec ref_quarter_128.
Proof.
  assert (Ha : valid_limbs (mp_prec ref_quarter_128)) by evaluated.
  split; [assumption|].
  destruct (X17_mpz_operands (E := Ref.engine) E_set_si 9 ref_quarter_128 3 Ha)
    as [(_ & _ & H3 & H4 & _) _].
  split; assumption.
Defined.

(** [const_log2(64)] on the reference engine. *)
Lemma X18_witness :
  limb_aligned 64 /\
  (exists v, spec_log2 (E := Ref.engine) 2 30 64 = Some v) /\
  const_log2_prec (E := Ref.engine) 30 64
  = lift (GMPF_BITS_TO_PREC 64) (spec_log2 (GMPF_BITS_TO_PREC 64) 30 64).
Proof.
  assert (Hp : limb_aligned 64) by evaluated.
  split; [assumption|]. split.
  - eexists. vm_compute. reflexivity.
  - exact (proj1 (X18_const_log2_with_precision (L := ref_laws) 30 64 Hp)).
Defined.

(** [a = b + c] with a 64-bit [a] and a 128-bit sum: 64 bits in the
    complete header, 128 bits in the older one. *)
Lemma X19_witness :
  (valid_limbs (mp_prec ref_one_64) /\
   valid_limbs (mp_prec ref_quarter_128)) /\
  get_prec (move_assign ref_one_64 (ref_one_64 + ref_quarter_128)%mpf) = 64 /\
  get_prec (Legacy.move_assign ref_one_64 (ref_one_64 + ref_quarter_128)%mpf)
  = 128.
Proof.
  assert (Ha : valid_limbs (mp_prec ref_one_64)) by evaluated.
  assert (Hb : valid_limbs (mp_prec ref_quarter_128)) by evaluated.
  split; [split; assumption|].
  destruct (X19_assigning_a_temporary ref_one_64 ref_one_64 ref_quarter_128
              Ha Ha Hb) as [[H1 _] [H2 _]].
  split; [exact H1 | exact H2].
Defined.

(** The square root of the 128-bit quarter has 128 bits. *)
Lemma X20_witness :
  valid_limbs (mp_prec ref_quarter_128) /\
  get_prec ref_quarter_128 = 128 /\
  get_prec (sqrt ref_quarter_128) = get_prec ref_quarter_128.
Proof.
  assert (Ha : valid_limbs (mp_prec ref_quarter_128)) by evaluated.
  split; [assumption|]. split; [reflexivity|].
  exact (proj1 (proj1 (X20_unary_functions_keep_the_precision
                         ref_quarter_128 Ha))).
Defined.

(** [const_pi(64)] on the reference engine. *)
Lemma X21_witness :
  limb_aligned 64 /\
  (exists v, gauss_legendre_pi (E := Ref.engine) 2 30 64 = Some v) /\
  const_pi_prec (E := Ref.engine) 30 64
  = lift (GMPF_BITS_TO_PREC 64)
         (gauss_legendre_pi (GMPF_BITS_TO_PREC 64) 30 64).
Proof.
  assert (Hp : limb_aligned 64) by evaluated.
  split; [assumption|]. split.
  - eexists. vm_compute. reflexivity.
  - exact (proj1 (X21_const_pi_with_precision (L := ref_laws) 30 64 Hp)).
Defined.
